(** * talent-engineer-tool: scoring, retrieval and job orchestration

    A shallow embedding of the core of [api/app]: [utils.py], [ranking.py],
    [embeddings.py], [rag.py], [orchestrator.py] and, of [main.py], the
    search endpoints, the ingestion of posts, the handle helper and the
    career timeline, together with the properties stated for them.

    Conventions.
    - Python [float] scores are exact rationals ([Q]); the embedding vectors,
      which need a square root, are real numbers ([R]).  Rounding of the
      machine arithmetic is not modelled, except for the progress value,
      which is also evaluated in binary64.
    - Python [str] is [string]; [str.lower] is the ASCII lowering.
    - Rows created with a [uuid4] primary key take their id from a counter
      of the store. *)

From Stdlib Require Import Ascii String QArith Qabs Qround Qminmax Reals Lqa Lra Lia ZArith List Sorted Permutation.
From Stdlib Require Floats Uint63.
From stdpp Require Import base list strings gmap.

Local Open Scope string_scope.
Local Open Scope Z_scope.

(** ** Exceptions *)

Inductive Result (A : Type) : Type :=
| Ok (a : A)
| Raise (msg : string).
Arguments Ok {A} a.
Arguments Raise {A} msg.

(** ** utils.py *)

Module Utils.

(** [normalized_score(value, lo, hi)] *)
Definition normalized_score (value lo hi : Q) : Q :=
  if Qle_bool hi lo then 0%Q
  else
    let v := Qmax lo (Qmin hi value) in
    ((v - lo) / (hi - lo))%Q.

End Utils.

(** ** Strings *)

Definition ascii_lower (c : ascii) : ascii :=
  let n := Ascii.nat_of_ascii c in
  if (65 <=? n)%nat && (n <=? 90)%nat then Ascii.ascii_of_nat (n + 32) else c.

Fixpoint str_lower (s : string) : string :=
  match s with
  | EmptyString => EmptyString
  | String c s' => String (ascii_lower c) (str_lower s')
  end.

(** Python truthiness of a [str] and of an optional [str]. *)
Definition str_truthy (s : string) : bool :=
  match s with EmptyString => false | _ => true end.

Definition opt_str_truthy (o : option string) : bool :=
  match o with Some s => str_truthy s | None => false end.

(** ** ranking.py *)

Module Ranking.

Definition list_truthy {A} (l : list A) : bool :=
  match l with [] => false | _ => true end.

Definition Qof_nat (n : nat) : Q := inject_Z (Z.of_nat n).

(** [topical_fit(keywords_query, topics_candidate)] *)
Definition lowered_set (l : list string) : gset string :=
  list_to_set (map str_lower l).

Definition topical_fit (keywords_query topics_candidate : list string) : Q :=
  if negb (list_truthy keywords_query) || negb (list_truthy topics_candidate)
  then 0%Q
  else
    let s_q := lowered_set keywords_query in
    let s_c := lowered_set topics_candidate in
    let inter := size (s_q ∩ s_c) in
    (Qof_nat inter / Qof_nat (Nat.max 1 (size s_q)))%Q.

(** The breakdown dictionary returned next to the total. *)
Record Breakdown := {
  fit_keywords : Q;
  fit_embed : Q;
  bd_topical_fit : Q;
  bd_impact : Q;
  bd_recency : Q;
  bd_seniority_fit : Q;
  w_fit : Q;
  w_impact : Q;
  w_recency : Q;
  w_seniority : Q
}.

(** Truthiness of [recent_year : int | None]. *)
Definition year_truthy (y : option Z) : bool :=
  match y with Some v => negb (v =? 0) | None => false end.

(** [recent_year or d] *)
Definition year_or (y : option Z) (d : Z) : Z :=
  match y with Some v => if v =? 0 then d else v | None => d end.

(** [score_candidate(...)] *)
Definition score_candidate
    (query_keywords topics : list string) (h_approx : Q) (best_citations : Z)
    (recent_year : option Z) (current_year : Z)
    (embed_similarity seniority_fit : Q) : Q * Breakdown :=
  let fit_keywords := topical_fit query_keywords topics in
  let fit_embed := embed_similarity in
  let fit := ((5#10) * fit_keywords + (5#10) * fit_embed)%Q in
  let impact :=
    (Utils.normalized_score (inject_Z best_citations) 0 500 * (7#10)
     + Utils.normalized_score h_approx 0 80 * (3#10))%Q in
  let recency :=
    if year_truthy recent_year
    then Utils.normalized_score
           (inject_Z (year_or recent_year (current_year - 15)))
           (inject_Z (current_year - 15)) (inject_Z current_year)
    else 0%Q in
  let total :=
    ((45#100) * fit + (30#100) * impact + (15#100) * recency
     + (10#100) * seniority_fit)%Q in
  (total,
   {| fit_keywords := fit_keywords; fit_embed := fit_embed;
      bd_topical_fit := fit; bd_impact := impact; bd_recency := recency;
      bd_seniority_fit := seniority_fit;
      w_fit := (45#100)%Q; w_impact := (30#100)%Q; w_recency := (15#100)%Q;
      w_seniority := (10#100)%Q |}).

(** [estimate_seniority(years_active, h_approx, works_count)] *)
Definition estimate_seniority
    (years_active : option Z) (h_approx : Q) (works_count : Z) : string :=
  let ya := year_or years_active 0 in
  if (10 <=? ya) || Qle_bool 25 h_approx || (80 <=? works_count)
  then "principal"
  else if (6 <=? ya) || Qle_bool 12 h_approx || (40 <=? works_count)
  then "senior"
  else if (3 <=? ya) || Qle_bool 6 h_approx || (15 <=? works_count)
  then "mid"
  else "junior".

(** [list.index]: position of the first occurrence, [None] for the
    [ValueError]. *)
Fixpoint index_of (x : string) (l : list string) : option nat :=
  match l with
  | [] => None
  | y :: l' => if String.eqb y x then Some 0%nat
               else option_map S (index_of x l')
  end.

Definition order : list string := ["junior"; "mid"; "senior"; "principal"].

Definition fit_table : list Q := [1; 8#10; 5#10; 2#10]%Q.

(** [abs(ci - di)] on list positions. *)
Definition abs_diff (a b : nat) : nat := Z.to_nat (Z.abs (Z.of_nat a - Z.of_nat b)).

(** [seniority_fit_score(candidate_level, desired_level)] *)
Definition seniority_fit_score
    (candidate_level : string) (desired_level : option string) : Q :=
  if negb (opt_str_truthy desired_level) then 1%Q
  else
    match index_of candidate_level order,
          index_of (default EmptyString desired_level) order with
    | Some ci, Some di =>
        let diff := abs_diff ci di in
        nth (Nat.min diff 3) fit_table 0%Q
    | _, _ => (8#10)%Q
    end.

End Ranking.

(** ** Python string methods used by the pipeline *)

Module PyStr.

Definition chars (s : string) : list ascii := list_ascii_of_string s.
Definition of_chars (l : list ascii) : string := string_of_list_ascii l.

(** Whitespace in the sense of [str.split()] and [str.strip()], ASCII part. *)
Definition is_space (c : ascii) : bool :=
  let n := Ascii.nat_of_ascii c in
  ((9 <=? n)%nat && (n <=? 13)%nat) || ((28 <=? n)%nat && (n <=? 32)%nat).

Definition mem_ascii (c : ascii) (set : list ascii) : bool :=
  existsb (Ascii.eqb c) set.

Fixpoint lstrip_chars (set : list ascii) (l : list ascii) : list ascii :=
  match l with
  | c :: l' => if mem_ascii c set then lstrip_chars set l' else l
  | [] => []
  end.

Definition strip_chars (set : list ascii) (l : list ascii) : list ascii :=
  rev (lstrip_chars set (rev (lstrip_chars set l))).

(** [s.strip(chars)] *)
Definition strip_set (set : string) (s : string) : string :=
  of_chars (strip_chars (chars set) (chars s)).

Fixpoint lstrip_space (l : list ascii) : list ascii :=
  match l with
  | c :: l' => if is_space c then lstrip_space l' else l
  | [] => []
  end.

(** [s.strip()] *)
Definition strip (s : string) : string :=
  of_chars (rev (lstrip_space (rev (lstrip_space (chars s))))).

(** [s.split()]: maximal runs of non-whitespace characters. *)
Fixpoint split_chars (cur : list ascii) (l : list ascii) : list (list ascii) :=
  match l with
  | [] => match cur with [] => [] | _ => [rev cur] end
  | c :: l' =>
      if is_space c
      then match cur with
           | [] => split_chars [] l'
           | _ => rev cur :: split_chars [] l'
           end
      else split_chars (c :: cur) l'
  end.

Definition split (s : string) : list string :=
  map of_chars (split_chars [] (chars s)).

(** [s.isascii()] *)
Definition isascii (s : string) : bool :=
  forallb (fun c => (Ascii.nat_of_ascii c <? 128)%nat) (chars s).

(** [sep.join(parts)] *)
Definition join (sep : string) (parts : list string) : string :=
  String.concat sep parts.

(** [s[:n]] for [n >= 0] *)
Definition prefix (n : nat) (s : string) : string := String.substring 0 n s.

Definition newline : string := String (Ascii.ascii_of_nat 10) EmptyString.

End PyStr.

(** ** Stable sorting

    [sorted(xs, key=...)] in Python and [ORDER BY ... ] over rows taken in
    insertion order: a stable sort.  [before y x] says that [y] must come
    strictly before [x]; elements that are not ordered by [before] keep the
    order of the input. *)

Section StableSort.
Context {A : Type} (before : A -> A -> bool).

Fixpoint insert_stable (x : A) (l : list A) : list A :=
  match l with
  | [] => [x]
  | y :: l' => if before y x then y :: insert_stable x l' else x :: y :: l'
  end.

Definition stable_sort (l : list A) : list A := foldr insert_stable [] l.

(** [x] may stand in front of [y]. *)
Definition not_after (x y : A) : Prop := before y x = false.

(** The order of the output: strictly before, or tied and in the order of
    the input, which [T] describes. *)
Definition sorted_stably (T : A -> A -> Prop) (x y : A) : Prop :=
  before x y = true \/ (before y x = false /\ T x y).
End StableSort.

(** ** models.py *)

Module Models.

Inductive JobStatus := PENDING | RUNNING | DONE | ERROR.

Definition JobStatus_eqb (a b : JobStatus) : bool :=
  match a, b with
  | PENDING, PENDING | RUNNING, RUNNING | DONE, DONE | ERROR, ERROR => true
  | _, _ => false
  end.

(** [filters_seniority] is the value under the key "seniority" of the JSON
    object in [filters_json] ([None] when the key is absent or the text
    does not parse).  The timestamps are left out. *)
Record Job := {
  job_query : string;
  job_description : option string;
  filters_seniority : option string;
  job_status : JobStatus;
  job_progress : Z;
  job_error : option string
}.

Record Candidate := {
  cand_id : nat;
  cand_name : string;
  cand_affiliation : option string;
  cand_openalex_id : option string
}.

Record Publication := {
  pub_id : nat;
  pub_candidate_id : nat;
  pub_title : option string;
  pub_venue : option string;
  pub_year : option Z;
  pub_citations : Z;
  pub_abstract : option string;
  pub_openalex_work_id : option string
}.

Record AffiliationYear := {
  ay_id : nat;
  ay_candidate_id : nat;
  ay_org_name : string;
  ay_year : Z;
  ay_evidence_count : Z
}.

(** [topics_json] and [score_breakdown_json] are kept as the values they
    serialize; the breakdown carries the two keys [run_search] adds. *)
Record AnalysisSummary := {
  as_id : nat;
  as_candidate_id : nat;
  as_topics : list string;
  as_breakdown : Ranking.Breakdown;
  as_seniority : string;
  as_requested_level : option string;
  as_total_score : Q
}.

(** The tables [run_search] and [get_search] touch. *)
Record Store := {
  jobs : gmap string Job;
  candidates : list Candidate;
  publications : list Publication;
  affiliation_years : list AffiliationYear;
  summaries : list AnalysisSummary
}.

Definition empty_store : Store :=
  {| jobs := ∅; candidates := []; publications := [];
     affiliation_years := []; summaries := [] |}.

End Models.

(** ** db.py: sessions

    [Session.add] registers a new object with the session; its row reaches
    the database when the session flushes, which [commit] does.  A statement
    built with [sqlalchemy.text] and passed to [Session.exec] is sent to the
    connection as it is: the session flushes before ORM statements only, so
    a textual SELECT reads the rows already written and not the objects
    that are still pending. *)

Module Db.
Import Models.

Inductive Row :=
| RPublication (p : Publication)
| RAffiliationYear (a : AffiliationYear)
| RSummary (s : AnalysisSummary).

Record Session := {
  db : Store;
  pending : list Row
}.

Definition open_session (st : Store) : Session := {| db := st; pending := [] |}.

Definition add (r : Row) (s : Session) : Session :=
  {| db := db s; pending := pending s ++ [r] |}.

Definition write_row (st : Store) (r : Row) : Store :=
  match r with
  | RPublication p =>
      {| jobs := jobs st; candidates := candidates st;
         publications := publications st ++ [p];
         affiliation_years := affiliation_years st; summaries := summaries st |}
  | RAffiliationYear a =>
      {| jobs := jobs st; candidates := candidates st;
         publications := publications st;
         affiliation_years := affiliation_years st ++ [a];
         summaries := summaries st |}
  | RSummary s =>
      {| jobs := jobs st; candidates := candidates st;
         publications := publications st;
         affiliation_years := affiliation_years st;
         summaries := summaries st ++ [s] |}
  end.

Definition flush (s : Session) : Session :=
  {| db := fold_left write_row (pending s) (db s); pending := [] |}.

(** [s.commit()], followed by leaving the [with] block. *)
Definition commit (s : Session) : Store := db (flush s).

(** SELECT id, evidence_count FROM affiliationyear
    WHERE candidate_id = :cid AND year = :yr AND org_name = :org LIMIT 1 *)
Definition affiliation_matches (cid : nat) (yr : Z) (org : string)
    (a : AffiliationYear) : bool :=
  Nat.eqb (ay_candidate_id a) cid && Z.eqb (ay_year a) yr
  && String.eqb (ay_org_name a) org.

Definition select_affiliation (s : Session) (cid : nat) (yr : Z) (org : string)
    : option (nat * Z) :=
  match List.find (affiliation_matches cid yr org) (affiliation_years (db s)) with
  | Some a => Some (ay_id a, ay_evidence_count a)
  | None => None
  end.

(** UPDATE affiliationyear SET evidence_count = :ev WHERE id = :id *)
Definition update_evidence (s : Session) (id : nat) (ev : Z) : Session :=
  let st := db s in
  {| db := {| jobs := jobs st; candidates := candidates st;
              publications := publications st;
              affiliation_years :=
                map (fun a => if Nat.eqb (ay_id a) id
                              then {| ay_id := ay_id a;
                                      ay_candidate_id := ay_candidate_id a;
                                      ay_org_name := ay_org_name a;
                                      ay_year := ay_year a;
                                      ay_evidence_count := ev |}
                              else a)
                    (affiliation_years st);
              summaries := summaries st |};
     pending := pending s |}.

(** [s.add(c); s.commit(); s.refresh(c)] for a new candidate. *)
Definition insert_candidate (st : Store) (c : Candidate) : Store :=
  {| jobs := jobs st; candidates := candidates st ++ [c];
     publications := publications st;
     affiliation_years := affiliation_years st; summaries := summaries st |}.

(** [job = s.get(Job, id); if job: <assignments>; s.add(job); s.commit()] *)
Definition update_job (st : Store) (id : string) (f : Job -> Job) : Store :=
  match jobs st !! id with
  | Some j =>
      {| jobs := <[id := f j]> (jobs st); candidates := candidates st;
         publications := publications st;
         affiliation_years := affiliation_years st; summaries := summaries st |}
  | None => st
  end.

End Db.

(** ** utils.py: keywords and abstracts

    The texts are ASCII: [str.lower] and [str.isalpha] are taken on the
    ASCII letters. *)

Module UtilsText.
Local Open Scope list_scope.

(** [reconstruct_openalex_abstract(inv_idx)].  The dictionary is the list
    of its items in insertion order; a position is any integer, and a
    negative one indexes from the end as Python lists do. *)

Definition index_error : string := "list assignment index out of range".

(** [max(positions)] for a non-empty list *)
Definition max_of (positions : list Z) : Z :=
  match positions with
  | [] => 0
  | p :: rest => fold_left Z.max rest p
  end.

(** The first loop: the largest position, at least 0. *)
Definition max_position (inv_idx : list (string * list Z)) : Z :=
  fold_left
    (fun max_pos item =>
       match snd item with
       | [] => max_pos
       | positions => Z.max max_pos (max_of positions)
       end)
    inv_idx 0.

(** [if p < len(words): words[p] = word] *)
Definition place (word : string) (words : Result (list (option string)))
    (p : Z) : Result (list (option string)) :=
  match words with
  | Raise e => Raise e
  | Ok ws =>
      let n := Z.of_nat (length ws) in
      if p <? n then
        if 0 <=? p then Ok (<[Z.to_nat p := Some word]> ws)
        else if - n <=? p then Ok (<[Z.to_nat (n + p) := Some word]> ws)
        else Raise index_error
      else Ok ws
  end.

(** The second loop. *)
Definition fill (inv_idx : list (string * list Z))
    (words : list (option string)) : Result (list (option string)) :=
  fold_left (fun acc item => fold_left (place (fst item)) (snd item) acc)
            inv_idx (Ok words).

(** [w for w in words if w] *)
Definition truthy_words (words : list (option string)) : list string :=
  flat_map (fun w => match w with
                     | Some s => if str_truthy s then [s] else []
                     | None => []
                     end) words.

Definition reconstruct_openalex_abstract (inv_idx : list (string * list Z))
    : Result string :=
  match inv_idx with
  | [] => Ok EmptyString
  | _ =>
      let max_pos := max_position inv_idx in
      let words := replicate (Z.to_nat (max_pos + 1)) None in
      match fill inv_idx words with
      | Raise e => Raise e
      | Ok words => Ok (PyStr.join " " (truthy_words words))
      end
  end.

(** [STOPWORDS] *)
Definition STOPWORDS : list string :=
  ["a"; "an"; "the"; "and"; "or"; "of"; "for"; "to"; "in"; "on"; "with";
   "from"; "that"; "this"; "these"; "those"; "via"; "using"; "use";
   "is"; "are"; "was"; "were"; "be"; "been"; "being"; "as"; "by"; "at";
   "we"; "our"; "their"; "his"; "her"; "its"; "it"; "they"; "them";
   "into"; "over"; "under"; "about"; "within"; "without"; "not"; "no";
   "yes"; "can"; "could"; "should"; "would"; "may"; "might";
   "method"; "methods"; "results"; "introduction"; "conclusion"; "abstract";
   "study"; "paper"; "dataset"; "data";
   "model"; "models"; "approach"; "approaches"; "new"; "propose"; "proposed";
   "show"; "shows"; "work"; "works";
   "learning"; "machine"; "deep"; "neural"; "network"; "networks";
   "transformer"; "transformers"; "large";
   "language"; "languages"; "based"; "task"; "tasks"; "performance"; "state";
   "art"; "sota"]%string.

(** The characters of [strip] in [top_keywords]:
    . , : ; ( ) [ ] { } double quote, quote, newline, tab, space *)
Definition strip_codes : list nat :=
  [46; 44; 58; 59; 40; 41; 91; 93; 123; 125; 34; 39; 10; 9; 32]%nat.

Definition strip_set : list ascii := map Ascii.ascii_of_nat strip_codes.

Definition is_letter (c : ascii) : bool :=
  let n := Ascii.nat_of_ascii c in
  ((65 <=? n)%nat && (n <=? 90)%nat) || ((97 <=? n)%nat && (n <=? 122)%nat).

(** [s.isalpha()] *)
Definition isalpha (s : string) : bool :=
  str_truthy s && forallb is_letter (PyStr.chars s).

(** [t.lower().strip(...) for t in text.split()] *)
Definition tokens (text : string) : list string :=
  map (fun t => PyStr.of_chars
                  (PyStr.strip_chars strip_set (PyStr.chars (str_lower t))))
      (PyStr.split text).

(** The test before [continue]. *)
Definition skipped (tok : string) : bool :=
  negb (str_truthy tok) || existsb (String.eqb tok) STOPWORDS
  || negb (isalpha tok) || (String.length tok <? 3)%nat.

(** [counts[tok] += 1] on a [Counter], kept as its items in the order the
    keys were inserted. *)
Fixpoint increment (tok : string) (counts : list (string * nat))
    : list (string * nat) :=
  match counts with
  | [] => [(tok, 1%nat)]
  | (w, n) :: rest =>
      if String.eqb w tok then (w, S n) :: rest
      else (w, n) :: increment tok rest
  end.

Definition count_chunk (counts : list (string * nat)) (text : string)
    : list (string * nat) :=
  fold_left (fun counts tok => if skipped tok then counts
                               else increment tok counts)
            (tokens text) counts.

(** [counts.most_common(k)]: the items by decreasing count, items of equal
    count in the order of insertion, cut at [k]. *)
Definition most_common (k : nat) (counts : list (string * nat))
    : list (string * nat) :=
  take k (stable_sort (fun a b => (snd b <? snd a)%nat) counts).

(** [top_keywords(chunks, k)] *)
Definition top_keywords (chunks : list string) (k : nat) : list string :=
  map fst (most_common k (fold_left count_chunk chunks [])).

End UtilsText.

(** ** connectors/openalex.py: the values the connector returns *)

Module OpenAlex.

Record OpenAlexAuthor := {
  author_id : string;
  display_name : string;
  affiliation : option string;
  works_count : Z;
  cited_by_count : Z
}.

(** One dictionary of the list built by [fetch_top_works]; every key is
    present, a JSON null is [None]. *)
Record Work := {
  title : option string;
  venue : option string;
  year : option Z;
  citations : Z;
  abstract : option string;
  org_at_publication : option string;
  work_id : option string
}.

End OpenAlex.

(** ** orchestrator.py *)

Module Orchestrator.
Import Models OpenAlex.

Record CandidateEvent := {
  ev_candidate_id : nat;
  ev_name : string;
  ev_affiliation : option string;
  ev_topics : list string;
  ev_score : Q;
  ev_seniority : string
}.

(** The dictionaries passed to [events.emit], by their "type". *)
Inductive Event :=
| EvProgress (progress : Z)
| EvCandidate (candidate : CandidateEvent)
| EvFinished
| EvError (message : string).

(** The database, the queues of [JobEvents] and the source of fresh
    primary keys. *)
Record World := {
  store : Store;
  queues : gmap string (list Event);
  uuid_next : nat
}.

Definition with_store (w : World) (st : Store) : World :=
  {| store := st; queues := queues w; uuid_next := uuid_next w |}.

(** [JobEvents.get_queue] followed by [q.put]. *)
Definition emit (job_id : string) (ev : Event) (w : World) : World :=
  {| store := store w;
     queues := <[job_id := (default [] (queues w !! job_id) ++ [ev])%list]> (queues w);
     uuid_next := uuid_next w |}.

Definition queue_of (job_id : string) (w : World) : list Event :=
  default [] (queues w !! job_id).

(** [int(x)] on a non-integral number: truncation toward zero. *)
Definition py_int (q : Q) : Z := Z.quot (Qnum q) (Zpos (Qden q)).

(** [int(5 + (step / max(1, total)) * 90)] *)
Definition progress_value (step total : Z) : Z :=
  py_int (5 + (inject_Z step / inject_Z (Z.max 1 total)) * 90)%Q.

Definition str_or (a b : string) : string := if str_truthy a then a else b.

Definition opt_or_empty (o : option string) : string :=
  match o with Some s => s | None => EmptyString end.

Definition type_error_none_plus_str : string :=
  "unsupported operand type(s) for +: 'NoneType' and 'str'".

Definition attribute_error_none_job : string :=
  "'NoneType' object has no attribute 'job_description'".

(** What the loop body computes for one author before it writes. *)
Record Analysis := {
  an_works : list Work;
  an_topics : list string;
  an_score : Q;
  an_breakdown : Ranking.Breakdown;
  an_seniority_level : string
}.

(** The features of the job computed once before the loop. *)
Record JobContext := {
  ctx_query : string;
  ctx_job_text : string;
  ctx_job_keywords : list string;
  ctx_requested_level : option string
}.

Section Run.
(** The collaborators and the numeric library calls. *)
Variable search_authors : string -> nat -> Result (list OpenAlexAuthor).
Variable fetch_top_works : string -> nat -> Result (list Work).
(** [utils.top_keywords], also behind [LLMProvider.extract_topics] *)
Variable top_keywords : list string -> nat -> list string.
(** [min(works_count ** 0.5, cited_by_count ** 0.4)] *)
Variable h_proxy : Z -> Z -> Q.
(** [float(cosine_similarity(embedder.embed(a), embedder.embed(b)))] *)
Variable embed_cosine : string -> string -> Q.
(** [datetime.utcnow().year] *)
Variable now_year : Z.

(** [w.get("title", "") + "\n" + (w.get("abstract") or "")] for each work *)
Fixpoint work_texts (works : list Work) : Result (list string) :=
  match works with
  | [] => Ok []
  | w :: works' =>
      match title w with
      | None => Raise type_error_none_plus_str
      | Some t =>
          match work_texts works' with
          | Ok texts =>
              Ok ((t ++ PyStr.newline ++ opt_or_empty (abstract w))%string
                  :: texts)
          | Raise e => Raise e
          end
      end
  end.

Definition max_list (l : list Z) : Z := fold_right Z.max 0 l.
Definition min_list (d : Z) (l : list Z) : Z := fold_right Z.min d l.

Definition analyse (ctx : JobContext) (author : OpenAlexAuthor)
    : Result Analysis :=
  match fetch_top_works (author_id author) 10 with
  | Raise e => Raise e
  | Ok works =>
      match work_texts works with
      | Raise e => Raise e
      | Ok texts =>
          let topics := top_keywords texts 8 in
          let best_citations := max_list (map citations works) in
          let recent :=
            max_list (map (fun w => Ranking.year_or (year w) 0) works) in
          let recent_year := if recent =? 0 then None else Some recent in
          let h_approx :=
            h_proxy (works_count author) (cited_by_count author) in
          let cand_text :=
            PyStr.prefix (Z.to_nat 8000)
              (PyStr.join (PyStr.newline ++ PyStr.newline) texts) in
          let embed_fit :=
            embed_cosine cand_text (str_or (ctx_job_text ctx) (ctx_query ctx)) in
          let first_year :=
            min_list now_year
              (map (fun w => Ranking.year_or (year w) now_year) works) in
          let years_active := Z.max 1 (now_year - first_year + 1) in
          let seniority_level :=
            Ranking.estimate_seniority (Some years_active) h_approx
              (works_count author) in
          let seniority_fit :=
            Ranking.seniority_fit_score seniority_level
              (ctx_requested_level ctx) in
          let keywords :=
            match ctx_job_keywords ctx with
            | [] => PyStr.split (ctx_query ctx)
            | ks => ks
            end in
          let '(score, breakdown) :=
            Ranking.score_candidate keywords topics h_approx best_citations
              recent_year now_year embed_fit seniority_fit in
          Ok {| an_works := works; an_topics := topics; an_score := score;
                an_breakdown := breakdown;
                an_seniority_level := seniority_level |}
      end
  end.

(** The body of [for w in works] inside the session: the publication is
    added, then the yearly affiliation is looked up and either counted or
    added. *)
Definition persist_work (cid : nat) (acc : Db.Session * nat) (w : Work)
    : Db.Session * nat :=
  let '(s, next) := acc in
  let pub :=
    {| pub_id := next; pub_candidate_id := cid; pub_title := title w;
       pub_venue := venue w; pub_year := year w;
       pub_citations := citations w; pub_abstract := abstract w;
       pub_openalex_work_id := work_id w |} in
  let s := Db.add (Db.RPublication pub) s in
  let next := S next in
  match org_at_publication w, year w with
  | Some org, Some yr =>
      if str_truthy org then
        match Db.select_affiliation s cid yr org with
        | Some (aff_id, ev) => (Db.update_evidence s aff_id (ev + 1), next)
        | None =>
            (Db.add (Db.RAffiliationYear
                       {| ay_id := next; ay_candidate_id := cid;
                          ay_org_name := org; ay_year := yr;
                          ay_evidence_count := 1 |}) s,
             S next)
        end
      else (s, next)
  | _, _ => (s, next)
  end.

(** The [with get_session() as s] block that stores one candidate, and the
    "candidate" event emitted at its end. *)
Definition persist_candidate (ctx : JobContext) (job_id : string)
    (author : OpenAlexAuthor) (an : Analysis) (w : World) : World :=
  let cid := uuid_next w in
  let c := {| cand_id := cid; cand_name := display_name author;
              cand_affiliation := affiliation author;
              cand_openalex_id := Some (author_id author) |} in
  let st := Db.insert_candidate (store w) c in
  let '(s, next) :=
    fold_left (persist_work cid) (an_works an)
              (Db.open_session st, S cid) in
  let summary :=
    {| as_id := next; as_candidate_id := cid; as_topics := an_topics an;
       as_breakdown := an_breakdown an;
       as_seniority := an_seniority_level an;
       as_requested_level := ctx_requested_level ctx;
       as_total_score := an_score an |} in
  let s := Db.add (Db.RSummary summary) s in
  let w' := {| store := Db.commit s; queues := queues w;
               uuid_next := S next |} in
  emit job_id
    (EvCandidate {| ev_candidate_id := cid; ev_name := cand_name c;
                    ev_affiliation := cand_affiliation c;
                    ev_topics := an_topics an; ev_score := an_score an;
                    ev_seniority := an_seniority_level an |})
    w'.

(** One iteration of [for author in authors]; the result is the new value
    of [step]. *)
Definition process_author (ctx : JobContext) (job_id : string) (total : Z)
    (step : Z) (author : OpenAlexAuthor) (w : World) : World * Result Z :=
  match analyse ctx author with
  | Raise e => (w, Raise e)
  | Ok an =>
      let w := persist_candidate ctx job_id author an w in
      let step := step + 1 in
      let progress := progress_value step total in
      let w :=
        with_store w
          (Db.update_job (store w) job_id
             (fun j => {| job_query := job_query j;
                          job_description := job_description j;
                          filters_seniority := filters_seniority j;
                          job_status := job_status j;
                          job_progress := progress;
                          job_error := job_error j |})) in
      (emit job_id (EvProgress progress) w, Ok step)
  end.

Fixpoint author_loop (ctx : JobContext) (job_id : string) (total : Z)
    (step : Z) (authors : list OpenAlexAuthor) (w : World)
    : World * Result Z :=
  match authors with
  | [] => (w, Ok step)
  | author :: rest =>
      match process_author ctx job_id total step author w with
      | (w', Ok step') => author_loop ctx job_id total step' rest w'
      | (w', Raise e) => (w', Raise e)
      end
  end.

Definition set_status (status : JobStatus) (progress : Z) (j : Job) : Job :=
  {| job_query := job_query j; job_description := job_description j;
     filters_seniority := filters_seniority j; job_status := status;
     job_progress := progress; job_error := job_error j |}.

Definition set_error (msg : string) (j : Job) : Job :=
  {| job_query := job_query j; job_description := job_description j;
     filters_seniority := filters_seniority j; job_status := ERROR;
     job_progress := job_progress j; job_error := Some msg |}.

Definition job_context (job : Job) : JobContext :=
  let query := job_query job in
  let job_text := PyStr.strip (opt_or_empty (job_description job)) in
  {| ctx_query := query; ctx_job_text := job_text;
     ctx_job_keywords := top_keywords [str_or job_text query] 12;
     ctx_requested_level :=
       if opt_str_truthy (filters_seniority job)
       then filters_seniority job else None |}.

Definition discover_query (job : Job) : string :=
  let ctx := job_context job in
  str_or (ctx_query ctx) (str_or (ctx_job_text ctx) "ai researcher").

(** The [try] block of [run_search]. *)
Definition run_search_body (job_id : string) (job : Job) (w : World)
    : World * Result unit :=
  match search_authors (discover_query job) 10 with
  | Raise e => (w, Raise e)
  | Ok [] =>
      let w := with_store w (Db.update_job (store w) job_id (set_status DONE 100)) in
      (emit job_id EvFinished w, Ok tt)
  | Ok authors =>
      let total := Z.of_nat (length authors) in
      match author_loop (job_context job) job_id total 0 authors w with
      | (w, Raise e) => (w, Raise e)
      | (w, Ok _) =>
          let w :=
            with_store w (Db.update_job (store w) job_id (set_status DONE 100)) in
          (emit job_id EvFinished w, Ok tt)
      end
  end.

(** [run_search(job_id)] *)
Definition run_search (job_id : string) (w : World) : World :=
  match jobs (store w) !! job_id with
  | None => w
  | Some _ =>
      let w :=
        with_store w
          (Db.update_job (store w) job_id (set_status RUNNING 1)) in
      let w := emit job_id (EvProgress 1) w in
      let '(w, r) :=
        match jobs (store w) !! job_id with
        | Some job => run_search_body job_id job w
        | None => (w, Raise attribute_error_none_job)
        end in
      match r with
      | Ok _ => w
      | Raise e =>
          let w :=
            with_store w (Db.update_job (store w) job_id (set_error e)) in
          emit job_id (EvError e) w
      end
  end.

End Run.

End Orchestrator.

(** ** orchestrator.py: the class JobEvents on its dictionary of queues *)

Module JobEvents.
Import Orchestrator.

(** [get_queue]: the queue of the job, created empty and stored when the
    dictionary has none. *)
Definition get_queue (job_id : string) (qs : gmap string (list Event))
    : list Event * gmap string (list Event) :=
  match qs !! job_id with
  | Some q => (q, qs)
  | None => ([], <[job_id := []]> qs)
  end.

(** [emit]: [q = self.get_queue(job_id); await q.put(...)] *)
Definition emit (job_id : string) (ev : Event) (qs : gmap string (list Event))
    : gmap string (list Event) :=
  let '(q, qs) := get_queue job_id qs in
  <[job_id := (q ++ [ev])%list]> qs.

(** [remove]: [self._queues.pop(job_id, None)] *)
Definition remove (job_id : string) (qs : gmap string (list Event))
    : gmap string (list Event) :=
  delete job_id qs.

End JobEvents.

(** ** The progress expression in binary64

    [int(5 + (step / max(1, total)) * 90)] as Python evaluates it: a true
    division, a multiplication and an addition of IEEE 754 doubles, then a
    truncation. *)

Module Binary64.

Definition float_of_Z (z : Z) : PrimFloat.float :=
  PrimFloat.of_uint63 (Uint63.of_Z z).

(** [int(f)] for a finite float. *)
Definition trunc (f : PrimFloat.float) : Z :=
  match FloatOps.Prim2SF f with
  | SpecFloat.S754_finite s m e =>
      let a := if 0 <=? e then Z.pos m * 2 ^ e else Z.pos m / 2 ^ (- e) in
      if s then - a else a
  | _ => 0
  end.

Definition progress_value (step total : Z) : Z :=
  trunc
    (PrimFloat.add (float_of_Z 5)
       (PrimFloat.mul
          (PrimFloat.div (float_of_Z step) (float_of_Z (Z.max 1 total)))
          (float_of_Z 90))).

(** The pairs [(step, total)] with [1 <= step <= total <= n]. *)
Definition steps_up_to (n : nat) : list (Z * Z) :=
  flat_map (fun t => map (fun s => (Z.of_nat s, Z.of_nat t)) (seq 1 t))
           (seq 1 n).

End Binary64.

(** ** main.py: GET /search/{search_id} *)

Module Api.
Import Models.

Record CandidateSummary := {
  cs_candidate_id : nat;
  cs_name : string;
  cs_affiliation : option string;
  cs_topics : list string;
  cs_score : Q;
  cs_seniority : option string
}.

Record SearchStatusResponse := {
  resp_status : JobStatus;
  resp_progress : Z;
  resp_results : list CandidateSummary
}.

(** [ORDER BY total_score DESC]: a row comes strictly before another when
    its score is strictly higher. *)
Definition higher_score (a b : AnalysisSummary) : bool :=
  negb (Qle_bool (as_total_score a) (as_total_score b)).

(** FROM analysis_summary JOIN candidate
    ON candidate.id = analysis_summary.candidate_id
    (the statement is read against the table of [AnalysisSummary]) *)
Definition joined_rows (st : Store) : list (AnalysisSummary * Candidate) :=
  flat_map
    (fun s =>
       map (fun c => (s, c))
           (List.filter (fun c => Nat.eqb (cand_id c) (as_candidate_id s))
                        (candidates st)))
    (summaries st).

Definition top_rows (st : Store) : list (AnalysisSummary * Candidate) :=
  take 20 (stable_sort (fun a b => higher_score (fst a) (fst b))
                       (joined_rows st)).

(** SELECT score_breakdown_json FROM analysis_summary
    WHERE candidate_id = :cid ORDER BY total_score DESC LIMIT 1,
    then the "seniority" key of the breakdown *)
Definition seniority_of (st : Store) (cid : nat) : option string :=
  match stable_sort higher_score
          (List.filter (fun s => Nat.eqb (as_candidate_id s) cid)
                       (summaries st)) with
  | s :: _ => Some (as_seniority s)
  | [] => None
  end.

Definition http_404 : string := "search not found".

(** [get_search(search_id)] *)
Definition get_search (st : Store) (search_id : string)
    : Result SearchStatusResponse :=
  match jobs st !! search_id with
  | None => Raise http_404
  | Some job =>
      let results :=
        if JobStatus_eqb (job_status job) RUNNING
           || JobStatus_eqb (job_status job) DONE
        then
          map (fun '(s, c) =>
                 {| cs_candidate_id := cand_id c; cs_name := cand_name c;
                    cs_affiliation := cand_affiliation c;
                    cs_topics := as_topics s;
                    cs_score := as_total_score s;
                    cs_seniority := seniority_of st (cand_id c) |})
              (top_rows st)
        else [] in
      Ok {| resp_status := job_status job;
            resp_progress := job_progress job;
            resp_results := results |}
  end.

End Api.

(** ** main.py: POST /search, handles, and the career timeline *)

Module Main.
Import Models Orchestrator.
Local Open Scope list_scope.

(** [SearchRequest]; the filters dictionary is kept by the value under
    its key "seniority", as in [Job]. *)
Record SearchRequest := {
  req_query : string;
  req_job_description : option string;
  req_seniority : option string
}.

(** [post_search(payload)] up to the start of the background task:
    [job_id] is the uuid4 string the new row takes as its key.  The
    result is the [search_id] of the response. *)
Definition post_search (payload : SearchRequest) (job_id : string) (w : World)
    : World * string :=
  let job :=
    {| job_query := req_query payload;
       job_description := req_job_description payload;
       filters_seniority := req_seniority payload;
       job_status := PENDING; job_progress := 0; job_error := None |} in
  let st := store w in
  (with_store w
     {| jobs := <[job_id := job]> (jobs st); candidates := candidates st;
        publications := publications st;
        affiliation_years := affiliation_years st;
        summaries := summaries st |},
   job_id).

(** [_normalize_handle(handle)] on an optional string *)
Definition _normalize_handle (handle : option string) : option string :=
  match handle with
  | None => None
  | Some handle =>
      if negb (str_truthy handle) then None
      else
        let stripped := PyStr.strip handle in
        if negb (str_truthy stripped) then None
        else
          let rest :=
            PyStr.of_chars (PyStr.lstrip_chars ["@"%char] (PyStr.chars stripped)) in
          if str_truthy rest then Some rest else None
  end.

(** One dictionary of [segments] in [get_candidate]. *)
Record Segment := {
  seg_org : string;
  seg_start_year : Z;
  seg_end_year : Z
}.

(** The loop that compresses the yearly affiliation rows
    (org_name, year, evidence_count) into segments; the state is
    [(cur_org, start, prev_year)], [None] before the first row, and the
    segments appended so far. *)
Definition segment_step
    (st : option (string * Z * Z) * list Segment) (row : string * Z * Z)
    : option (string * Z * Z) * list Segment :=
  let '(cur, segments) := st in
  let '(org_name, year, _) := row in
  match cur with
  | None => (Some (org_name, year, year), segments)
  | Some (cur_org, start, prev_year) =>
      if negb (String.eqb org_name cur_org) || (prev_year + 1 <? year)
      then (Some (org_name, year, year),
            segments ++ [{| seg_org := cur_org; seg_start_year := start;
                            seg_end_year := prev_year |}])
      else (Some (cur_org, start, year), segments)
  end.

Definition career_segments (rows : list (string * Z * Z)) : list Segment :=
  match rows with
  | [] => []
  | _ =>
      let '(cur, segments) := fold_left segment_step rows (None, []) in
      match cur with
      | Some (cur_org, start, prev_year) =>
          segments ++ [{| seg_org := cur_org; seg_start_year := start;
                          seg_end_year := prev_year |}]
      | None => segments
      end
  end.

End Main.

(** ** embeddings.py

    The vectors are lists of reals: the arithmetic of [embed] and
    [cosine_similarity] is taken exactly, and a vector stored as float32
    bytes is read back as the vector that was stored. *)

Module Embeddings.
Local Open Scope R_scope.
Local Open Scope list_scope.

Definition Rltb (x y : R) : bool := if Rlt_dec x y then true else false.

(** [sum(x * y for x, y in zip(a, b))] *)
Fixpoint dot (a b : list R) : R :=
  match a, b with
  | x :: a', y :: b' => x * y + dot a' b'
  | _, _ => 0
  end.

(** [math.sqrt(sum(v * v for v in vec))] *)
Definition norm (vec : list R) : R := sqrt (dot vec vec).

(** The characters removed by [strip] in [_tokenize]:
    . , : ; ( ) [ ] { } double quote, quote, newline, tab, space, ! ? - _ / *)
Definition strip_codes : list nat :=
  [46; 44; 58; 59; 40; 41; 91; 93; 123; 125; 34; 39; 10; 9; 32; 33; 63; 45;
   95; 47]%nat.

Definition strip_set : list ascii := map Ascii.ascii_of_nat strip_codes.

(** [SimpleEmbedder._tokenize] *)
Definition _tokenize (text : string) : list string :=
  map (fun t => str_lower
                  (PyStr.of_chars (PyStr.strip_chars strip_set (PyStr.chars t))))
      (List.filter (fun t => str_truthy t && PyStr.isascii t)
                   (PyStr.split text)).

Section Embedder.
(** [int(hashlib.md5(tok.encode("utf-8")).hexdigest(), 16)] *)
Variable md5 : string -> Z.
(** [self.dim], a positive number of components *)
Variable dim : positive.

(** The loop body: [i = h % dim], the sign from bit 1 of the hash,
    [vec[i] += sign]. *)
Definition bump (vec : list R) (tok : string) : list R :=
  let h := md5 tok in
  let i := Z.to_nat (h mod Z.pos dim) in
  let sign := if Z.eqb (Z.land (Z.shiftr h 1) 1) 0 then 1 else -1 in
  alter (fun v => v + sign) i vec.

Definition accumulate (text : string) : list R :=
  fold_left bump (_tokenize text) (replicate (Pos.to_nat dim) 0).

(** [SimpleEmbedder.embed] *)
Definition embed (text : string) : list R :=
  let vec := accumulate text in
  let n := norm vec in
  if Rlt_dec 0 n then map (fun v => v / n) vec else vec.

End Embedder.

Definition shape_mismatch : string := "shape mismatch".

(** [cosine_similarity(a, b)] *)
Definition cosine_similarity (a b : list R) : Result R :=
  if negb (Nat.eqb (length a) (length b)) then Raise shape_mismatch
  else
    let d := dot a b in
    let na := sqrt (dot a a) in
    let nb := sqrt (dot b b) in
    let denom := na * nb in
    Ok (if Req_dec_T denom 0 then 0 else d / denom).

End Embeddings.

(** ** rag.py and the ingestion of posts in main.py *)

Module Rag.
Import Embeddings.
Local Open Scope list_scope.

Record SocialPost := {
  sp_id : nat;
  sp_candidate_id : nat;
  sp_post_id : string;
  sp_text : string;
  sp_created_at : string
}.

Record Embedding := {
  emb_id : nat;
  emb_candidate_id : nat;
  emb_kind : string;
  emb_ref_id : nat;
  emb_dim : positive;
  emb_vector : list R
}.

(** The two tables and the source of fresh primary keys. *)
Record Corpus := {
  social_posts : list SocialPost;
  embeddings : list Embedding;
  next_key : nat
}.

Definition empty_corpus : Corpus :=
  {| social_posts := []; embeddings := []; next_key := 0 |}.

(** One element of the list [query_tweets] returns. *)
Record Item := {
  item_post_id : string;
  item_text : string;
  item_created_at : string
}.

Definition item_of (sp : SocialPost) : Item :=
  {| item_post_id := sp_post_id sp; item_text := sp_text sp;
     item_created_at := sp_created_at sp |}.

Definition posts_of (c : Corpus) (candidate_id : nat) : list SocialPost :=
  List.filter (fun sp => Nat.eqb (sp_candidate_id sp) candidate_id)
              (social_posts c).

(** The rows of the query in [_load_tweet_embeddings]:
    Embedding JOIN SocialPost ON SocialPost.id = Embedding.ref_id,
    filtered on the candidate and on kind 'tweet'. *)
Definition embedding_rows (c : Corpus) (candidate_id : nat)
    : list (nat * list R * positive * string) :=
  flat_map
    (fun e =>
       map (fun sp => (emb_id e, emb_vector e, emb_dim e, sp_post_id sp))
           (List.filter (fun sp => Nat.eqb (sp_id sp) (emb_ref_id e))
                        (social_posts c)))
    (List.filter (fun e => Nat.eqb (emb_candidate_id e) candidate_id
                           && String.eqb (emb_kind e) "tweet")
                 (embeddings c)).

(** [_load_tweet_embeddings(candidate_id)] *)
Definition _load_tweet_embeddings (c : Corpus) (candidate_id : nat)
    : list nat * list (list R) * list string :=
  match embedding_rows c candidate_id with
  | [] => ([], [], [])
  | ((_, _, dims, _) :: _) as rows =>
      let kept := List.filter (fun '(_, _, d, _) => Pos.eqb d dims) rows in
      (map (fun '(i, _, _, _) => i) kept,
       map (fun '(_, v, _, _) => v) kept,
       map (fun '(_, _, _, p) => p) kept)
  end.

(** The dictionary [id2obj]: the last row stored under a key wins. *)
Definition id2obj_lookup (results : list Item) (post_id : string)
    : option Item :=
  List.find (fun r => String.eqb (item_post_id r) post_id) (rev results).

Section Retrieval.
Variable md5 : string -> Z.
Variable dim : positive.

(** [sorted(range(len(sims)), key=lambda i: -sims[i])[:k]] *)
Definition top_idx (sims : list R) (k : nat) : list nat :=
  take k (stable_sort (fun i j => Rltb (nth j sims 0%R) (nth i sims 0%R))
                      (seq 0 (length sims))).

(** [query_tweets(candidate_id, query, k)] *)
Definition query_tweets (c : Corpus) (candidate_id : nat) (query : string)
    (k : nat) : list Item :=
  let q_vec := embed md5 dim query in
  let '(_, mat, post_ids) := _load_tweet_embeddings c candidate_id in
  match mat with
  | [] => []
  | _ =>
      let sims := map (fun row => dot row q_vec) mat in
      let selected_post_ids :=
        map (fun i => nth i post_ids EmptyString) (top_idx sims k) in
      let results :=
        map item_of
            (List.filter
               (fun sp => existsb (String.eqb (sp_post_id sp)) selected_post_ids)
               (posts_of c candidate_id)) in
      omap (id2obj_lookup results) selected_post_ids
  end.

(** One iteration of the loop of [_ingest_tweet_texts]; [existing] is the
    set [existing_posts]. *)
Definition ingest_one (candidate_id : nat)
    (acc : Corpus * list string * nat) (t : string * string * string)
    : Corpus * list string * nat :=
  let '(c, existing, ingested) := acc in
  let '(post_id, text_content, created) := t in
  if negb (str_truthy text_content) || existsb (String.eqb post_id) existing
  then acc
  else
    let sp := {| sp_id := next_key c; sp_candidate_id := candidate_id;
                 sp_post_id := post_id; sp_text := text_content;
                 sp_created_at := created |} in
    let emb := {| emb_id := S (next_key c); emb_candidate_id := candidate_id;
                  emb_kind := "tweet"; emb_ref_id := sp_id sp;
                  emb_dim := dim;
                  emb_vector := embed md5 dim text_content |} in
    ({| social_posts := social_posts c ++ [sp];
        embeddings := embeddings c ++ [emb];
        next_key := S (S (next_key c)) |},
     post_id :: existing, S ingested).

(** [_ingest_tweet_texts(candidate_id, texts)]; a tuple of [texts] is kept
    as (post_id, text, created). *)
Definition _ingest_tweet_texts (c : Corpus) (candidate_id : nat)
    (texts : list (string * string * string)) : Corpus * nat :=
  let existing := map sp_post_id (posts_of c candidate_id) in
  let '(c', _, ingested) :=
    fold_left (ingest_one candidate_id) texts (c, existing, 0%nat) in
  (c', ingested).

End Retrieval.

End Rag.

(** * Vocabulary of the statements *)

Module RankingSpec.
Import Ranking.
Local Open Scope Q_scope.

(** The quotient the code computes: the denominator is the size of the
    lowercased keyword SET. *)
Definition overlap_ratio (kq tc : list string) : Q :=
  Qof_nat (size (lowered_set kq ∩ lowered_set tc))
  / Qof_nat (Nat.max 1 (size (lowered_set kq))).

(** The quotient as the specification words it: the denominator is the
    length of the keyword LIST. *)
Definition overlap_ratio_by_length (kq tc : list string) : Q :=
  Qof_nat (size (lowered_set kq ∩ lowered_set tc))
  / Qof_nat (Nat.max 1 (length kq)).

(** Whether a level is one of junior, mid, senior, principal. *)
Definition recognized (level : string) : bool :=
  match index_of level order with Some _ => true | None => false end.

(** The first component of the pair [score_candidate] returns. *)
Definition total_score
    (query_keywords topics : list string) (h_approx : Q) (best_citations : Z)
    (recent_year : option Z) (current_year : Z)
    (embed_similarity seniority_fit : Q) : Q :=
  fst (score_candidate query_keywords topics h_approx best_citations
         recent_year current_year embed_similarity seniority_fit).

End RankingSpec.

Module OrchestratorSpec.
Import Models OpenAlex Orchestrator.
Local Open Scope list_scope.

(** *** Events by type *)

Definition is_candidate (ev : Event) : bool :=
  match ev with EvCandidate _ => true | _ => false end.

Definition is_finished (ev : Event) : bool :=
  match ev with EvFinished => true | _ => false end.

Definition is_error (ev : Event) : bool :=
  match ev with EvError _ => true | _ => false end.

Definition count_events (p : Event -> bool) (evs : list Event) : nat :=
  length (List.filter p evs).

(** Two stores with the same candidates, publications, affiliation rows
    and summaries. *)
Definition same_rows (a b : Store) : Prop :=
  candidates a = candidates b /\ publications a = publications b
  /\ affiliation_years a = affiliation_years b /\ summaries a = summaries b.

(** The pending rows of a session, table by table. *)
Definition pending_publications (l : list Db.Row) : list Publication :=
  flat_map (fun r => match r with Db.RPublication p => [p] | _ => [] end) l.

Definition pending_affiliations (l : list Db.Row) : list AffiliationYear :=
  flat_map (fun r => match r with Db.RAffiliationYear a => [a] | _ => [] end) l.

Definition pending_summaries (l : list Db.Row) : list AnalysisSummary :=
  flat_map (fun r => match r with Db.RSummary s => [s] | _ => [] end) l.

(** What one iteration over a work leaves untouched: the jobs, the
    candidates, the publications and summaries already written, and the
    pending summaries. *)
Definition session_frame (s s' : Db.Session) : Prop :=
  jobs (Db.db s') = jobs (Db.db s)
  /\ candidates (Db.db s') = candidates (Db.db s)
  /\ publications (Db.db s') = publications (Db.db s)
  /\ summaries (Db.db s') = summaries (Db.db s)
  /\ pending_summaries (Db.pending s') = pending_summaries (Db.pending s).

(** The (year, organization) pairs that the loop over the works of one
    candidate observes, in order. *)
Definition observations (works : list Work) : list (Z * string) :=
  flat_map
    (fun w =>
       match org_at_publication w, year w with
       | Some org, Some yr => if str_truthy org then [(yr, org)] else []
       | _, _ => []
       end)
    works.

(** An affiliation row without its key. *)
Definition affiliation_fact (a : AffiliationYear) : nat * Z * string * Z :=
  (ay_candidate_id a, ay_year a, ay_org_name a, ay_evidence_count a).

(** The job row at the start of the [try] block. *)
Definition started (job_id : string) (w : World) : World :=
  emit job_id (EvProgress 1)
    (with_store w (Db.update_job (store w) job_id (set_status RUNNING 1))).

(** [job.progress = p] *)
Definition set_progress (p : Z) (j : Job) : Job :=
  {| job_query := job_query j; job_description := job_description j;
     filters_seniority := filters_seniority j; job_status := job_status j;
     job_progress := p; job_error := job_error j |}.

(** What a completed iteration has done to the world. *)
Record author_done (ctx : JobContext) (job_id : string) (total step : Z)
    (author : OpenAlexAuthor) (an : Analysis) (w w' : World) : Prop := {
  done_job : forall job,
    jobs (store w) !! job_id = Some job ->
    jobs (store w') !! job_id
    = Some (set_progress (progress_value (step + 1) total) job);
  done_queue : exists cev,
    queue_of job_id w'
    = queue_of job_id w
      ++ [EvCandidate cev; EvProgress (progress_value (step + 1) total)];
  done_candidates : exists c,
    candidates (store w') = candidates (store w) ++ [c]
    /\ cand_openalex_id c = Some (author_id author)
    /\ exists sm,
         summaries (store w') = summaries (store w) ++ [sm]
         /\ as_candidate_id sm = cand_id c
         /\ as_total_score sm = an_score an
}.

End OrchestratorSpec.

Module ProgressSpec.

(** "Rounded to the nearest integer": [z] is within one half of [q]. *)
Definition nearest_integer (q : Q) (z : Z) : Prop :=
  (Qabs (inject_Z z - q) <= 1 # 2)%Q.

(** [5 + 90 * (step / total)], exactly. *)
Definition progress_exact (step total : Z) : Q :=
  (5 + 90 * (inject_Z step / inject_Z total))%Q.

End ProgressSpec.

Module ApiSpec.
Import Models.

(** The statuses under which [get_search] runs its listing query. *)
Definition lists_candidates (status : JobStatus) : bool :=
  JobStatus_eqb status RUNNING || JobStatus_eqb status DONE.

End ApiSpec.

Module EmbeddingSpec.
Import Embeddings.

(** The cosine similarity as a number (equal lengths assumed). *)
Definition cosine_of (a b : list R) : R :=
  match cosine_similarity a b with
  | Ok c => c
  | Raise _ => 0%R
  end.

(** Bit 1 of a component index, the bit [embed] reads as the sign. *)
Definition sign_bit (i : nat) : bool := Z.testbit (Z.of_nat i) 1.

(** Every component from position [k] on has the sign its index gives:
    not positive where the bit is set, not negative elsewhere. *)
Definition sign_pattern (k : nat) (v : list R) : Prop :=
  forall i x, v !! i = Some x ->
    if sign_bit (k + i) then (x <= 0)%R else (0 <= x)%R.

End EmbeddingSpec.

Module RagSpec.
Import Embeddings Rag.
Local Open Scope nat_scope.

(** An embedding row written for a post by [_ingest_tweet_texts]. *)
Definition embeds_post (md5 : string -> Z) (dim : positive)
    (sp : SocialPost) (e : Embedding) : Prop :=
  emb_candidate_id e = sp_candidate_id sp
  /\ emb_kind e = "tweet"
  /\ emb_ref_id e = sp_id sp
  /\ emb_dim e = dim
  /\ emb_vector e = embed md5 dim (sp_text sp).

(** What holds of a corpus of embedded posts: every post has its embedding
    row, in the same position; keys grow with the order of insertion; a
    candidate has no two posts with the same post id. *)
Record corpus_inv (md5 : string -> Z) (dim : positive) (c : Corpus) : Prop := {
  inv_pairs : Forall2 (embeds_post md5 dim) (social_posts c) (embeddings c);
  inv_keys : StronglySorted lt (map sp_id (social_posts c));
  inv_fresh : Forall (fun sp => sp_id sp < next_key c) (social_posts c);
  inv_post_ids : forall cid, NoDup (map sp_post_id (posts_of c cid))
}.

(** The stored corpora: what calls of [_ingest_tweet_texts] build from the
    empty tables. *)
Inductive ingested (md5 : string -> Z) (dim : positive) : Corpus -> Prop :=
| ingested_empty : ingested md5 dim empty_corpus
| ingested_more (c : Corpus) (candidate_id : nat)
    (texts : list (string * string * string)) :
    ingested md5 dim c ->
    ingested md5 dim (fst (_ingest_tweet_texts md5 dim c candidate_id texts)).

(** The cosine similarity of a stored post to the query. *)
Definition similarity (md5 : string -> Z) (dim : positive) (query : string)
    (sp : SocialPost) : R :=
  EmbeddingSpec.cosine_of (embed md5 dim (sp_text sp)) (embed md5 dim query).

(** The comparison of the sort, on posts. *)
Definition more_similar (md5 : string -> Z) (dim : positive) (query : string)
    (a b : SocialPost) : bool :=
  Rltb (similarity md5 dim query b) (similarity md5 dim query a).

(** What a row of the loader and a post have in common. *)
Definition row_payload (r : nat * list R * positive * string)
    : list R * positive * string :=
  let '(_, v, d, p) := r in (v, d, p).

Definition post_payload (md5 : string -> Z) (dim : positive) (sp : SocialPost)
    : list R * positive * string :=
  (embed md5 dim (sp_text sp), dim, sp_post_id sp).

(** The order of the retrieval: higher similarity first, and among posts
    of equal similarity the one inserted first. *)
Definition ranks_before (md5 : string -> Z) (dim : positive) (query : string)
    (a b : SocialPost) : Prop :=
  (similarity md5 dim query b < similarity md5 dim query a)%R
  \/ (similarity md5 dim query a = similarity md5 dim query b
      /\ sp_id a < sp_id b).

End RagSpec.

Module SenioritySpec.
Import Ranking.

(** The position of a level among junior, mid, senior, principal; 0 for a
    string that is none of them. *)
Definition level_rank (level : string) : nat :=
  match index_of level order with Some i => i | None => 0%nat end.

(** [years_active or 0] *)
Definition years_of (years_active : option Z) : Z := year_or years_active 0.

End SenioritySpec.

Module RunSpec.
Import Models OpenAlex Orchestrator OrchestratorSpec.
Local Open Scope list_scope.

(** What a run on [job_id] leaves alone (the rows and queues of the other
    jobs) and what it only extends (the queue of the job and the tables of
    candidates, publications and summaries). *)
Record grows (job_id : string) (w w' : World) : Prop := {
  grows_other_jobs : forall j,
    j <> job_id -> jobs (store w') !! j = jobs (store w) !! j;
  grows_other_queues : forall j,
    j <> job_id -> queues w' !! j = queues w !! j;
  grows_job_kept :
    is_Some (jobs (store w') !! job_id) <-> is_Some (jobs (store w) !! job_id);
  grows_queue : queue_of job_id w `prefix_of` queue_of job_id w';
  grows_candidates : candidates (store w) `prefix_of` candidates (store w');
  grows_publications :
    publications (store w) `prefix_of` publications (store w');
  grows_summaries : summaries (store w) `prefix_of` summaries (store w')
}.

(** The events of the loop over the authors when every iteration
    completes: for each author its "candidate" event, then the "progress"
    event of the new step. *)
Fixpoint loop_events (total step : Z) (cevs : list CandidateEvent)
    : list Event :=
  match cevs with
  | [] => []
  | c :: rest =>
      EvCandidate c :: EvProgress (progress_value (step + 1) total)
      :: loop_events total (step + 1) rest
  end.

(** A publication row without its key, and the row a work is stored as. *)
Definition publication_fact (p : Publication) :=
  (pub_candidate_id p, pub_title p, pub_venue p, pub_year p,
   pub_citations p, pub_abstract p, pub_openalex_work_id p).

Definition work_fact (cid : nat) (w : Work) :=
  (cid, title w, venue w, year w, citations w, abstract w, work_id w).

(** [job.status = DONE; job.progress = 100] on the row the run found. *)
Definition finished_job (job : Job) : Job :=
  {| job_query := job_query job; job_description := job_description job;
     filters_seniority := filters_seniority job; job_status := DONE;
     job_progress := 100; job_error := job_error job |}.

(** [job.status = ERROR; job.error = msg] with the progress [p] the run
    had reached. *)
Definition failed_job (p : Z) (msg : string) (job : Job) : Job :=
  {| job_query := job_query job; job_description := job_description job;
     filters_seniority := filters_seniority job; job_status := ERROR;
     job_progress := p; job_error := Some msg |}.

End RunSpec.

Module KeywordSpec.
Import UtilsText.
Local Open Scope list_scope.

(** The tokens that are counted, in the order the loops meet them. *)
Definition kept_tokens (chunks : list string) : list string :=
  flat_map (fun text => List.filter (fun tok => negb (skipped tok))
                                    (tokens text))
           chunks.

(** How often a word is counted. *)
Definition occurrences (chunks : list string) (w : string) : nat :=
  count_occ String.string_dec (kept_tokens chunks) w.

Definition is_lowercase_letter (c : ascii) : bool :=
  let n := Ascii.nat_of_ascii c in (97 <=? n)%nat && (n <=? 122)%nat.

(** The count stored for a word, 0 when it has no item. *)
Definition count_of (w : string) (counts : list (string * nat)) : nat :=
  match List.find (fun p => String.eqb (fst p) w) counts with
  | Some p => snd p
  | None => 0%nat
  end.

(** The comparison of [most_common]: a higher count comes first. *)
Definition more_counted (a b : string * nat) : bool := (snd b <? snd a)%nat.

End KeywordSpec.

Module AbstractSpec.
Local Open Scope list_scope.

(** [inv_idx] is an inverted index of the word sequence [ws]: a word is
    listed with a position exactly when the sequence has that word
    there. *)
Definition indexes (inv_idx : list (string * list Z)) (ws : list string)
    : Prop :=
  forall (w : string) (p : Z),
    (exists ps, In (w, ps) inv_idx /\ In p ps)
    <-> (0 <= p /\ ws !! Z.to_nat p = Some w).

(** The list of [L] cells during the second loop: every cell is empty or
    holds the word the sequence has there. *)
Definition partial (ws : list string) (L : nat)
    (words : list (option string)) : Prop :=
  length words = L
  /\ forall i x, words !! i = Some (Some x) -> ws !! i = Some x.

(** A cell that holds a word keeps it. *)
Definition kept (words words' : list (option string)) : Prop :=
  forall i x, words !! i = Some (Some x) -> words' !! i = Some (Some x).

(** The inverted index built from a word sequence, position by position:
    the words as keys in the order of their first occurrence, each with
    its positions in increasing order. *)
Fixpoint add_position (w : string) (p : Z) (inv_idx : list (string * list Z))
    : list (string * list Z) :=
  match inv_idx with
  | [] => [(w, [p])]
  | (x, ps) :: rest =>
      if String.eqb x w then (x, ps ++ [p]) :: rest
      else (x, ps) :: add_position w p rest
  end.

Definition inverted_index (ws : list string) : list (string * list Z) :=
  fold_left (fun acc '(i, w) => add_position w (Z.of_nat i) acc)
            (combine (seq 0 (length ws)) ws) [].

End AbstractSpec.

Module CareerSpec.
Import Main.
Local Open Scope list_scope.

Definition row_org (r : string * Z * Z) : string := fst (fst r).
Definition row_year (r : string * Z * Z) : Z := snd (fst r).

(** The segment that is still open, as the code appends it after the
    loop. *)
Definition current_segment (cur : option (string * Z * Z)) : list Segment :=
  match cur with
  | Some (cur_org, start, prev_year) =>
      [{| seg_org := cur_org; seg_start_year := start;
          seg_end_year := prev_year |}]
  | None => []
  end.

(** A row lies in a segment. *)
Definition covers (seg : Segment) (r : string * Z * Z) : Prop :=
  seg_org seg = row_org r
  /\ seg_start_year seg <= row_year r <= seg_end_year seg.

(** A segment runs from a year of its organization to a later one. *)
Definition from_rows (rows : list (string * Z * Z)) (seg : Segment) : Prop :=
  seg_start_year seg <= seg_end_year seg
  /\ (exists ev, In (seg_org seg, seg_start_year seg, ev) rows)
  /\ (exists ev, In (seg_org seg, seg_end_year seg, ev) rows).

(** What separates a segment from the next one: another organization, or
    a gap of more than one year. *)
Definition breaks (a b : Segment) : Prop :=
  seg_org a <> seg_org b \/ seg_end_year a + 1 < seg_start_year b.

Definition separated (l : list Segment) : Prop :=
  forall i a b, l !! i = Some a -> l !! S i = Some b -> breaks a b.

(** The state of the loop after the rows [done]. *)
Record segments_inv (done : list (string * Z * Z))
    (st : option (string * Z * Z) * list Segment) : Prop := {
  inv_cover : forall r, In r done ->
    exists seg, In seg (snd st ++ current_segment (fst st)) /\ covers seg r;
  inv_from : Forall (from_rows done) (snd st ++ current_segment (fst st));
  inv_count :
    (length (snd st ++ current_segment (fst st)) <= length done)%nat;
  inv_open : fst st = None -> done = [];
  inv_separated : separated (snd st ++ current_segment (fst st))
}.

End CareerSpec.

(** * Concrete collaborators and worlds *)

Module Fixtures.
Import Models OpenAlex Orchestrator.
Local Open Scope list_scope.

Definition no_keywords (chunks : list string) (k : nat) : list string := [].
Definition zero_h (works cited : Z) : Q := 0%Q.
Definition zero_cosine (a b : string) : Q := 0%Q.

Definition author (name : string) : OpenAlexAuthor :=
  {| author_id := name; display_name := name; affiliation := None;
     works_count := 0; cited_by_count := 0 |}.

Definition paper (t : string) (org : option string) (yr : option Z) : Work :=
  {| title := Some t; venue := None; year := yr; citations := 0;
     abstract := None; org_at_publication := org; work_id := None |}.

Definition job0 : Job :=
  {| job_query := "quantum computing"; job_description := None;
     filters_seniority := None; job_status := PENDING; job_progress := 0;
     job_error := None |}.

Definition store0 : Store :=
  {| jobs := {[ "j1" := job0 ]}; candidates := []; publications := [];
     affiliation_years := []; summaries := [] |}.

Definition world0 : World :=
  {| store := store0; queues := ∅; uuid_next := 0 |}.

(** Discovery outcomes. *)
Definition no_authors (q : string) (limit : nat)
    : Result (list OpenAlexAuthor) := Ok [].

Definition three_authors (q : string) (limit : nat)
    : Result (list OpenAlexAuthor) :=
  Ok [author "a1"; author "a2"; author "a3"].

Definition seven_authors (q : string) (limit : nat)
    : Result (list OpenAlexAuthor) :=
  Ok (map author ["a1"; "a2"; "a3"; "a4"; "a5"; "a6"; "a7"]).

(** Every author has one paper. *)
Definition one_paper (id : string) (per_page : nat) : Result (list Work) :=
  Ok [paper "Surface codes" None None].

(** The works of the second author cannot be fetched. *)
Definition second_fails (id : string) (per_page : nat) : Result (list Work) :=
  if String.eqb id "a2" then Raise "503 Service Unavailable"
  else Ok [paper "Surface codes" None None].

(** The same organization and year on two papers of one author. *)
Definition two_papers_same_affiliation : list Work :=
  [paper "Surface codes" (Some "MIT") (Some 2020);
   paper "Colour codes" (Some "MIT") (Some 2020)].

Definition same_affiliation_twice (id : string) (per_page : nat)
    : Result (list Work) := Ok two_papers_same_affiliation.

Definition one_author (q : string) (limit : nat)
    : Result (list OpenAlexAuthor) := Ok [author "a1"].

(** The analysis of an author with the given works, no topic and score 0. *)
Definition analysis_of (works : list Work) : Analysis :=
  {| an_works := works; an_topics := []; an_score := 0%Q;
     an_breakdown :=
       snd (Ranking.score_candidate [] [] 0%Q 0 None 2024 0%Q 1%Q);
     an_seniority_level := "junior" |}.

(** Discovery is refused. *)
Definition discovery_fails (q : string) (limit : nat)
    : Result (list OpenAlexAuthor) := Raise "429 Too Many Requests".

End Fixtures.

Module RagFixtures.
Import Rag.
Local Open Scope list_scope.

(** A hash that sends every token to component 0 with sign +1. *)
Definition md5_zero (tok : string) : Z := 0.

Definition five_posts : list (string * string * string) :=
  [("p1", "weather today", "2024-01-01");
   ("p2", "coffee notes", "2024-01-02");
   ("p3", "machine learning paper", "2024-01-03");
   ("p4", "travel plans", "2024-01-04");
   ("p5", "learning machine", "2024-01-05")].

Definition corpus5 : Corpus :=
  fst (_ingest_tweet_texts md5_zero 4 empty_corpus 7 five_posts).

(** The MD5 digests of two tokens, read as integers:
    md5("robotics") = 9cafaa453dfe12efaa19f7aa6a0b61f3 and
    md5("cryptography") = e0d00b9f337d357c6faa2f8ceae4a60d. *)
Definition md5_two_tokens (tok : string) : Z :=
  if String.eqb tok "robotics"
  then 208271672788252047457107893693543309811
  else if String.eqb tok "cryptography"
  then 298827304522114983422798045882043639309
  else 0.

(** The text [run_search] embeds for an author whose only work is titled
    "robotics" and has no abstract. *)
Definition robotics_text : string := "robotics" ++ PyStr.newline.

End RagFixtures.

Module NegativeCosineFixtures.
Import Models OpenAlex Orchestrator Fixtures RagFixtures.
Local Open Scope list_scope.

(** [top_keywords] on chunks that are one lowercase word each (at least
    three letters, not a stop word): the words themselves. *)
Definition one_word_keywords (chunks : list string) (k : nat) : list string :=
  take k (map PyStr.strip chunks).

(** The similarity of the two texts under EMBED_DIM = 3. *)
Definition cosine_dim_3 (a b : string) : Q :=
  if String.eqb a robotics_text && String.eqb b "cryptography"
  then (-1)%Q else 0%Q.

Definition cryptography_job : Job :=
  {| job_query := ""; job_description := Some "cryptography";
     filters_seniority := Some "principal"; job_status := PENDING;
     job_progress := 0; job_error := None |}.

Definition cryptography_world : World :=
  {| store := {| jobs := {[ "j1" := cryptography_job ]}; candidates := [];
                 publications := []; affiliation_years := [];
                 summaries := [] |};
     queues := ∅; uuid_next := 0 |}.

Definition robotics_paper (id : string) (per_page : nat) : Result (list Work) :=
  Ok [paper "robotics" None None].

End NegativeCosineFixtures.

Module CareerFixtures.
Local Open Scope list_scope.

(** Yearly rows (org_name, year, evidence_count) in increasing year: two
    years at MIT, a gap, one more year at MIT, then ETH. *)
Definition mit_then_eth : list (string * Z * Z) :=
  [("MIT", 2018, 1); ("MIT", 2019, 2); ("MIT", 2021, 1); ("ETH", 2022, 1)].

End CareerFixtures.

(** * Stable sorting *)

Module SortFacts.
Local Open Scope list_scope.

Section StableSortFacts.
Context {A : Type} (before : A -> A -> bool).

(** [before] is a strict weak order. *)
Hypothesis before_asym : forall x y, before x y = true -> before y x = false.
Hypothesis before_neg_trans :
  forall x y z, before y x = false -> before z y = false -> before z x = false.

Lemma insert_stable_perm (x : A) (l : list A) :
  Permutation (insert_stable before x l) (x :: l).
Proof.
  induction l as [|y l IH]; cbn.
  - reflexivity.
  - destruct (before y x).
    + rewrite IH. apply perm_swap.
    + reflexivity.
Qed.

Lemma stable_sort_perm (l : list A) : Permutation (stable_sort before l) l.
Proof.
  induction l as [|x l IH]; cbn.
  - reflexivity.
  - rewrite insert_stable_perm. constructor. exact IH.
Qed.

Lemma stable_sort_length (l : list A) : length (stable_sort before l) = length l.
Proof. apply Permutation_length, stable_sort_perm. Qed.

Lemma Forall_insert_stable (P : A -> Prop) (x : A) (l : list A) :
  P x -> Forall P l -> Forall P (insert_stable before x l).
Proof.
  intros Hx Hl. rewrite (insert_stable_perm x l). constructor; assumption.
Qed.

(** The order of the output: strictly before, or tied and in the order of
    the input, which [T] describes. *)
Section Stability.
Variable T : A -> A -> Prop.

Lemma insert_stable_sorted (x : A) (l : list A) :
  Forall (T x) l ->
  StronglySorted (sorted_stably before T) l ->
  StronglySorted (sorted_stably before T) (insert_stable before x l).
Proof.
  intros HT Hs. induction Hs as [|y l Hs IH Hy]; cbn.
  - repeat constructor.
  - apply Forall_cons in HT. destruct HT as [HTy HTl].
    destruct (before y x) eqn:E.
    + constructor; [apply IH; exact HTl|].
      apply Forall_insert_stable; [left; exact E | exact Hy].
    + constructor; [constructor; assumption|].
      constructor; [right; split; assumption|].
      rewrite Forall_forall in Hy, HTl |- *. intros z Hz.
      right. split; [|apply HTl; exact Hz].
      destruct (Hy z Hz) as [Hyz | [Hzy _]].
      * apply (before_neg_trans x y z E). apply before_asym. exact Hyz.
      * apply (before_neg_trans x y z E Hzy).
Qed.

Lemma stable_sort_sorted_stably (l : list A) :
  StronglySorted T l ->
  StronglySorted (sorted_stably before T) (stable_sort before l).
Proof.
  intros Hl. induction Hl as [|x l Hl IH Hx]; cbn.
  - constructor.
  - apply insert_stable_sorted; [|exact IH].
    rewrite (stable_sort_perm l). exact Hx.
Qed.

End Stability.

Lemma sorted_stably_not_after (T : A -> A -> Prop) (x y : A) :
  sorted_stably before T x y -> not_after before x y.
Proof.
  intros [H | [H _]]; [apply before_asym; exact H | exact H].
Qed.

Lemma StronglySorted_always {B : Type} (l : list B) :
  StronglySorted (fun _ _ => True) l.
Proof.
  induction l; constructor; [assumption|].
  apply Forall_forall. intros; exact I.
Qed.

Lemma StronglySorted_weaken {B : Type} (R1 R2 : B -> B -> Prop) (l : list B) :
  (forall x y, R1 x y -> R2 x y) ->
  StronglySorted R1 l -> StronglySorted R2 l.
Proof.
  intros HR Hl. induction Hl as [|x l Hl IH Hx]; constructor.
  - exact IH.
  - eapply Forall_impl; [exact Hx|]. intros y Hy. apply HR, Hy.
Qed.

(** Nothing in the output stands after an element it should precede. *)
Lemma stable_sort_sorted (l : list A) :
  StronglySorted (not_after before) (stable_sort before l).
Proof.
  apply (StronglySorted_weaken (sorted_stably before (fun _ _ => True))).
  - apply sorted_stably_not_after.
  - apply stable_sort_sorted_stably, StronglySorted_always.
Qed.

End StableSortFacts.

Lemma stable_sort_cons {A : Type} (b : A -> A -> bool) (x : A) (l : list A) :
  stable_sort b (x :: l) = insert_stable b x (stable_sort b l).
Proof. reflexivity. Qed.

(** The output depends on [before] only through the elements sorted. *)
Lemma insert_stable_ext {A : Type} (b1 b2 : A -> A -> bool) (x : A) (l : list A) :
  (forall y, In y l -> b1 y x = b2 y x) ->
  insert_stable b1 x l = insert_stable b2 x l.
Proof.
  induction l as [|y l IH]; intros H; cbn.
  - reflexivity.
  - rewrite (H y) by (left; reflexivity).
    rewrite IH by (intros z Hz; apply H; right; exact Hz).
    reflexivity.
Qed.

Lemma stable_sort_ext {A : Type} (b1 b2 : A -> A -> bool) (l : list A) :
  (forall x y, In x l -> In y l -> b1 x y = b2 x y) ->
  stable_sort b1 l = stable_sort b2 l.
Proof.
  induction l as [|x l IH]; intros H.
  - reflexivity.
  - rewrite !stable_sort_cons.
    rewrite IH by (intros y z Hy Hz; apply H; right; assumption).
    apply insert_stable_ext. intros y Hy.
    apply H; [right | left; reflexivity].
    apply (Permutation_in y (stable_sort_perm b2 l)). exact Hy.
Qed.

(** Sorting positions by the key of their element sorts the elements. *)
Lemma insert_stable_map {A B : Type} (f : A -> B) (b : B -> B -> bool)
    (x : A) (l : list A) :
  map f (insert_stable (fun u v => b (f u) (f v)) x l)
  = insert_stable b (f x) (map f l).
Proof.
  induction l as [|y l IH]; cbn.
  - reflexivity.
  - destruct (b (f y) (f x)); cbn; [rewrite IH|]; reflexivity.
Qed.

Lemma stable_sort_map {A B : Type} (f : A -> B) (b : B -> B -> bool)
    (l : list A) :
  map f (stable_sort (fun u v => b (f u) (f v)) l) = stable_sort b (map f l).
Proof.
  induction l as [|x l IH].
  - reflexivity.
  - cbn [map]. rewrite !stable_sort_cons, insert_stable_map, IH. reflexivity.
Qed.

Lemma StronglySorted_filter {A : Type} (R : A -> A -> Prop) (p : A -> bool)
    (l : list A) :
  StronglySorted R l -> StronglySorted R (List.filter p l).
Proof.
  intros Hl. induction Hl as [|x l Hl IH Hx]; cbn.
  - constructor.
  - destruct (p x); [|exact IH].
    constructor; [exact IH|].
    rewrite Forall_forall in Hx |- *. intros y Hy. apply Hx.
    apply list_elem_of_In. apply list_elem_of_In in Hy.
    apply filter_In in Hy. apply Hy.
Qed.

Lemma StronglySorted_take {A : Type} (R : A -> A -> Prop) (n : nat) (l : list A) :
  StronglySorted R l -> StronglySorted R (take n l).
Proof.
  intros Hl. revert n. induction Hl as [|x l Hl IH Hx]; intros [|n]; cbn;
    try constructor.
  - apply IH.
  - apply Forall_take. exact Hx.
Qed.

Lemma StronglySorted_map {A B : Type} (f : A -> B) (R : B -> B -> Prop)
    (l : list A) :
  StronglySorted (fun x y => R (f x) (f y)) l -> StronglySorted R (map f l).
Proof.
  intros Hl. induction Hl as [|x l Hl IH Hx]; cbn; constructor.
  - exact IH.
  - apply Forall_map. exact Hx.
Qed.

End SortFacts.

(** * Properties of the scoring functions *)

Module RankingFacts.
Import Ranking RankingSpec.
Import Lqa.

Local Open Scope Q_scope.

(** *** Rational helpers *)

Lemma Qle_bool_false (a b : Q) : Qle_bool a b = false -> b < a.
Proof.
  intros H. apply Qnot_le_lt. intros Hle.
  apply Qle_bool_iff in Hle. congruence.
Qed.

Lemma Qdiv_unit_interval (a b : Q) : 0 <= a -> a <= b -> 0 < b -> 0 <= a / b <= 1.
Proof.
  intros Ha Hab Hb. split.
  - apply Qle_shift_div_l; [exact Hb|]. rewrite Qmult_0_l. exact Ha.
  - apply Qle_shift_div_r; [exact Hb|]. rewrite Qmult_1_l. exact Hab.
Qed.

Lemma Qof_nat_le (n m : nat) : (n <= m)%nat -> Qof_nat n <= Qof_nat m.
Proof.
  intros H. unfold Qof_nat. rewrite <- Zle_Qle. lia.
Qed.

Lemma Qof_nat_pos (n : nat) : (0 < n)%nat -> 0 < Qof_nat n.
Proof.
  intros H. unfold Qof_nat. replace 0 with (inject_Z 0) by reflexivity.
  rewrite <- Zlt_Qlt. lia.
Qed.

(** *** normalized_score *)

Lemma normalized_score_range (v lo hi : Q) :
  0 <= Utils.normalized_score v lo hi <= 1.
Proof.
  unfold Utils.normalized_score.
  destruct (Qle_bool hi lo) eqn:E.
  - split; [apply Qle_refl | discriminate].
  - apply Qle_bool_false in E.
    assert (Hlo : lo <= Qmax lo (Qmin hi v)) by apply Q.le_max_l.
    assert (Hhi : Qmax lo (Qmin hi v) <= hi).
    { apply Q.max_lub; [apply Qlt_le_weak; exact E | apply Q.le_min_l]. }
    apply Qdiv_unit_interval; lra.
Qed.

(** *** topical_fit *)

Lemma lowered_set_nil : lowered_set [] = ∅.
Proof. reflexivity. Qed.

Lemma overlap_ratio_range (kq tc : list string) : 0 <= overlap_ratio kq tc <= 1.
Proof.
  unfold overlap_ratio. apply Qdiv_unit_interval.
  - unfold Qof_nat. replace 0 with (inject_Z 0) by reflexivity.
    rewrite <- Zle_Qle. lia.
  - apply Qof_nat_le.
    etransitivity; [|apply Nat.le_max_r].
    apply subseteq_size. set_solver.
  - apply Qof_nat_pos. lia.
Qed.

Lemma topical_fit_overlap (kq tc : list string) :
  topical_fit kq tc == overlap_ratio kq tc.
Proof.
  unfold topical_fit, overlap_ratio.
  destruct kq as [|k kq'].
  - cbn [list_truthy negb orb]. rewrite lowered_set_nil.
    replace (∅ ∩ lowered_set tc) with (∅ : gset string) by set_solver.
    rewrite size_empty. reflexivity.
  - destruct tc as [|t tc'].
    + cbn [list_truthy negb orb]. rewrite lowered_set_nil.
      replace (lowered_set (k :: kq') ∩ ∅) with (∅ : gset string) by set_solver.
      rewrite size_empty. unfold Qof_nat at 1. cbn [Z.of_nat inject_Z].
      unfold Qdiv. rewrite Qmult_0_l. reflexivity.
    + cbn [list_truthy negb orb]. reflexivity.
Qed.

(** When the lowercased keywords are pairwise distinct the set has the
    size of the list, and both quotients agree. *)
Lemma size_lowered_set_NoDup (kq : list string) :
  NoDup (map str_lower kq) -> size (lowered_set kq) = length kq.
Proof.
  intros H. unfold lowered_set.
  rewrite size_list_to_set by exact H. apply length_map.
Qed.

Lemma topical_fit_range (kq tc : list string) : 0 <= topical_fit kq tc <= 1.
Proof.
  rewrite (topical_fit_overlap kq tc). apply overlap_ratio_range.
Qed.

(** C8 (as amended): [topical_fit] is the size of the lowercased
    intersection divided by [max(1, n)], where [n] is the number of DISTINCT
    lowercased query keywords (the size of the set built from the list, not
    the length of the list); the result lies in [0,1]. *)
Theorem topical_fit_distinct_keywords (query_keywords candidate_topics : list string) :
  topical_fit query_keywords candidate_topics
    == Qof_nat (size (lowered_set query_keywords ∩ lowered_set candidate_topics))
       / Qof_nat (Nat.max 1 (size (lowered_set query_keywords)))
  /\ 0 <= topical_fit query_keywords candidate_topics <= 1.
Proof.
  split.
  - apply topical_fit_overlap.
  - apply topical_fit_range.
Qed.

(** C8 (as stated) fails: for the keyword list ["AI"; "ai"] and the topic
    ["ai"] the code returns 1, while intersection size over list length is
    1/2. *)
Lemma topical_fit_not_by_length :
  topical_fit ["AI"; "ai"] ["ai"] == 1
  /\ overlap_ratio_by_length ["AI"; "ai"] ["ai"] == 1 # 2
  /\ ~ topical_fit ["AI"; "ai"] ["ai"] == overlap_ratio_by_length ["AI"; "ai"] ["ai"].
Proof.
  assert (E1 : topical_fit ["AI"; "ai"] ["ai"] == 1) by (vm_compute; reflexivity).
  assert (E2 : overlap_ratio_by_length ["AI"; "ai"] ["ai"] == 1 # 2)
    by (vm_compute; reflexivity).
  split; [exact E1|]. split; [exact E2|].
  rewrite E1, E2. intros H. discriminate H.
Qed.

(** *** seniority_fit_score *)

Lemma abs_diff_comm (a b : nat) : abs_diff a b = abs_diff b a.
Proof. unfold abs_diff. f_equal. lia. Qed.

Lemma abs_diff_diag (a : nat) : abs_diff a a = 0%nat.
Proof. unfold abs_diff. rewrite Z.sub_diag. reflexivity. Qed.

Lemma str_truthy_nonempty (s : string) : s <> "" -> str_truthy s = true.
Proof. destruct s; [congruence | reflexivity]. Qed.

Lemma seniority_fit_score_set (a b : string) :
  b <> "" ->
  seniority_fit_score a (Some b)
  = match index_of a order, index_of b order with
    | Some ci, Some di => nth (Nat.min (abs_diff ci di) 3) fit_table 0
    | _, _ => 8 # 10
    end.
Proof.
  intros Hb. unfold seniority_fit_score.
  cbn [opt_str_truthy default]. rewrite (str_truthy_nonempty b Hb).
  reflexivity.
Qed.

(** C7 (as amended): for levels that are set (non-empty strings),
    [fit(A, B) = fit(B, A)]; [fit(A, A)] is 1.0 when [A] is one of junior,
    mid, senior, principal, and 0.8 when [A] is not recognized. *)
Theorem seniority_fit_symmetric_reflexive_on_known (A B : string) :
  A <> "" -> B <> "" ->
  seniority_fit_score A (Some B) = seniority_fit_score B (Some A)
  /\ seniority_fit_score A (Some A) = (if recognized A then 1 else 8 # 10).
Proof.
  intros HA HB. split.
  - rewrite (seniority_fit_score_set A B HB), (seniority_fit_score_set B A HA).
    destruct (index_of A order) as [ci|], (index_of B order) as [di|];
      try reflexivity.
    rewrite (abs_diff_comm ci di). reflexivity.
  - rewrite (seniority_fit_score_set A A HA). unfold recognized.
    destruct (index_of A order) as [ci|]; [|reflexivity].
    rewrite abs_diff_diag. reflexivity.
Qed.

Lemma seniority_fit_symmetric_reflexive_on_known_witness :
  seniority_fit_score "junior" (Some "principal")
  = seniority_fit_score "principal" (Some "junior")
  /\ seniority_fit_score "junior" (Some "junior")
     = (if recognized "junior" then 1 else 8 # 10).
Proof.
  apply (seniority_fit_symmetric_reflexive_on_known "junior" "principal");
    discriminate.
Defined.

(** C7 (as stated) fails: a level string outside the four known levels is
    scored 0.8 against itself, not 1.0. *)
Lemma seniority_fit_unknown_level_not_one :
  seniority_fit_score "intern" (Some "intern") = 8 # 10
  /\ ~ seniority_fit_score "intern" (Some "intern") == 1.
Proof.
  split; [reflexivity|]. intros H. vm_compute in H. discriminate H.
Qed.

(** The values the fit function can return. *)
Lemma seniority_fit_score_in_table (c : string) (d : option string) :
  In (seniority_fit_score c d) fit_table.
Proof.
  unfold seniority_fit_score.
  destruct (negb (opt_str_truthy d)); [left; reflexivity|].
  destruct (index_of c order) as [ci|]; [|right; left; reflexivity].
  destruct (index_of (default "" d) order) as [di|]; [|right; left; reflexivity].
  destruct (Nat.min (abs_diff ci di) 3) as [|[|[|[|n]]]] eqn:E; cbn.
  - left; reflexivity.
  - right; left; reflexivity.
  - right; right; left; reflexivity.
  - right; right; right; left; reflexivity.
  - exfalso. lia.
Qed.

(** *** score_candidate *)

Lemma fit_table_range (f : Q) : In f fit_table -> 0 <= f <= 1.
Proof.
  unfold fit_table. cbn [In].
  intros [<-|[<-|[<-|[<-|[]]]]]; split; discriminate.
Qed.

(** The upper bound holds for every input with [embed_similarity <= 1]. *)
Lemma total_score_le_1
    (kq tc : list string) (h : Q) (bc : Z) (ry : option Z) (cy : Z) (es sf : Q) :
  es <= 1 -> In sf fit_table ->
  total_score kq tc h bc ry cy es sf <= 1.
Proof.
  intros Hes Hsf. apply fit_table_range in Hsf.
  unfold total_score, score_candidate. cbn [fst].
  pose proof (topical_fit_range kq tc) as Hk.
  pose proof (normalized_score_range (inject_Z bc) 0 500) as Hc.
  pose proof (normalized_score_range h 0 80) as Hh.
  set (k := topical_fit kq tc) in *.
  set (c := Utils.normalized_score (inject_Z bc) 0 500) in *.
  set (hh := Utils.normalized_score h 0 80) in *.
  destruct (year_truthy ry).
  - pose proof (normalized_score_range
                  (inject_Z (year_or ry (cy - 15))) (inject_Z (cy - 15))
                  (inject_Z cy)) as Hr.
    set (r := Utils.normalized_score _ _ _) in *. lra.
  - lra.
Qed.

(** The lower bound needs a non-negative similarity, which is what the
    comment in the source ("already 0..1") takes for granted. *)
Lemma total_score_ge_0
    (kq tc : list string) (h : Q) (bc : Z) (ry : option Z) (cy : Z) (es sf : Q) :
  0 <= es -> In sf fit_table ->
  0 <= total_score kq tc h bc ry cy es sf.
Proof.
  intros Hes Hsf. apply fit_table_range in Hsf.
  unfold total_score, score_candidate. cbn [fst].
  pose proof (topical_fit_range kq tc) as Hk.
  pose proof (normalized_score_range (inject_Z bc) 0 500) as Hc.
  pose proof (normalized_score_range h 0 80) as Hh.
  set (k := topical_fit kq tc) in *.
  set (c := Utils.normalized_score (inject_Z bc) 0 500) in *.
  set (hh := Utils.normalized_score h 0 80) in *.
  destruct (year_truthy ry).
  - pose proof (normalized_score_range
                  (inject_Z (year_or ry (cy - 15))) (inject_Z (cy - 15))
                  (inject_Z cy)) as Hr.
    set (r := Utils.normalized_score _ _ _) in *. lra.
  - lra.
Qed.

(** C1: the total is below 0 at an input with a cosine similarity in
    [-1,1]: no keyword overlap, no citations, no dated publication,
    similarity -1 and the seniority fit 0.2 that the table gives for junior
    against principal make the total -41/200.  (The bound 0 <= total <= 1
    holds when the similarity is in [0,1]: [total_score_ge_0] and
    [total_score_le_1].) *)
Theorem total_score_negative_for_opposite_embedding :
  seniority_fit_score "junior" (Some "principal") = 2 # 10
  /\ total_score [] [] 0 0 None 2024 (-1) (2 # 10) == - (41 # 200)
  /\ total_score [] [] 0 0 None 2024 (-1) (2 # 10) < 0.
Proof.
  split; [reflexivity|].
  split; vm_compute; reflexivity.
Qed.

End RankingFacts.

(** * Properties of the job run *)

Module OrchestratorFacts.
Import Models OpenAlex Orchestrator OrchestratorSpec.
Local Open Scope list_scope.

Lemma count_events_app (p : Event -> bool) (l1 l2 : list Event) :
  count_events p (l1 ++ l2) = (count_events p l1 + count_events p l2)%nat.
Proof.
  unfold count_events. rewrite List.filter_app, length_app. reflexivity.
Qed.

(** *** The store and the queues under the elementary steps *)

Lemma queue_of_emit (job_id : string) (ev : Event) (w : World) :
  queue_of job_id (emit job_id ev w) = queue_of job_id w ++ [ev].
Proof.
  unfold queue_of, emit. cbn [queues]. rewrite lookup_insert_eq. reflexivity.
Qed.

Lemma store_emit (job_id : string) (ev : Event) (w : World) :
  store (emit job_id ev w) = store w.
Proof. reflexivity. Qed.

Lemma queue_of_with_store (job_id : string) (w : World) (st : Store) :
  queue_of job_id (with_store w st) = queue_of job_id w.
Proof. reflexivity. Qed.

Lemma jobs_update_job (st : Store) (id : string) (f : Job -> Job) (j : Job) :
  jobs st !! id = Some j ->
  jobs (Db.update_job st id f) !! id = Some (f j).
Proof.
  intros H. unfold Db.update_job. rewrite H. cbn [jobs].
  apply lookup_insert_eq.
Qed.

Lemma same_rows_refl (a : Store) : same_rows a a.
Proof. repeat split. Qed.

Lemma same_rows_trans (a b c : Store) :
  same_rows a b -> same_rows b c -> same_rows a c.
Proof.
  intros (H1 & H2 & H3 & H4) (G1 & G2 & G3 & G4).
  repeat split; congruence.
Qed.

Lemma same_rows_update_job (st : Store) (id : string) (f : Job -> Job) :
  same_rows (Db.update_job st id f) st.
Proof.
  unfold Db.update_job. destruct (jobs st !! id); repeat split.
Qed.

(** *** Sessions *)

(** A flush appends the pending rows, table by table. *)
Lemma flush_rows (l : list Db.Row) (st : Store) :
  jobs (fold_left Db.write_row l st) = jobs st
  /\ candidates (fold_left Db.write_row l st) = candidates st
  /\ publications (fold_left Db.write_row l st)
     = publications st ++ pending_publications l
  /\ affiliation_years (fold_left Db.write_row l st)
     = affiliation_years st ++ pending_affiliations l
  /\ summaries (fold_left Db.write_row l st)
     = summaries st ++ pending_summaries l.
Proof.
  revert st. induction l as [|r l IH]; intros st.
  - cbn. rewrite !app_nil_r. repeat split.
  - cbn [fold_left]. destruct (IH (Db.write_row st r)) as (H1 & H2 & H3 & H4 & H5).
    rewrite H1, H2, H3, H4, H5.
    destruct r; cbn; rewrite <- ?app_assoc; repeat split.
Qed.

Lemma session_frame_refl (s : Db.Session) : session_frame s s.
Proof. repeat split. Qed.

Lemma session_frame_trans (a b c : Db.Session) :
  session_frame a b -> session_frame b c -> session_frame a c.
Proof.
  intros (H1 & H2 & H3 & H4 & H5) (G1 & G2 & G3 & G4 & G5).
  repeat split; congruence.
Qed.

Lemma pending_summaries_app (l1 l2 : list Db.Row) :
  pending_summaries (l1 ++ l2) = pending_summaries l1 ++ pending_summaries l2.
Proof. unfold pending_summaries. apply flat_map_app. Qed.

Lemma persist_work_frame (cid : nat) (s : Db.Session) (next : nat) (w : Work) :
  session_frame s (fst (persist_work cid (s, next) w)).
Proof.
  unfold persist_work.
  destruct (org_at_publication w) as [org|], (year w) as [yr|];
    try (repeat split; cbn; rewrite ?pending_summaries_app, ?app_nil_r;
         reflexivity).
  destruct (str_truthy org);
    [|repeat split; cbn; rewrite ?pending_summaries_app, ?app_nil_r;
      reflexivity].
  destruct (Db.select_affiliation _ cid yr org) as [[aff_id ev]|];
    repeat split; cbn; rewrite ?pending_summaries_app, ?app_nil_r;
    reflexivity.
Qed.

Lemma persist_works_frame (cid : nat) (works : list Work)
    (s : Db.Session) (next : nat) :
  session_frame s (fst (fold_left (persist_work cid) works (s, next))).
Proof.
  revert s next. induction works as [|w works IH]; intros s next.
  - apply session_frame_refl.
  - cbn [fold_left].
    destruct (persist_work cid (s, next) w) as [s1 next1] eqn:E.
    eapply session_frame_trans; [|apply IH].
    pose proof (persist_work_frame cid s next w) as F.
    rewrite E in F. exact F.
Qed.

(** The rows of one stored candidate. *)
Lemma persist_candidate_rows (ctx : JobContext) (job_id : string)
    (author : OpenAlexAuthor) (an : Analysis) (w : World) :
  let w' := persist_candidate ctx job_id author an w in
  jobs (store w') = jobs (store w)
  /\ queue_of job_id w'
     = queue_of job_id w
       ++ [EvCandidate
             {| ev_candidate_id := uuid_next w;
                ev_name := display_name author;
                ev_affiliation := affiliation author;
                ev_topics := an_topics an; ev_score := an_score an;
                ev_seniority := an_seniority_level an |}]
  /\ candidates (store w')
     = candidates (store w)
       ++ [{| cand_id := uuid_next w; cand_name := display_name author;
              cand_affiliation := affiliation author;
              cand_openalex_id := Some (author_id author) |}]
  /\ exists sid,
       summaries (store w')
       = summaries (store w)
         ++ [{| as_id := sid; as_candidate_id := uuid_next w;
                as_topics := an_topics an; as_breakdown := an_breakdown an;
                as_seniority := an_seniority_level an;
                as_requested_level := ctx_requested_level ctx;
                as_total_score := an_score an |}].
Proof.
  unfold persist_candidate.
  set (st := Db.insert_candidate (store w) _).
  pose proof (persist_works_frame (uuid_next w) (an_works an)
                (Db.open_session st) (S (uuid_next w))) as F.
  destruct (fold_left _ (an_works an) _) as [s next].
  cbn [fst] in F. destruct F as (F1 & F2 & F3 & F4 & F5).
  cbn zeta. rewrite queue_of_emit, store_emit. cbn [store].
  unfold Db.commit, Db.flush, Db.add. cbn [Db.db Db.pending].
  destruct (flush_rows (Db.pending s ++ [Db.RSummary
              {| as_id := next; as_candidate_id := uuid_next w;
                 as_topics := an_topics an; as_breakdown := an_breakdown an;
                 as_seniority := an_seniority_level an;
                 as_requested_level := ctx_requested_level ctx;
                 as_total_score := an_score an |}]) (Db.db s))
    as (H1 & H2 & _ & _ & H5).
  rewrite H1, H2, H5, F1, F2, F4, pending_summaries_app, F5.
  split; [reflexivity|]. split; [reflexivity|]. split; [reflexivity|].
  exists next. reflexivity.
Qed.

(** *** Yearly affiliations *)

Lemma pending_affiliations_app (l1 l2 : list Db.Row) :
  pending_affiliations (l1 ++ l2)
  = pending_affiliations l1 ++ pending_affiliations l2.
Proof. unfold pending_affiliations. apply flat_map_app. Qed.

(** The lookup finds nothing for a candidate without written rows. *)
Lemma select_affiliation_fresh (s : Db.Session) (cid : nat) (yr : Z)
    (org : string) :
  Forall (fun a => ay_candidate_id a <> cid) (affiliation_years (Db.db s)) ->
  Db.select_affiliation s cid yr org = None.
Proof.
  intros H. unfold Db.select_affiliation.
  induction H as [|a l Ha _ IH]; cbn [find].
  - reflexivity.
  - unfold Db.affiliation_matches at 1.
    destruct (Nat.eqb_spec (ay_candidate_id a) cid) as [E|_]; [contradiction|].
    cbn [andb]. exact IH.
Qed.

(** Within the session of a new candidate every observation adds a row
    with evidence_count 1: the written table is not touched and the count
    of an earlier row is never raised. *)
Lemma persist_works_adds_every_observation (cid : nat) (works : list Work)
    (s : Db.Session) (next : nat) :
  Forall (fun a => ay_candidate_id a <> cid) (affiliation_years (Db.db s)) ->
  affiliation_years (Db.db (fst (fold_left (persist_work cid) works (s, next))))
  = affiliation_years (Db.db s)
  /\ map affiliation_fact
       (pending_affiliations
          (Db.pending (fst (fold_left (persist_work cid) works (s, next)))))
     = map affiliation_fact (pending_affiliations (Db.pending s))
       ++ map (fun o => (cid, fst o, snd o, 1)) (observations works).
Proof.
  revert s next. induction works as [|w works IH]; intros s next Hfresh.
  - cbn. rewrite app_nil_r. split; reflexivity.
  - cbn [fold_left]. unfold observations. cbn [flat_map].
    fold (observations works). unfold persist_work at 2 4.
    destruct (org_at_publication w) as [org|], (year w) as [yr|].
    1: destruct (str_truthy org);
         [rewrite select_affiliation_fresh by exact Hfresh|].
    all: cbv beta iota zeta;
      match goal with
      | |- context [fold_left _ _ (?s1, ?n1)] =>
          destruct (IH s1 n1 Hfresh) as [H1 H2]
      end;
      rewrite H1, H2; cbn [Db.add Db.db Db.pending];
      rewrite ?pending_affiliations_app;
      cbn [pending_affiliations flat_map app map affiliation_fact
           ay_candidate_id ay_year ay_org_name ay_evidence_count fst snd];
      rewrite ?app_nil_r, ?map_app, <- ?app_assoc; split; reflexivity.
Qed.

(** X8: The affiliation rows of a stored candidate: one row of count 1 for
    each observation, repeated observations included. *)
Lemma persist_candidate_affiliations (ctx : JobContext) (job_id : string)
    (author : OpenAlexAuthor) (an : Analysis) (w : World) :
  Forall (fun a => ay_candidate_id a <> uuid_next w)
         (affiliation_years (store w)) ->
  exists rows,
    affiliation_years (store (persist_candidate ctx job_id author an w))
    = affiliation_years (store w) ++ rows
    /\ map affiliation_fact rows
       = map (fun o => (uuid_next w, fst o, snd o, 1))
             (observations (an_works an)).
Proof.
  intros Hfresh. unfold persist_candidate.
  set (st := Db.insert_candidate (store w) _).
  pose proof (persist_works_adds_every_observation (uuid_next w) (an_works an)
                (Db.open_session st) (S (uuid_next w)) Hfresh) as [H1 H2].
  destruct (fold_left _ (an_works an) _) as [s next].
  cbn [fst] in H1, H2. cbn zeta. rewrite store_emit. cbn [store].
  unfold Db.commit, Db.flush, Db.add. cbn [Db.db Db.pending].
  destruct (flush_rows (Db.pending s ++ [Db.RSummary
              {| as_id := next; as_candidate_id := uuid_next w;
                 as_topics := an_topics an; as_breakdown := an_breakdown an;
                 as_seniority := an_seniority_level an;
                 as_requested_level := ctx_requested_level ctx;
                 as_total_score := an_score an |}]) (Db.db s))
    as (_ & _ & _ & H4 & _).
  rewrite H4, H1, pending_affiliations_app. cbn [pending_affiliations flat_map].
  rewrite app_nil_r.
  exists (pending_affiliations (Db.pending s)).
  split; [reflexivity|]. exact H2.
Qed.

Section RunFacts.
Variable search_authors : string -> nat -> Result (list OpenAlexAuthor).
Variable fetch_top_works : string -> nat -> Result (list Work).
Variable top_keywords : list string -> nat -> list string.
Variable h_proxy : Z -> Z -> Q.
Variable embed_cosine : string -> string -> Q.
Variable now_year : Z.

Local Abbreviation run_search :=
  (run_search search_authors fetch_top_works top_keywords h_proxy
              embed_cosine now_year).
Local Abbreviation analyse :=
  (analyse fetch_top_works top_keywords h_proxy embed_cosine now_year).
Local Abbreviation process_author :=
  (process_author fetch_top_works top_keywords h_proxy embed_cosine now_year).
Local Abbreviation author_loop :=
  (author_loop fetch_top_works top_keywords h_proxy embed_cosine now_year).
Local Abbreviation job_context := (job_context top_keywords).
Local Abbreviation discover_query := (discover_query top_keywords).

Lemma started_job (job_id : string) (w : World) (job : Job) :
  jobs (store w) !! job_id = Some job ->
  jobs (store (started job_id w)) !! job_id = Some (set_status RUNNING 1 job).
Proof.
  intros H. unfold started. rewrite store_emit. cbn [with_store store].
  apply jobs_update_job. exact H.
Qed.

Lemma started_queue (job_id : string) (w : World) :
  queue_of job_id (started job_id w) = queue_of job_id w ++ [EvProgress 1].
Proof. unfold started. rewrite queue_of_emit. reflexivity. Qed.

Lemma started_rows (job_id : string) (w : World) :
  same_rows (store (started job_id w)) (store w).
Proof.
  unfold started. rewrite store_emit. cbn [with_store store].
  apply same_rows_update_job.
Qed.

Lemma run_search_unfold (job_id : string) (w : World) (job : Job) :
  jobs (store w) !! job_id = Some job ->
  run_search job_id w =
    match run_search_body search_authors fetch_top_works top_keywords h_proxy
            embed_cosine now_year job_id (set_status RUNNING 1 job)
            (started job_id w) with
    | (w', Ok _) => w'
    | (w', Raise e) =>
        emit job_id (EvError e)
          (with_store w' (Db.update_job (store w') job_id (set_error e)))
    end.
Proof.
  intros H. unfold Orchestrator.run_search. rewrite H.
  fold (started job_id w). rewrite (started_job job_id w job H).
  reflexivity.
Qed.

(** C5: when discovery returns no author the run ends with status DONE
    and progress 100; the events it puts on the job's queue are one
    "progress" (the initial 1) and one "finished": no "candidate", no
    "error". *)
Theorem run_search_empty_discovery_is_done
    (job_id : string) (w : World) (job : Job) :
  jobs (store w) !! job_id = Some job ->
  search_authors (discover_query job) 10 = Ok [] ->
  exists job' emitted,
    jobs (store (run_search job_id w)) !! job_id = Some job'
    /\ job_status job' = DONE
    /\ job_progress job' = 100
    /\ job_error job' = job_error job
    /\ queue_of job_id (run_search job_id w) = queue_of job_id w ++ emitted
    /\ emitted = [EvProgress 1; EvFinished]
    /\ count_events is_candidate emitted = 0%nat
    /\ count_events is_finished emitted = 1%nat
    /\ count_events is_error emitted = 0%nat
    /\ same_rows (store (run_search job_id w)) (store w).
Proof.
  intros Hjob Hdisc.
  rewrite (run_search_unfold job_id w job Hjob).
  unfold run_search_body.
  change (Orchestrator.discover_query top_keywords (set_status RUNNING 1 job))
    with (discover_query job).
  rewrite Hdisc.
  exists (set_status DONE 100 (set_status RUNNING 1 job)),
         [EvProgress 1; EvFinished].
  rewrite store_emit. cbn [with_store store].
  split.
  { apply jobs_update_job. apply started_job. exact Hjob. }
  split; [reflexivity|]. split; [reflexivity|]. split; [reflexivity|].
  split.
  { rewrite queue_of_emit, queue_of_with_store, started_queue.
    rewrite <- app_assoc. reflexivity. }
  split; [reflexivity|]. split; [reflexivity|]. split; [reflexivity|].
  split; [reflexivity|].
  eapply same_rows_trans; [apply same_rows_update_job | apply started_rows].
Qed.

(** *** One author *)

Lemma process_author_raise (ctx : JobContext) (job_id : string)
    (total step : Z) (author : OpenAlexAuthor) (w : World) (e : string) :
  analyse ctx author = Raise e ->
  process_author ctx job_id total step author w = (w, Raise e).
Proof. intros H. unfold Orchestrator.process_author. rewrite H. reflexivity. Qed.

Lemma process_author_ok (ctx : JobContext) (job_id : string)
    (total step : Z) (author : OpenAlexAuthor) (w : World) (an : Analysis) :
  analyse ctx author = Ok an ->
  exists w',
    process_author ctx job_id total step author w = (w', Ok (step + 1))
    /\ author_done ctx job_id total step author an w w'.
Proof.
  intros H. unfold Orchestrator.process_author. rewrite H.
  eexists. split; [reflexivity|].
  destruct (persist_candidate_rows ctx job_id author an w)
    as (P1 & P2 & P3 & sid & P4).
  constructor.
  - intros job Hjob. rewrite store_emit. cbn [with_store store].
    apply (jobs_update_job _ job_id _ job). rewrite P1. exact Hjob.
  - eexists. rewrite queue_of_emit, queue_of_with_store, P2.
    rewrite <- app_assoc. reflexivity.
  - rewrite store_emit. cbn [with_store store].
    destruct (same_rows_update_job
                (store (persist_candidate ctx job_id author an w)) job_id
                (fun j => set_progress (progress_value (step + 1) total) j))
      as (S1 & _ & _ & S4).
    eexists. unfold set_progress in S1, S4.
    rewrite S1, P3. split; [reflexivity|]. split; [reflexivity|].
    eexists. rewrite S4, P4. repeat split.
Qed.

Lemma process_author_inv (ctx : JobContext) (job_id : string)
    (total step : Z) (author : OpenAlexAuthor) (w w' : World) (r : Result Z) :
  process_author ctx job_id total step author w = (w', r) ->
  (exists e, analyse ctx author = Raise e /\ r = Raise e /\ w' = w)
  \/ (exists an, analyse ctx author = Ok an /\ r = Ok (step + 1)
                 /\ author_done ctx job_id total step author an w w').
Proof.
  intros H. destruct (analyse ctx author) as [an|e] eqn:E.
  - right. exists an. split; [reflexivity|].
    destruct (process_author_ok ctx job_id total step author w an E)
      as (w1 & H1 & D).
    rewrite H1 in H. injection H as <- <-. split; [reflexivity | exact D].
  - left. exists e. rewrite (process_author_raise _ _ _ _ _ _ _ E) in H.
    injection H as <- <-. repeat split.
Qed.

(** *** The loop *)

Lemma author_loop_app (ctx : JobContext) (job_id : string) (total : Z)
    (l1 l2 : list OpenAlexAuthor) (step : Z) (w : World) :
  author_loop ctx job_id total step (l1 ++ l2) w
  = match author_loop ctx job_id total step l1 w with
    | (w', Ok step') => author_loop ctx job_id total step' l2 w'
    | (w', Raise e) => (w', Raise e)
    end.
Proof.
  revert step w. induction l1 as [|a l1 IH]; intros step w.
  - reflexivity.
  - cbn [app Orchestrator.author_loop].
    destruct (process_author ctx job_id total step a w) as [w1 [s1|e]].
    + apply IH.
    + reflexivity.
Qed.

(** The job row stays in the table through the loop. *)
Lemma author_loop_keeps_job (ctx : JobContext) (job_id : string) (total : Z)
    (authors : list OpenAlexAuthor) (step : Z) (w w' : World) (r : Result Z)
    (job : Job) :
  jobs (store w) !! job_id = Some job ->
  author_loop ctx job_id total step authors w = (w', r) ->
  exists job',
    jobs (store w') !! job_id = Some job'
    /\ job_status job' = job_status job /\ job_error job' = job_error job.
Proof.
  revert step w job. induction authors as [|a authors IH]; intros step w job Hjob H.
  - cbn in H. injection H as <- <-. exists job. repeat split. exact Hjob.
  - cbn [Orchestrator.author_loop] in H.
    destruct (process_author ctx job_id total step a w) as [w1 r1] eqn:E.
    apply process_author_inv in E.
    destruct E as [(e & _ & -> & ->) | (an & _ & -> & D)].
    + injection H as <- <-. exists job. repeat split. exact Hjob.
    + pose proof (done_job _ _ _ _ _ _ _ _ D job Hjob) as Hjob1.
      destruct (IH _ _ _ Hjob1 H) as (job' & J1 & J2 & J3).
      exists job'. repeat split; assumption.
Qed.

(** A loop that returns has counted its authors. *)
Lemma author_loop_step (ctx : JobContext) (job_id : string) (total : Z)
    (authors : list OpenAlexAuthor) (step : Z) (w w' : World) (step' : Z) :
  author_loop ctx job_id total step authors w = (w', Ok step') ->
  step' = step + Z.of_nat (length authors).
Proof.
  revert step w. induction authors as [|a authors IH]; intros step w H.
  - cbn in H. injection H as _ <-. cbn. lia.
  - cbn [Orchestrator.author_loop] in H.
    destruct (process_author ctx job_id total step a w) as [w1 r1] eqn:E.
    apply process_author_inv in E.
    destruct E as [(e & _ & -> & ->) | (an & _ & -> & D)]; [discriminate|].
    apply IH in H. cbn [length]. lia.
Qed.

(** *** The progress value *)

Lemma progress_value_floor (step total : Z) :
  0 <= step -> 1 <= total ->
  progress_value step total = 5 + (90 * step) / total.
Proof.
  intros Hs Ht. unfold progress_value, py_int.
  rewrite Z.max_r by lia.
  destruct total as [|p|p]; try lia.
  cbn -[Z.mul Z.add Z.quot Z.div].
  rewrite !Pos.mul_1_l, !Pos.mul_1_r, !Z.mul_1_r.
  rewrite Z.quot_div_nonneg by lia.
  replace (5 * Z.pos p + step * 90) with (90 * step + 5 * Z.pos p) by lia.
  rewrite Z.div_add by lia. lia.
Qed.


(** *** A prefix of authors whose enrichment succeeds *)

Lemma author_loop_all_ok (ctx : JobContext) (job_id : string) (total : Z)
    (pre : list OpenAlexAuthor) (step : Z) (w : World) :
  Forall (fun x => exists an, analyse ctx x = Ok an) pre ->
  exists w' evs cs sms,
    author_loop ctx job_id total step pre w
      = (w', Ok (step + Z.of_nat (length pre)))
    /\ queue_of job_id w' = queue_of job_id w ++ evs
    /\ count_events is_candidate evs = length pre
    /\ count_events is_error evs = 0%nat
    /\ count_events is_finished evs = 0%nat
    /\ candidates (store w') = candidates (store w) ++ cs
    /\ map cand_openalex_id cs = map (fun x => Some (author_id x)) pre
    /\ summaries (store w') = summaries (store w) ++ sms
    /\ map as_candidate_id sms = map cand_id cs.
Proof.
  intros Hall. revert step w.
  induction Hall as [|a pre (an & Han) _ IH]; intros step w.
  - exists w, [], [], []. cbn. rewrite !app_nil_r, Z.add_0_r. repeat split.
  - destruct (process_author_ok ctx job_id total step a w an Han)
      as (w1 & E1 & D).
    destruct (IH (step + 1) w1)
      as (w2 & evs & cs & sms & E2 & Q & C1 & C2 & C3 & K1 & K2 & S1 & S2).
    destruct (done_queue _ _ _ _ _ _ _ _ D) as (cev & Hq).
    destruct (done_candidates _ _ _ _ _ _ _ _ D)
      as (c & Hc & Hid & sm & Hs & Hsc & _).
    exists w2,
      ([EvCandidate cev; EvProgress (progress_value (step + 1) total)] ++ evs),
      (c :: cs), (sm :: sms).
    split.
    { cbn [Orchestrator.author_loop]. rewrite E1, E2. do 2 f_equal.
      cbn [length]. lia. }
    split. { rewrite Q, Hq, <- app_assoc. reflexivity. }
    rewrite !count_events_app, C1, C2, C3.
    split; [reflexivity|]. split; [reflexivity|]. split; [reflexivity|].
    split. { rewrite K1, Hc, <- app_assoc. reflexivity. }
    split. { cbn [map]. rewrite Hid, K2. reflexivity. }
    split. { rewrite S1, Hs, <- app_assoc. reflexivity. }
    cbn [map]. rewrite Hsc, S2. reflexivity.
Qed.

(** C2: when the enrichment of the i-th discovered author raises, the run
    has processed the i-1 authors before it and none after it: the job ends
    with status ERROR and the message of the exception; the events of the
    run hold exactly one "error" event, the last one, one "candidate" event
    for each earlier author and no "finished" event; the rows of the
    candidates stored for the earlier authors are those the run ends
    with. *)
Theorem run_search_error_keeps_earlier_candidates
    (job_id : string) (w : World) (job : Job)
    (pre post : list OpenAlexAuthor) (a : OpenAlexAuthor) (msg : string) :
  jobs (store w) !! job_id = Some job ->
  search_authors (discover_query job) 10 = Ok (pre ++ a :: post) ->
  Forall (fun x => exists an, analyse (job_context job) x = Ok an) pre ->
  analyse (job_context job) a = Raise msg ->
  exists w_pre job' emitted cs sms,
    author_loop (job_context job) job_id
      (Z.of_nat (length (pre ++ a :: post))) 0 pre (started job_id w)
      = (w_pre, Ok (Z.of_nat (length pre)))
    /\ jobs (store (run_search job_id w)) !! job_id = Some job'
    /\ job_status job' = ERROR
    /\ job_error job' = Some msg
    /\ same_rows (store (run_search job_id w)) (store w_pre)
    /\ candidates (store w_pre) = candidates (store w) ++ cs
    /\ map cand_openalex_id cs = map (fun x => Some (author_id x)) pre
    /\ summaries (store w_pre) = summaries (store w) ++ sms
    /\ map as_candidate_id sms = map cand_id cs
    /\ queue_of job_id (run_search job_id w) = queue_of job_id w ++ emitted
    /\ last emitted = Some (EvError msg)
    /\ count_events is_error emitted = 1%nat
    /\ count_events is_candidate emitted = length pre
    /\ count_events is_finished emitted = 0%nat.
Proof.
  intros Hjob Hdisc Hpre Hfail.
  destruct (author_loop_all_ok (job_context job) job_id
              (Z.of_nat (length (pre ++ a :: post))) pre 0
              (started job_id w) Hpre)
    as (w_pre & evs & cs & sms & E & Q & C1 & C2 & C3 & K1 & K2 & S1 & S2).
  rewrite Z.add_0_l in E.
  destruct (started_rows job_id w) as (R1 & _ & _ & R4).
  rewrite R1 in K1. rewrite R4 in S1.
  destruct (author_loop_keeps_job _ _ _ _ _ _ _ _ _
              (started_job job_id w job Hjob) E) as (job1 & Hjob1 & _ & _).
  assert (Hrun : run_search job_id w
                 = emit job_id (EvError msg)
                     (with_store w_pre
                        (Db.update_job (store w_pre) job_id (set_error msg)))).
  { rewrite (run_search_unfold job_id w job Hjob).
    unfold run_search_body.
    change (Orchestrator.discover_query top_keywords (set_status RUNNING 1 job))
      with (discover_query job).
    change (Orchestrator.job_context top_keywords (set_status RUNNING 1 job))
      with (job_context job).
    rewrite Hdisc.
    destruct (pre ++ a :: post) as [|x l] eqn:El;
      [destruct pre; discriminate El|].
    rewrite <- El in E |- *.
    rewrite author_loop_app, E.
    cbn [Orchestrator.author_loop].
    rewrite (process_author_raise _ _ _ _ _ _ _ Hfail). reflexivity. }
  exists w_pre, (set_error msg job1), (EvProgress 1 :: evs ++ [EvError msg]),
         cs, sms.
  rewrite Hrun, store_emit, queue_of_emit, queue_of_with_store.
  cbn [with_store store].
  split; [exact E|].
  split; [apply jobs_update_job; exact Hjob1|].
  split; [reflexivity|]. split; [reflexivity|].
  split; [apply same_rows_update_job|].
  split; [exact K1|]. split; [exact K2|]. split; [exact S1|].
  split; [exact S2|].
  split. { rewrite Q, started_queue, <- !app_assoc. reflexivity. }
  split. { change (EvProgress 1 :: evs ++ [EvError msg])
             with ((EvProgress 1 :: evs) ++ [EvError msg]).
           apply last_snoc. }
  change (EvProgress 1 :: evs ++ [EvError msg])
    with ([EvProgress 1] ++ evs ++ [EvError msg]).
  rewrite !count_events_app, C1, C2, C3. cbn. repeat split; lia.
Qed.

End RunFacts.

(** *** The run on concrete collaborators *)

Import Fixtures.

Lemma run_search_empty_discovery_is_done_witness :
  exists job',
    jobs (store (run_search no_authors one_paper no_keywords zero_h
                   zero_cosine 2024 "j1" world0)) !! "j1" = Some job'
    /\ job_status job' = DONE /\ job_progress job' = 100
    /\ queue_of "j1" (run_search no_authors one_paper no_keywords zero_h
                        zero_cosine 2024 "j1" world0)
       = [EvProgress 1; EvFinished].
Proof.
  destruct (run_search_empty_discovery_is_done
              no_authors one_paper no_keywords zero_h zero_cosine 2024
              "j1" world0 job0)
    as (job' & emitted & H1 & H2 & H3 & _ & H5 & H6 & _).
  - reflexivity.
  - reflexivity.
  - exists job'. rewrite H5, H6. repeat split; assumption.
Defined.


(** The binary64 evaluation of the progress expression and the exact one
    agree for every run of at most 44 authors (discovery asks for 10); the
    first difference is at step 13 of 45, where the double falls just
    below 31. *)
Lemma progress_value_binary64_agrees :
  forallb (fun p => Binary64.progress_value (fst p) (snd p)
                    =? progress_value (fst p) (snd p))
          (Binary64.steps_up_to 44) = true
  /\ Binary64.progress_value 13 45 = 30
  /\ progress_value 13 45 = 31.
Proof. repeat split; vm_compute; reflexivity. Qed.


Lemma run_search_error_keeps_earlier_candidates_witness :
  exists job',
    jobs (store (run_search three_authors second_fails no_keywords zero_h
                   zero_cosine 2024 "j1" world0)) !! "j1" = Some job'
    /\ job_status job' = ERROR
    /\ job_error job' = Some "503 Service Unavailable"
    /\ map cand_openalex_id
         (candidates (store (run_search three_authors second_fails no_keywords
                               zero_h zero_cosine 2024 "j1" world0)))
       = [Some "a1"].
Proof.
  destruct (run_search_error_keeps_earlier_candidates
              three_authors second_fails no_keywords zero_h zero_cosine 2024
              "j1" world0 job0 [author "a1"] [author "a3"] (author "a2")
              "503 Service Unavailable")
    as (w_pre & job' & emitted & cs & sms & _ & H2 & H3 & H4 & H5 & H6 & H7 & _).
  - reflexivity.
  - reflexivity.
  - constructor; [|constructor]. eexists. vm_compute. reflexivity.
  - reflexivity.
  - exists job'. destruct H5 as (R1 & _).
    rewrite R1, H6, map_app, H7. repeat split; assumption.
Defined.

(** C4: the code at two papers of one author that carry the same
    organization and year.  The second lookup does not see the row added
    for the first paper, which is still pending in the session, so a second
    row is added: two rows for the triple, each with evidence_count 1. *)
Theorem repeated_affiliation_is_inserted_twice :
  let st := store (run_search one_author same_affiliation_twice no_keywords
                     zero_h zero_cosine 2024 "j1" world0) in
  affiliation_years st
  = [{| ay_id := 2; ay_candidate_id := 0; ay_org_name := "MIT";
        ay_year := 2020; ay_evidence_count := 1 |};
     {| ay_id := 4; ay_candidate_id := 0; ay_org_name := "MIT";
        ay_year := 2020; ay_evidence_count := 1 |}]
  /\ length (List.filter (Db.affiliation_matches 0 2020 "MIT")
                         (affiliation_years st)) = 2%nat
  /\ Forall (fun a => ay_evidence_count a = 1) (affiliation_years st).
Proof.
  cbv zeta.
  assert (E : affiliation_years
                (store (run_search one_author same_affiliation_twice
                          no_keywords zero_h zero_cosine 2024 "j1" world0))
              = [{| ay_id := 2; ay_candidate_id := 0; ay_org_name := "MIT";
                    ay_year := 2020; ay_evidence_count := 1 |};
                 {| ay_id := 4; ay_candidate_id := 0; ay_org_name := "MIT";
                    ay_year := 2020; ay_evidence_count := 1 |}])
    by (vm_compute; reflexivity).
  rewrite E. split; [reflexivity|]. split; [reflexivity|].
  repeat constructor.
Qed.

(** The run that stores a negative score: a job described by the word
    "cryptography" asking for a principal, one author without counts whose
    only work is titled "robotics", and the similarity -1 that the two
    texts have when the dimension is 3. *)
Lemma run_search_stores_negative_score :
  let w := run_search one_author NegativeCosineFixtures.robotics_paper
             NegativeCosineFixtures.one_word_keywords zero_h
             NegativeCosineFixtures.cosine_dim_3 2024 "j1"
             NegativeCosineFixtures.cryptography_world in
  option_map job_status (jobs (store w) !! "j1") = Some DONE
  /\ map as_topics (summaries (store w)) = [["robotics"]]
  /\ map as_seniority (summaries (store w)) = ["junior"]
  /\ Forall (fun s => (as_total_score s == - (41 # 200))%Q) (summaries (store w)).
Proof.
  cbv zeta. split; [vm_compute; reflexivity|].
  split; [vm_compute; reflexivity|]. split; [vm_compute; reflexivity|].
  match goal with
  | |- Forall _ ?l =>
      let l' := eval vm_compute in l in change l with l'
  end.
  repeat constructor.
Qed.

End OrchestratorFacts.

(** * Properties of the job-status endpoint *)

Module ApiFacts.
Import Models Api ApiSpec.
Local Open Scope list_scope.

Lemma higher_score_asym (a b : AnalysisSummary) :
  higher_score a b = true -> higher_score b a = false.
Proof.
  unfold higher_score. intros H. apply negb_true_iff in H.
  apply negb_false_iff, Qle_bool_iff.
  apply RankingFacts.Qle_bool_false in H. apply Qlt_le_weak. exact H.
Qed.

Lemma higher_score_neg_trans (x y z : AnalysisSummary) :
  higher_score y x = false -> higher_score z y = false ->
  higher_score z x = false.
Proof.
  unfold higher_score. rewrite !negb_false_iff, !Qle_bool_iff.
  intros H1 H2. eapply Qle_trans; eassumption.
Qed.

Lemma higher_score_not_after (a b : AnalysisSummary) :
  not_after higher_score a b -> (as_total_score b <= as_total_score a)%Q.
Proof.
  unfold not_after, higher_score. rewrite negb_false_iff, Qle_bool_iff.
  trivial.
Qed.

(** The rows of the listing query: at most 20, highest score first. *)
Lemma top_rows_sorted (st : Store) :
  (length (top_rows st) <= 20)%nat
  /\ StronglySorted
       (fun a b => (as_total_score (fst b) <= as_total_score (fst a))%Q)
       (top_rows st).
Proof.
  unfold top_rows. split.
  - rewrite length_take. lia.
  - apply SortFacts.StronglySorted_take.
    eapply SortFacts.StronglySorted_weaken;
      [|apply (SortFacts.stable_sort_sorted
                 (fun a b : AnalysisSummary * Candidate =>
                    higher_score (fst a) (fst b)))].
    + intros x y H. apply higher_score_not_after. exact H.
    + intros x y. apply higher_score_asym.
    + intros x y z. apply higher_score_neg_trans.
Qed.


Import Orchestrator Fixtures.



End ApiFacts.

(** * Properties of the hashing embedder *)

Module EmbeddingFacts.
Import Embeddings EmbeddingSpec.
Import Lra.
Local Open Scope R_scope.
Local Open Scope list_scope.

(** *** Dot products *)

Lemma dot_self_nonneg (v : list R) : 0 <= dot v v.
Proof.
  induction v as [|x v IH]; cbn.
  - lra.
  - pose proof (Rle_0_sqr x) as Hx. unfold Rsqr in Hx. lra.
Qed.

Lemma dot_self_zero (v : list R) : dot v v = 0 -> Forall (fun x => x = 0) v.
Proof.
  induction v as [|x v IH]; cbn; intros H.
  - constructor.
  - pose proof (Rle_0_sqr x) as Hx. unfold Rsqr in Hx.
    pose proof (dot_self_nonneg v) as Hv.
    assert (Hxx : x * x = 0) by lra.
    constructor.
    + apply Rmult_integral in Hxx. destruct Hxx; assumption.
    + apply IH. lra.
Qed.

Lemma dot_zero_l (a b : list R) : Forall (fun x => x = 0) a -> dot a b = 0.
Proof.
  intros Ha. revert b. induction Ha as [|x a Hx Ha IH]; intros [|y b]; cbn;
    try reflexivity.
  rewrite Hx, IH. lra.
Qed.

Lemma dot_zero_r (a b : list R) : Forall (fun x => x = 0) b -> dot a b = 0.
Proof.
  intros Hb. revert a. induction Hb as [|y b Hy Hb IH]; intros [|x a]; cbn;
    try reflexivity.
  rewrite Hy, IH. lra.
Qed.

Lemma dot_self_scaled (n : R) (v : list R) :
  n <> 0 ->
  dot (map (fun x => x / n) v) (map (fun x => x / n) v) = dot v v / (n * n).
Proof.
  intros Hn. induction v as [|x v IH]; cbn.
  - unfold Rdiv. rewrite Rmult_0_l. reflexivity.
  - rewrite IH. field. exact Hn.
Qed.

Lemma norm_zero_vector (v : list R) : norm v = 0 -> Forall (fun x => x = 0) v.
Proof.
  unfold norm. intros H. apply dot_self_zero.
  apply sqrt_eq_0; [apply dot_self_nonneg | exact H].
Qed.

Section EmbedderFacts.
Variable md5 : string -> Z.
Variable dim : positive.

Local Abbreviation embed := (embed md5 dim).
Local Abbreviation accumulate := (accumulate md5 dim).

Lemma length_bump (vec : list R) (tok : string) :
  length (bump md5 dim vec tok) = length vec.
Proof. unfold bump. apply length_alter. Qed.

Lemma length_accumulate (text : string) :
  length (accumulate text) = Pos.to_nat dim.
Proof.
  unfold Embeddings.accumulate.
  generalize (_tokenize text). intros toks.
  assert (H : forall vec, length (fold_left (bump md5 dim) toks vec) = length vec).
  { induction toks as [|t toks IH]; intros vec; cbn.
    - reflexivity.
    - rewrite IH. apply length_bump. }
  rewrite H. apply length_replicate.
Qed.

Lemma length_embed (text : string) : length (embed text) = Pos.to_nat dim.
Proof.
  unfold Embeddings.embed. cbv zeta.
  destruct (Rlt_dec 0 (norm (accumulate text))).
  - rewrite length_map. apply length_accumulate.
  - apply length_accumulate.
Qed.

(** The norm of an embedding is 0 or 1. *)
Lemma norm_embed (text : string) :
  norm (embed text) = 0 \/ norm (embed text) = 1.
Proof.
  unfold Embeddings.embed. cbv zeta.
  set (vec := accumulate text).
  destruct (Rlt_dec 0 (norm vec)) as [Hpos | Hnpos].
  - right. unfold norm at 1.
    rewrite dot_self_scaled by lra.
    assert (Hsq : norm vec * norm vec = dot vec vec).
    { unfold norm. apply sqrt_sqrt, dot_self_nonneg. }
    rewrite Hsq.
    assert (Hd : dot vec vec <> 0).
    { intros H0. unfold norm in Hpos. rewrite H0, sqrt_0 in Hpos. lra. }
    replace (dot vec vec / dot vec vec) with 1 by (field; exact Hd).
    apply sqrt_1.
  - left. pose proof (sqrt_pos (dot vec vec)) as H. unfold norm in *. lra.
Qed.

Lemma tokenize_empty : _tokenize "" = [].
Proof. reflexivity. Qed.

Lemma dot_replicate_zero (n : nat) : dot (replicate n 0) (replicate n 0) = 0.
Proof. induction n as [|n IH]; cbn; [reflexivity | rewrite IH; lra]. Qed.

(** The empty text embeds to the zero vector. *)
Lemma embed_empty : embed "" = replicate (Pos.to_nat dim) 0.
Proof.
  unfold Embeddings.embed, Embeddings.accumulate. rewrite tokenize_empty.
  cbn [fold_left]. cbv zeta.
  destruct (Rlt_dec 0 (norm (replicate (Pos.to_nat dim) 0))) as [H|H].
  - exfalso. unfold norm in H. rewrite dot_replicate_zero, sqrt_0 in H. lra.
  - reflexivity.
Qed.

(** On embeddings the dot product is the cosine similarity. *)
Lemma cosine_similarity_embed (t q : string) :
  cosine_similarity (embed t) (embed q) = Ok (dot (embed t) (embed q)).
Proof.
  unfold cosine_similarity.
  rewrite !length_embed, Nat.eqb_refl. cbn [negb]. cbv zeta. f_equal.
  fold (norm (embed t)). fold (norm (embed q)).
  destruct (norm_embed t) as [Ht | Ht], (norm_embed q) as [Hq | Hq];
    rewrite Ht, Hq.
  - rewrite Rmult_0_l. destruct (Req_dec_T 0 0) as [_|H]; [|congruence].
    symmetry. apply dot_zero_l, norm_zero_vector, Ht.
  - rewrite Rmult_0_l. destruct (Req_dec_T 0 0) as [_|H]; [|congruence].
    symmetry. apply dot_zero_l, norm_zero_vector, Ht.
  - rewrite Rmult_0_r. destruct (Req_dec_T 0 0) as [_|H]; [|congruence].
    symmetry. apply dot_zero_r, norm_zero_vector, Hq.
  - rewrite Rmult_1_l. destruct (Req_dec_T 1 0) as [H|_]; [lra|].
    field.
Qed.

Lemma cosine_of_embed (t q : string) :
  cosine_of (embed t) (embed q) = dot (embed t) (embed q).
Proof. unfold cosine_of. rewrite cosine_similarity_embed. reflexivity. Qed.

(** *** Signs of the components *)

Lemma sign_pattern_tail (k : nat) (x : R) (v : list R) :
  sign_pattern k (x :: v) -> sign_pattern (S k) v.
Proof.
  intros H i y Hy. specialize (H (S i) y Hy).
  replace (S k + i)%nat with (k + S i)%nat by lia. exact H.
Qed.

Lemma dot_sign_pattern_nonneg (k : nat) (a b : list R) :
  sign_pattern k a -> sign_pattern k b -> 0 <= dot a b.
Proof.
  revert k b. induction a as [|x a IH]; intros k [|y b] Ha Hb; cbn;
    try apply Rle_refl.
  pose proof (Ha 0%nat x eq_refl) as Hx.
  pose proof (Hb 0%nat y eq_refl) as Hy.
  pose proof (IH (S k) b (sign_pattern_tail _ _ _ Ha)
                (sign_pattern_tail _ _ _ Hb)) as Hd.
  destruct (sign_bit (k + 0)).
  - assert (0 <= x * y) by (replace (x * y) with ((- x) * (- y)) by ring;
                            apply Rmult_le_pos; lra).
    lra.
  - assert (0 <= x * y) by (apply Rmult_le_pos; assumption). lra.
Qed.

Lemma sign_pattern_replicate (n : nat) : sign_pattern 0 (replicate n 0).
Proof.
  intros i x Hx. apply lookup_replicate in Hx. destruct Hx as [-> _].
  destruct (sign_bit (0 + i)); apply Rle_refl.
Qed.

Lemma sign_pattern_scale (k : nat) (n : R) (v : list R) :
  0 < n -> sign_pattern k v -> sign_pattern k (map (fun x => x / n) v).
Proof.
  intros Hn Hv i y Hy. rewrite list_lookup_fmap in Hy.
  destruct (v !! i) as [x|] eqn:Ex; [|discriminate].
  cbn in Hy. injection Hy as <-. specialize (Hv i x Ex).
  assert (Hinv : 0 < / n) by (apply Rinv_0_lt_compat, Hn).
  unfold Rdiv. destruct (sign_bit (k + i)).
  - replace (x * / n) with (- ((- x) * / n)) by ring.
    assert (0 <= (- x) * / n) by (apply Rmult_le_pos; lra). lra.
  - apply Rmult_le_pos; lra.
Qed.

(** When the dimension is a multiple of 4, bit 1 of the index [h mod dim]
    is bit 1 of the hash [h]. *)
Lemma sign_bit_of_index (h : Z) :
  (4 | Z.pos dim)%Z ->
  sign_bit (Z.to_nat (h mod Z.pos dim))
  = negb (Z.eqb (Z.land (Z.shiftr h 1) 1) 0).
Proof.
  intros Hdiv. unfold sign_bit.
  rewrite Z2Nat.id by (apply Z.mod_pos_bound; lia).
  assert (E1 : Z.testbit (h mod Z.pos dim) 1 = Z.testbit h 1).
  { rewrite <- (Z.mod_pow2_bits_low (h mod Z.pos dim) 2 1) by lia.
    rewrite <- (Z.mod_pow2_bits_low h 2 1) by lia.
    change (2 ^ 2)%Z with 4%Z.
    rewrite (Z.mod_mod_divide h (Z.pos dim) 4 Hdiv).
    reflexivity. }
  rewrite E1.
  set (x := Z.shiftr h 1).
  assert (E2 : Z.testbit h 1 = Z.testbit x 0)
    by (unfold x; rewrite Z.shiftr_spec by lia; reflexivity).
  rewrite E2, Z.bit0_eqb.
  change 1%Z with (Z.ones 1) at 2. rewrite Z.land_ones by lia.
  change (2 ^ 1)%Z with 2%Z.
  pose proof (Z.mod_pos_bound x 2 ltac:(lia)) as Hb.
  destruct (Z.eqb_spec (x mod 2) 1), (Z.eqb_spec (x mod 2) 0);
    cbn [negb]; try reflexivity; lia.
Qed.

Lemma sign_pattern_bump (vec : list R) (tok : string) :
  (4 | Z.pos dim)%Z ->
  sign_pattern 0 vec -> sign_pattern 0 (bump md5 dim vec tok).
Proof.
  intros Hdiv Hv i y Hy. unfold bump in Hy. cbv zeta in Hy.
  set (j := Z.to_nat (md5 tok mod Z.pos dim)) in *.
  destruct (decide (j = i)) as [<- | Hne].
  - rewrite list_lookup_alter_eq in Hy.
    destruct (vec !! j) as [x|] eqn:Ex; [|discriminate].
    cbn in Hy. injection Hy as <-. specialize (Hv j x Ex).
    cbn [Nat.add] in *. unfold j in *.
    rewrite (sign_bit_of_index (md5 tok) Hdiv) in *.
    destruct (Z.eqb (Z.land (Z.shiftr (md5 tok) 1) 1) 0); cbn [negb] in *; lra.
  - rewrite list_lookup_alter_ne in Hy by exact Hne. apply Hv, Hy.
Qed.

Lemma sign_pattern_accumulate (text : string) :
  (4 | Z.pos dim)%Z -> sign_pattern 0 (accumulate text).
Proof.
  intros Hdiv. unfold Embeddings.accumulate.
  generalize (_tokenize text). intros toks.
  assert (H : forall vec, sign_pattern 0 vec ->
                sign_pattern 0 (fold_left (bump md5 dim) toks vec)).
  { induction toks as [|t toks IH]; intros vec Hvec; cbn.
    - exact Hvec.
    - apply IH, sign_pattern_bump; assumption. }
  apply H, sign_pattern_replicate.
Qed.

Lemma sign_pattern_embed (text : string) :
  (4 | Z.pos dim)%Z -> sign_pattern 0 (embed text).
Proof.
  intros Hdiv. unfold Embeddings.embed. cbv zeta.
  destruct (Rlt_dec 0 (norm (accumulate text))) as [Hn|_].
  - apply sign_pattern_scale; [exact Hn|].
    apply sign_pattern_accumulate, Hdiv.
  - apply sign_pattern_accumulate, Hdiv.
Qed.

Lemma dot_le_half_squares (a b : list R) : 2 * dot a b <= dot a a + dot b b.
Proof.
  revert b. induction a as [|x a IH]; intros [|y b]; cbn.
  - lra.
  - pose proof (dot_self_nonneg (y :: b)) as H. cbn in H. lra.
  - pose proof (dot_self_nonneg (x :: a)) as H. cbn in H. lra.
  - specialize (IH b).
    pose proof (Rle_0_sqr (x - y)) as Hs. unfold Rsqr in Hs. lra.
Qed.

Lemma dot_embed_self_le_1 (text : string) : dot (embed text) (embed text) <= 1.
Proof.
  pose proof (dot_self_nonneg (embed text)) as Hpos.
  destruct (norm_embed text) as [H | H]; unfold norm in H.
  - apply sqrt_eq_0 in H; [lra | exact Hpos].
  - rewrite <- (sqrt_sqrt _ Hpos), H. lra.
Qed.

(** X18: With a dimension that is a multiple of 4, as the default 512 is, the
    cosine similarity of two embeddings lies in [0,1]. *)
Lemma cosine_of_embed_unit_interval (a b : string) :
  (4 | Z.pos dim)%Z ->
  0 <= cosine_of (embed a) (embed b) <= 1.
Proof.
  intros Hdiv. rewrite cosine_of_embed. split.
  - apply (dot_sign_pattern_nonneg 0); apply sign_pattern_embed, Hdiv.
  - pose proof (dot_le_half_squares (embed a) (embed b)) as H.
    pose proof (dot_embed_self_le_1 a) as Ha.
    pose proof (dot_embed_self_le_1 b) as Hb. lra.
Qed.


End EmbedderFacts.

(** *** A dimension that is not a multiple of 4 *)

Import RagFixtures.

Lemma accumulate_robotics :
  accumulate md5_two_tokens 3 robotics_text = [0 + -1; 0; 0].
Proof.
  unfold accumulate.
  replace (_tokenize robotics_text) with ["robotics"%string]
    by (vm_compute; reflexivity).
  cbn [fold_left]. unfold bump.
  replace (Z.to_nat (md5_two_tokens "robotics" mod 3)) with 0%nat
    by (vm_compute; reflexivity).
  replace (Z.eqb (Z.land (Z.shiftr (md5_two_tokens "robotics") 1) 1) 0)
    with false by (vm_compute; reflexivity).
  reflexivity.
Qed.

Lemma accumulate_cryptography :
  accumulate md5_two_tokens 3 "cryptography" = [0 + 1; 0; 0].
Proof.
  unfold accumulate.
  replace (_tokenize "cryptography") with ["cryptography"%string]
    by (vm_compute; reflexivity).
  cbn [fold_left]. unfold bump.
  replace (Z.to_nat (md5_two_tokens "cryptography" mod 3)) with 0%nat
    by (vm_compute; reflexivity).
  replace (Z.eqb (Z.land (Z.shiftr (md5_two_tokens "cryptography") 1) 1) 0)
    with true by (vm_compute; reflexivity).
  reflexivity.
Qed.

Lemma embed_unit_axis (s : R) (text : string) :
  s * s = 1 ->
  accumulate md5_two_tokens 3 text = [s; 0; 0] ->
  embed md5_two_tokens 3 text = [s / 1; 0 / 1; 0 / 1].
Proof.
  intros Hs Hacc. unfold embed. rewrite Hacc. cbv zeta.
  assert (Hn : norm [s; 0; 0] = 1).
  { unfold norm. cbn [dot].
    replace (s * s + (0 * 0 + (0 * 0 + 0))) with 1 by lra. apply sqrt_1. }
  rewrite Hn. destruct (Rlt_dec 0 1) as [_|H]; [reflexivity | lra].
Qed.

(** Two tokens that share a component with opposite signs when the
    dimension is 3: the cosine similarity of their embeddings is -1. *)
Lemma cosine_opposite_tokens_dim_3 :
  cosine_similarity (embed md5_two_tokens 3 robotics_text)
                    (embed md5_two_tokens 3 "cryptography")
  = Ok (-1).
Proof.
  rewrite cosine_similarity_embed.
  rewrite (embed_unit_axis (0 + -1) robotics_text)
    by (try lra; apply accumulate_robotics).
  rewrite (embed_unit_axis (0 + 1) "cryptography")
    by (try lra; apply accumulate_cryptography).
  f_equal. cbn [dot]. lra.
Qed.

End EmbeddingFacts.

(** * Properties of the retrieval *)

Module RagFacts.
Import Embeddings Rag RagSpec.
Local Open Scope nat_scope.
Local Open Scope list_scope.

(** *** Lists *)

Lemma StronglySorted_snoc {A : Type} (R : A -> A -> Prop) (l : list A) (x : A) :
  StronglySorted R l -> Forall (fun y => R y x) l ->
  StronglySorted R (l ++ [x]).
Proof.
  intros Hl Hx. induction Hl as [|y l Hl IH Hy]; cbn.
  - repeat constructor.
  - apply Forall_cons in Hx. destruct Hx as [Hyx Hlx].
    constructor; [apply IH; exact Hlx|].
    apply Forall_app. split; [exact Hy | repeat constructor; exact Hyx].
Qed.

Lemma NoDup_snoc {A : Type} (l : list A) (x : A) :
  NoDup l -> ~ In x l -> NoDup (l ++ [x]).
Proof.
  intros Hl Hx. apply NoDup_app. split; [exact Hl|].
  split; [|apply NoDup_singleton].
  intros y Hy Hy'. apply list_elem_of_In in Hy.
  apply list_elem_of_singleton in Hy'. subst y. contradiction.
Qed.

Lemma existsb_eqb_In (x : string) (l : list string) :
  existsb (String.eqb x) l = true <-> In x l.
Proof.
  rewrite existsb_exists. split.
  - intros (y & Hy & E). apply String.eqb_eq in E. subst. exact Hy.
  - intros H. exists x. split; [exact H | apply String.eqb_refl].
Qed.

Lemma StronglySorted_of_map {A B : Type} (f : A -> B) (R : B -> B -> Prop)
    (l : list A) :
  StronglySorted R (map f l) -> StronglySorted (fun x y => R (f x) (f y)) l.
Proof.
  induction l as [|x l IH]; intros H; [constructor|].
  cbn [map] in H. inversion H as [|? ? Hl Hx]; subst.
  constructor; [apply IH, Hl|].
  apply Forall_forall. intros y Hy. rewrite Forall_forall in Hx. apply Hx.
  apply list_elem_of_In, in_map, list_elem_of_In, Hy.
Qed.

Lemma filter_none {A : Type} (p : A -> bool) (l : list A) :
  (forall x, In x l -> p x = false) -> List.filter p l = [].
Proof.
  induction l as [|x l IH]; intros H; cbn.
  - reflexivity.
  - rewrite (H x) by (left; reflexivity).
    apply IH. intros y Hy. apply H. right. exact Hy.
Qed.

Lemma filter_all {A : Type} (p : A -> bool) (l : list A) :
  (forall x, In x l -> p x = true) -> List.filter p l = l.
Proof.
  induction l as [|x l IH]; intros H; cbn.
  - reflexivity.
  - rewrite (H x) by (left; reflexivity). f_equal.
    apply IH. intros y Hy. apply H. right. exact Hy.
Qed.

Lemma StronglySorted_lt_NoDup (l : list nat) : StronglySorted lt l -> NoDup l.
Proof.
  intros Hl. induction Hl as [|x l Hl IH Hx].
  - constructor.
  - apply NoDup_cons. split; [|exact IH].
    intros Hin. apply list_elem_of_In in Hin.
    rewrite Forall_forall in Hx. specialize (Hx x).
    assert (x < x) by (apply Hx, list_elem_of_In, Hin). lia.
Qed.

Lemma NoDup_map_filter {A B : Type} (f : A -> B) (p : A -> bool) (l : list A) :
  NoDup (map f l) -> NoDup (map f (List.filter p l)).
Proof.
  induction l as [|x l IH]; cbn; intros H.
  - constructor.
  - apply NoDup_cons in H. destruct H as [Hx Hl].
    destruct (p x); [|apply IH, Hl].
    cbn. apply NoDup_cons. split; [|apply IH, Hl].
    intros Hin. apply Hx.
    apply list_elem_of_In. apply list_elem_of_In in Hin.
    apply in_map_iff in Hin. destruct Hin as (y & <- & Hy).
    apply in_map. apply filter_In in Hy. apply Hy.
Qed.

Lemma map_nth_seq {A : Type} (d : A) (l : list A) :
  map (fun i => nth i l d) (seq 0 (length l)) = l.
Proof.
  induction l as [|x l IH]; cbn [length seq map].
  - reflexivity.
  - cbn [nth]. f_equal. rewrite <- seq_shift, map_map. cbn [nth]. exact IH.
Qed.

Lemma nth_map_in_range {A B : Type} (f : A -> B) (l : list A) (d : A) (d' : B)
    (i : nat) :
  i < length l -> nth i (map f l) d' = f (nth i l d).
Proof.
  intros H. rewrite (nth_indep (map f l) d' (f d)) by (rewrite length_map; exact H).
  apply map_nth.
Qed.

Lemma omap_map_some {A B C : Type} (g : B -> option C) (f : A -> B) (h : A -> C)
    (l : list A) :
  (forall x, In x l -> g (f x) = Some (h x)) -> omap g (map f l) = map h l.
Proof.
  induction l as [|x l IH]; intros H; cbn.
  - reflexivity.
  - rewrite (H x) by (left; reflexivity). f_equal.
    apply IH. intros y Hy. apply H. right. exact Hy.
Qed.

Lemma In_take {A : Type} (k : nat) (l : list A) (x : A) :
  In x (take k l) -> In x l.
Proof.
  revert k. induction l as [|y l IH]; intros [|k]; cbn; try tauto.
  intros [H | H]; [left; exact H | right; apply (IH k), H].
Qed.

Lemma Rltb_true (x y : R) : Rltb x y = true <-> (x < y)%R.
Proof. unfold Rltb. destruct (Rlt_dec x y); split; intros; try easy. Qed.

Lemma Rltb_false (x y : R) : Rltb x y = false <-> (y <= x)%R.
Proof.
  unfold Rltb. destruct (Rlt_dec x y) as [H|H]; split; intros H'; try easy.
  - exfalso. apply (Rlt_irrefl x). eapply Rlt_le_trans; eassumption.
  - apply Rnot_lt_le, H.
Qed.

(** *** The corpus under ingestion *)

Section RetrievalFacts.
Variable md5 : string -> Z.
Variable dim : positive.

Local Abbreviation embed := (embed md5 dim).
Local Abbreviation corpus_inv := (corpus_inv md5 dim).
Local Abbreviation ingested := (ingested md5 dim).

Lemma corpus_inv_empty : corpus_inv empty_corpus.
Proof.
  constructor; cbn.
  - constructor.
  - constructor.
  - constructor.
  - intros cid. constructor.
Qed.

Lemma posts_of_snoc (c : Corpus) (sp : SocialPost) (es : list Embedding)
    (n cid : nat) :
  posts_of {| social_posts := social_posts c ++ [sp]; embeddings := es;
              next_key := n |} cid
  = posts_of c cid
    ++ (if Nat.eqb (sp_candidate_id sp) cid then [sp] else []).
Proof.
  unfold posts_of. cbn [social_posts]. rewrite List.filter_app. reflexivity.
Qed.

Lemma ingest_one_inv (cid : nat) (c : Corpus) (existing : list string)
    (n : nat) (t : string * string * string) :
  corpus_inv c ->
  (forall p, In p (map sp_post_id (posts_of c cid)) -> In p existing) ->
  corpus_inv (fst (fst (ingest_one md5 dim cid (c, existing, n) t)))
  /\ (forall p,
        In p (map sp_post_id
                (posts_of (fst (fst (ingest_one md5 dim cid (c, existing, n) t)))
                          cid)) ->
        In p (snd (fst (ingest_one md5 dim cid (c, existing, n) t)))).
Proof.
  intros Hinv Hex. destruct t as [[post_id text] created].
  unfold ingest_one.
  destruct (negb (str_truthy text) || existsb (String.eqb post_id) existing)
    eqn:Hskip; cbn [fst snd].
  - split; assumption.
  - apply orb_false_iff in Hskip. destruct Hskip as [_ Hnew].
    assert (Hfresh : ~ In post_id existing).
    { intros Hin. apply existsb_eqb_In in Hin. congruence. }
    destruct Hinv as [Hpairs Hkeys Hlt Hids].
    split.
    + constructor; cbn [social_posts embeddings next_key].
      * apply Forall2_app; [exact Hpairs|].
        constructor; [|constructor]. repeat split.
      * rewrite map_app. cbn [map sp_id].
        apply StronglySorted_snoc; [exact Hkeys|].
        apply Forall_map. exact Hlt.
      * apply Forall_app. split.
        -- eapply Forall_impl; [exact Hlt|]. cbn. intros sp Hsp. lia.
        -- repeat constructor.
      * intros cid'. rewrite posts_of_snoc. cbn [sp_candidate_id].
        destruct (Nat.eqb cid cid') eqn:Ec.
        -- apply Nat.eqb_eq in Ec. subst cid'.
           rewrite map_app. cbn [map sp_post_id].
           apply NoDup_snoc; [apply Hids|].
           intros Hin. apply Hfresh, Hex, Hin.
        -- rewrite app_nil_r. apply Hids.
    + intros p. rewrite posts_of_snoc. cbn [sp_candidate_id].
      rewrite Nat.eqb_refl, map_app, in_app_iff. cbn [map sp_post_id In].
      intros [Hp | [Hp | []]]; [right; apply Hex, Hp | left; exact Hp].
Qed.

Lemma ingest_fold_inv (cid : nat) (texts : list (string * string * string))
    (c : Corpus) (existing : list string) (n : nat) :
  corpus_inv c ->
  (forall p, In p (map sp_post_id (posts_of c cid)) -> In p existing) ->
  corpus_inv
    (fst (fst (fold_left (ingest_one md5 dim cid) texts (c, existing, n)))).
Proof.
  revert c existing n. induction texts as [|t texts IH]; intros c existing n Hinv Hex.
  - exact Hinv.
  - cbn [fold_left].
    destruct (ingest_one_inv cid c existing n t Hinv Hex) as [H1 H2].
    destruct (ingest_one md5 dim cid (c, existing, n) t) as [[c1 ex1] n1].
    apply IH; assumption.
Qed.

Lemma ingest_tweet_texts_inv (c : Corpus) (cid : nat)
    (texts : list (string * string * string)) :
  corpus_inv c -> corpus_inv (fst (_ingest_tweet_texts md5 dim c cid texts)).
Proof.
  intros Hinv. unfold _ingest_tweet_texts.
  pose proof (ingest_fold_inv cid texts c (map sp_post_id (posts_of c cid)) 0
                Hinv (fun p H => H)) as H.
  destruct (fold_left _ texts _) as [[c1 ex1] n1]. exact H.
Qed.

Lemma ingested_inv (c : Corpus) : ingested c -> corpus_inv c.
Proof.
  induction 1 as [|c cid texts _ IH].
  - apply corpus_inv_empty.
  - apply ingest_tweet_texts_inv, IH.
Qed.

(** *** Loading the stored vectors *)

Lemma filter_key_unique (l : list SocialPost) (sp : SocialPost) :
  NoDup (map sp_id l) -> In sp l ->
  List.filter (fun sp' => Nat.eqb (sp_id sp') (sp_id sp)) l = [sp].
Proof.
  induction l as [|y l IH]; cbn; intros Hnd Hin; [contradiction|].
  apply NoDup_cons in Hnd. destruct Hnd as [Hy Hl].
  assert (Hy' : ~ In (sp_id y) (map sp_id l))
    by (intros H; apply Hy, list_elem_of_In, H).
  destruct Hin as [-> | Hin].
  - rewrite Nat.eqb_refl. f_equal. apply filter_none.
    intros z Hz. apply Nat.eqb_neq. intros E. apply Hy'.
    rewrite <- E. apply in_map, Hz.
  - destruct (Nat.eqb (sp_id y) (sp_id sp)) eqn:E.
    + apply Nat.eqb_eq in E. exfalso. apply Hy'. rewrite E. apply in_map, Hin.
    + apply IH; assumption.
Qed.

Lemma joined_rows_of_pairs (all ps : list SocialPost) (es : list Embedding)
    (cid : nat) :
  Forall2 (embeds_post md5 dim) ps es ->
  (forall sp, In sp ps ->
     List.filter (fun sp' => Nat.eqb (sp_id sp') (sp_id sp)) all = [sp]) ->
  map row_payload
    (flat_map
       (fun e =>
          map (fun sp => (emb_id e, emb_vector e, emb_dim e, sp_post_id sp))
              (List.filter (fun sp => Nat.eqb (sp_id sp) (emb_ref_id e)) all))
       (List.filter (fun e => Nat.eqb (emb_candidate_id e) cid
                              && String.eqb (emb_kind e) "tweet") es))
  = map (post_payload md5 dim)
        (List.filter (fun sp => Nat.eqb (sp_candidate_id sp) cid) ps).
Proof.
  intros Hpairs. induction Hpairs as [|sp e ps es Hp Hpairs IH]; intros Huniq.
  - reflexivity.
  - destruct Hp as (Hc & Hk & Hr & Hd & Hv).
    cbn [List.filter]. rewrite Hc, Hk. cbn [String.eqb].
    change ("tweet" =? "tweet")%string with true. rewrite andb_true_r.
    destruct (Nat.eqb (sp_candidate_id sp) cid).
    + cbn [flat_map]. rewrite map_app, IH
        by (intros sp' Hsp'; apply Huniq; right; exact Hsp').
      rewrite Hr, (Huniq sp) by (left; reflexivity).
      cbn [map app]. unfold row_payload at 1, post_payload at 1.
      rewrite Hd, Hv. reflexivity.
    + apply IH. intros sp' Hsp'. apply Huniq. right. exact Hsp'.
Qed.

Lemma embedding_rows_inv (c : Corpus) (cid : nat) :
  corpus_inv c ->
  map row_payload (embedding_rows c cid) = map (post_payload md5 dim) (posts_of c cid).
Proof.
  intros [Hpairs Hkeys _ _]. unfold embedding_rows, posts_of.
  apply joined_rows_of_pairs; [exact Hpairs|].
  intros sp Hsp. apply filter_key_unique; [|exact Hsp].
  apply StronglySorted_lt_NoDup, Hkeys.
Qed.

Lemma load_tweet_embeddings_inv (c : Corpus) (cid : nat) :
  corpus_inv c ->
  exists ids,
    _load_tweet_embeddings c cid
    = (ids, map (fun sp => embed (sp_text sp)) (posts_of c cid),
       map sp_post_id (posts_of c cid)).
Proof.
  intros Hinv. pose proof (embedding_rows_inv c cid Hinv) as H.
  unfold _load_tweet_embeddings.
  destruct (embedding_rows c cid) as [|[[[i v] d] p] rows] eqn:E.
  - destruct (posts_of c cid); [|discriminate H]. exists []. reflexivity.
  - assert (Hall : forall r, In r ((i, v, d, p) :: rows) ->
                     snd (fst (row_payload r)) = dim).
    { intros r Hr. apply (in_map row_payload) in Hr. rewrite H in Hr.
      apply in_map_iff in Hr. destruct Hr as (sp & <- & _). reflexivity. }
    assert (Hd : d = dim) by (apply (Hall (i, v, d, p)); left; reflexivity).
    rewrite filter_all.
    2:{ intros [[[i' v'] d'] p'] Hr. apply Pos.eqb_eq.
        rewrite Hd. apply (Hall _ Hr). }
    eexists. f_equal; [f_equal|].
    + transitivity (map (fun x => fst (fst x))
                        (map row_payload ((i, v, d, p) :: rows))).
      * rewrite map_map. apply map_ext. intros [[[i' v'] d'] p']. reflexivity.
      * rewrite H, map_map. reflexivity.
    + transitivity (map (fun x => snd x)
                        (map row_payload ((i, v, d, p) :: rows))).
      * rewrite map_map. apply map_ext. intros [[[i' v'] d'] p']. reflexivity.
      * rewrite H, map_map. reflexivity.
Qed.

(** *** Ranking *)

Local Abbreviation similarity := (similarity md5 dim).

Lemma more_similar_asym (query : string) (a b : SocialPost) :
  more_similar md5 dim query a b = true -> more_similar md5 dim query b a = false.
Proof.
  unfold more_similar. rewrite Rltb_true, Rltb_false. apply Rlt_le.
Qed.

Lemma more_similar_neg_trans (query : string) (x y z : SocialPost) :
  more_similar md5 dim query y x = false -> more_similar md5 dim query z y = false ->
  more_similar md5 dim query z x = false.
Proof.
  unfold more_similar. rewrite !Rltb_false. intros H1 H2.
  eapply Rle_trans; eassumption.
Qed.

Lemma similarity_dot (query : string) (sp : SocialPost) :
  similarity query sp = dot (embed (sp_text sp)) (embed query).
Proof. apply EmbeddingFacts.cosine_of_embed. Qed.

(** The positions selected by [top_idx] are those of the posts ranked by
    similarity. *)
Lemma top_idx_posts (query : string) (posts : list SocialPost)
    (d : SocialPost) (k : nat) :
  map (fun i => nth i posts d)
      (top_idx (map (fun row => dot row (embed query))
                    (map (fun sp => embed (sp_text sp)) posts)) k)
  = take k (stable_sort (more_similar md5 dim query) posts).
Proof.
  unfold top_idx. rewrite map_map, length_map.
  rewrite <- (map_ext (similarity query)) by (intros sp; apply similarity_dot).
  rewrite <- (firstn_map (fun i => nth i posts d)).
  f_equal.
  rewrite (SortFacts.stable_sort_ext _
             (fun i j => more_similar md5 dim query (nth i posts d) (nth j posts d))).
  - rewrite (SortFacts.stable_sort_map (fun i => nth i posts d)
               (more_similar md5 dim query)).
    rewrite map_nth_seq. reflexivity.
  - intros i j Hi Hj. apply in_seq in Hi, Hj. unfold more_similar.
    rewrite (nth_map_in_range _ posts d) by lia.
    rewrite (nth_map_in_range _ posts d) by lia.
    reflexivity.
Qed.

Lemma top_idx_in_range (sims : list R) (k i : nat) :
  In i (top_idx sims k) -> i < length sims.
Proof.
  unfold top_idx. intros H. apply In_take in H.
  apply (Permutation_in i (SortFacts.stable_sort_perm _ _)) in H.
  apply in_seq in H. lia.
Qed.

Lemma id2obj_lookup_unique (l : list SocialPost) (sp : SocialPost) :
  NoDup (map sp_post_id l) -> In sp l ->
  id2obj_lookup (map item_of l) (sp_post_id sp) = Some (item_of sp).
Proof.
  unfold id2obj_lookup. rewrite <- map_rev.
  intros Hnd Hin.
  assert (Hnd' : NoDup (map sp_post_id (rev l))).
  { rewrite map_rev. apply NoDup_ListNoDup, List.NoDup_rev, NoDup_ListNoDup, Hnd. }
  assert (Hin' : In sp (rev l)) by (apply in_rev in Hin; exact Hin).
  revert Hnd' Hin'. generalize (rev l). clear Hnd Hin l.
  induction l as [|y l IH]; cbn; intros Hnd Hin; [contradiction|].
  apply NoDup_cons in Hnd. destruct Hnd as [Hy Hl].
  destruct (String.eqb (sp_post_id y) (sp_post_id sp)) eqn:E.
  - destruct Hin as [-> | Hin]; [reflexivity|].
    apply String.eqb_eq in E. exfalso. apply Hy.
    apply list_elem_of_In. rewrite E. apply in_map, Hin.
  - destruct Hin as [-> | Hin].
    + rewrite String.eqb_refl in E. discriminate.
    + apply IH; assumption.
Qed.

(** [query_tweets] on a corpus of embedded posts. *)
Lemma query_tweets_ranked (c : Corpus) (cid : nat) (query : string) (k : nat) :
  corpus_inv c ->
  query_tweets md5 dim c cid query k
  = map item_of (take k (stable_sort (more_similar md5 dim query) (posts_of c cid))).
Proof.
  intros Hinv. unfold query_tweets.
  destruct (load_tweet_embeddings_inv c cid Hinv) as (ids & ->).
  pose proof (inv_post_ids _ _ _ Hinv cid) as Hnd.
  destruct (posts_of c cid) as [|d posts'] eqn:Eposts; [destruct k; reflexivity|].
  rewrite <- Eposts in *.
  destruct (map (fun sp => embed (sp_text sp)) (posts_of c cid))
    as [|r l] eqn:Emat.
  { rewrite Eposts in Emat. discriminate Emat. }
  cbv beta iota zeta. rewrite <- Emat. clear r l Emat.
  set (sims := map (fun row => dot row (embed query))
                   (map (fun sp => embed (sp_text sp)) (posts_of c cid))).
  set (top := take k (stable_sort (more_similar md5 dim query) (posts_of c cid))).
  assert (Hsel : map (fun i => nth i (map sp_post_id (posts_of c cid)) EmptyString)
                     (top_idx sims k)
                 = map sp_post_id top).
  { unfold top. rewrite <- (top_idx_posts query (posts_of c cid) d k).
    fold sims. rewrite map_map. apply map_ext_in. intros i Hi.
    apply top_idx_in_range in Hi. unfold sims in Hi.
    rewrite !length_map in Hi.
    apply (nth_map_in_range sp_post_id (posts_of c cid) d). exact Hi. }
  rewrite Hsel.
  apply omap_map_some. intros sp Hsp.
  apply id2obj_lookup_unique.
  - apply NoDup_map_filter, Hnd.
  - apply filter_In. split.
    + unfold top in Hsp. apply In_take in Hsp.
      apply (Permutation_in sp (SortFacts.stable_sort_perm _ _)) in Hsp.
      exact Hsp.
    + apply existsb_eqb_In. apply in_map, Hsp.
Qed.


End RetrievalFacts.

Import RagFixtures.


End RagFacts.

(** * Further properties of the scoring functions *)

Module RankingMore.
Import Ranking RankingSpec SenioritySpec.
Import Lqa.
Local Open Scope Q_scope.

(** *** normalized_score *)

Lemma normalized_score_inside (v lo hi : Q) :
  lo < hi ->
  Utils.normalized_score v lo hi == (Qmax lo (Qmin hi v) - lo) / (hi - lo).
Proof.
  intros H. unfold Utils.normalized_score.
  destruct (Qle_bool hi lo) eqn:E; [|reflexivity].
  apply Qle_bool_iff in E. lra.
Qed.

(** X1: [normalized_score] clamps: over a proper interval the value is in
    [0,1], it is 0 at and below [lo], 1 at and above [hi], and the linear
    map in between. *)
Theorem normalized_score_clamps (v lo hi : Q) :
  lo < hi ->
  0 <= Utils.normalized_score v lo hi <= 1
  /\ (v <= lo -> Utils.normalized_score v lo hi == 0)
  /\ (hi <= v -> Utils.normalized_score v lo hi == 1)
  /\ (lo <= v <= hi ->
      Utils.normalized_score v lo hi == (v - lo) / (hi - lo)).
Proof.
  intros H. split; [apply RankingFacts.normalized_score_range|].
  assert (Hd : ~ hi - lo == 0) by lra.
  repeat split; intros Hv; rewrite (normalized_score_inside v lo hi H).
  - rewrite (Q.max_l lo (Qmin hi v)).
    + field. exact Hd.
    + apply Qle_trans with v; [apply Q.le_min_r | exact Hv].
  - rewrite (Q.min_l hi v Hv), (Q.max_r lo hi) by lra. field. exact Hd.
  - destruct Hv as [H1 H2].
    rewrite (Q.min_r hi v H2), (Q.max_r lo v H1). reflexivity.
Qed.

Lemma normalized_score_clamps_witness :
  Utils.normalized_score 250 0 500 == 1 # 2
  /\ Utils.normalized_score 900 0 500 == 1
  /\ Utils.normalized_score (-3) 0 500 == 0.
Proof.
  destruct (normalized_score_clamps 250 0 500) as (_ & _ & _ & H4);
    [reflexivity|].
  destruct (normalized_score_clamps 900 0 500) as (_ & _ & H3 & _);
    [reflexivity|].
  destruct (normalized_score_clamps (-3) 0 500) as (_ & H2 & _ & _);
    [reflexivity|].
  split; [rewrite H4; [reflexivity | split; discriminate]|].
  split; [apply H3; discriminate | apply H2; discriminate].
Defined.

(** X2: [normalized_score] is nondecreasing in its value, whatever the
    interval, and is 0 on an empty or reversed interval. *)
Theorem normalized_score_monotone (v1 v2 lo hi : Q) :
  v1 <= v2 ->
  Utils.normalized_score v1 lo hi <= Utils.normalized_score v2 lo hi
  /\ (hi <= lo -> Utils.normalized_score v1 lo hi == 0).
Proof.
  intros Hv. unfold Utils.normalized_score.
  destruct (Qle_bool hi lo) eqn:E.
  - split; [apply Qle_refl | reflexivity].
  - apply RankingFacts.Qle_bool_false in E. split; [|lra].
    assert (Hm : Qmax lo (Qmin hi v1) <= Qmax lo (Qmin hi v2)).
    { apply Q.max_le_compat_l, Q.min_le_compat_l, Hv. }
    unfold Qdiv. apply Qmult_le_compat_r; [lra|].
    apply Qlt_le_weak, Qinv_lt_0_compat. lra.
Qed.

Lemma normalized_score_monotone_witness :
  Utils.normalized_score 10 0 80 <= Utils.normalized_score 40 0 80.
Proof.
  apply (normalized_score_monotone 10 40 0 80). discriminate.
Defined.

(** *** estimate_seniority *)

Lemma estimate_seniority_cases (ya : option Z) (h : Q) (wc : Z) :
  estimate_seniority ya h wc
  = if (10 <=? years_of ya)%Z || Qle_bool 25 h || (80 <=? wc)%Z
    then "principal"%string
    else if (6 <=? years_of ya)%Z || Qle_bool 12 h || (40 <=? wc)%Z
    then "senior"%string
    else if (3 <=? years_of ya)%Z || Qle_bool 6 h || (15 <=? wc)%Z
    then "mid"%string
    else "junior"%string.
Proof. reflexivity. Qed.

Lemma tier_monotone (a : Z) (b : Q) (c : Z) (ya ya' : Z) (h h' : Q) (wc wc' : Z) :
  (ya <= ya')%Z -> h <= h' -> (wc <= wc')%Z ->
  (a <=? ya)%Z || Qle_bool b h || (c <=? wc)%Z = true ->
  (a <=? ya')%Z || Qle_bool b h' || (c <=? wc')%Z = true.
Proof.
  intros H1 H2 H3. rewrite !orb_true_iff, !Z.leb_le, !Qle_bool_iff.
  intros [[H | H] | H].
  - left. left. lia.
  - left. right. eapply Qle_trans; eassumption.
  - right. lia.
Qed.

(** X3: [estimate_seniority] always returns one of the four levels, and more
    years, a higher h-index proxy or more works never lower the level. *)
Theorem estimate_seniority_monotone
    (ya ya' : option Z) (h h' : Q) (wc wc' : Z) :
  (years_of ya <= years_of ya')%Z -> h <= h' -> (wc <= wc')%Z ->
  In (estimate_seniority ya h wc) order
  /\ (level_rank (estimate_seniority ya h wc)
      <= level_rank (estimate_seniority ya' h' wc'))%nat.
Proof.
  intros H1 H2 H3. rewrite !estimate_seniority_cases.
  pose proof (tier_monotone 10 25 80 _ _ _ _ _ _ H1 H2 H3) as T1.
  pose proof (tier_monotone 6 12 40 _ _ _ _ _ _ H1 H2 H3) as T2.
  pose proof (tier_monotone 3 6 15 _ _ _ _ _ _ H1 H2 H3) as T3.
  destruct ((10 <=? years_of ya)%Z || Qle_bool 25 h || (80 <=? wc)%Z).
  { rewrite (T1 eq_refl). split; [cbn; tauto | reflexivity]. }
  destruct ((6 <=? years_of ya)%Z || Qle_bool 12 h || (40 <=? wc)%Z).
  { rewrite (T2 eq_refl).
    destruct (_ || _ || _); (split; [cbn; tauto | cbn; lia]). }
  destruct ((3 <=? years_of ya)%Z || Qle_bool 6 h || (15 <=? wc)%Z).
  { rewrite (T3 eq_refl).
    repeat destruct (_ || _ || _); (split; [cbn; tauto | cbn; lia]). }
  repeat destruct (_ || _ || _); (split; [cbn; tauto | cbn; lia]).
Qed.

Lemma estimate_seniority_monotone_witness :
  (level_rank (estimate_seniority (Some 2%Z) 3%Q 10%Z)
   <= level_rank (estimate_seniority (Some 7%Z) 3%Q 10%Z))%nat.
Proof.
  apply (estimate_seniority_monotone (Some 2%Z) (Some 7%Z) 3 3 10 10);
    discriminate.
Defined.

(** *** seniority_fit_score *)

Lemma fit_table_one (n : nat) :
  nth (Nat.min n 3) fit_table 0 == 1 <-> n = 0%nat.
Proof.
  destruct n as [|[|[|n]]].
  4: replace (Nat.min (S (S (S n))) 3) with 3%nat by lia.
  all: cbn; split; intros H; try reflexivity; try discriminate H.
  all: exfalso; unfold Qeq in H; cbn in H; lia.
Qed.

Lemma index_of_lt (x : string) (l : list string) (i : nat) :
  index_of x l = Some i -> nth_error l i = Some x.
Proof.
  revert i. induction l as [|y l IH]; cbn; intros i H; [discriminate|].
  destruct (String.eqb_spec y x) as [->|_].
  - injection H as <-. reflexivity.
  - destruct (index_of x l) as [j|]; [|discriminate].
    cbn in H. injection H as <-. cbn. apply IH. reflexivity.
Qed.

(** X4: For a candidate level among the four (as [estimate_seniority] returns
    it), the fit is 1.0 exactly when no level is requested or the requested
    level is the candidate's. *)
Theorem seniority_fit_is_one_iff (c : string) (d : option string) :
  In c order ->
  (seniority_fit_score c d == 1
   <-> opt_str_truthy d = false \/ d = Some c).
Proof.
  intros Hc. unfold seniority_fit_score.
  destruct (opt_str_truthy d) eqn:Ed; cbn [negb].
  2:{ split; [left; reflexivity | reflexivity]. }
  destruct d as [x|]; [|discriminate Ed].
  change (default EmptyString (Some x)) with x.
  destruct (index_of c order) as [ci|] eqn:Ec.
  2:{ exfalso. cbn in Hc.
      destruct Hc as [<-|[<-|[<-|[<-|[]]]]]; discriminate Ec. }
  destruct (index_of x order) as [di|] eqn:Ex.
  - cbv beta iota zeta. rewrite fit_table_one. split.
    + intros H. right. f_equal.
      assert (ci = di) by (unfold abs_diff in H; lia). subst di.
      apply index_of_lt in Ec, Ex. congruence.
    + intros [H | H]; [discriminate H|]. injection H as ->.
      rewrite Ec in Ex. injection Ex as <-. apply RankingFacts.abs_diff_diag.
  - split; [intros H; discriminate H|].
    intros [H | H]; [discriminate H|]. injection H as ->. congruence.
Qed.

Lemma seniority_fit_is_one_iff_witness :
  seniority_fit_score "senior" (Some "senior") == 1
  /\ ~ seniority_fit_score "senior" (Some "mid") == 1.
Proof.
  pose proof (seniority_fit_is_one_iff "senior" (Some "senior"%string)) as H1.
  pose proof (seniority_fit_is_one_iff "senior" (Some "mid"%string)) as H2.
  split.
  - apply H1; [cbn; tauto | right; reflexivity].
  - intros H. apply H2 in H; [|cbn; tauto].
    destruct H as [H | H]; discriminate H.
Defined.

(** *** score_candidate *)

(** X5: With a similarity in [0,1] and a seniority fit of the table, the total
    is in [0,1], whatever the keywords, counts and years. *)
Theorem total_score_unit_interval
    (kq tc : list string) (h : Q) (bc : Z) (ry : option Z) (cy : Z) (es sf : Q) :
  0 <= es <= 1 -> In sf fit_table ->
  0 <= fst (score_candidate kq tc h bc ry cy es sf) <= 1.
Proof.
  intros [H0 H1] Hsf. split.
  - apply (RankingFacts.total_score_ge_0 kq tc h bc ry cy es sf H0 Hsf).
  - apply (RankingFacts.total_score_le_1 kq tc h bc ry cy es sf H1 Hsf).
Qed.

Lemma total_score_unit_interval_witness :
  0 <= fst (score_candidate ["quantum"; "error"] ["Quantum"; "codes"] 12 340
              (Some 2021%Z) 2024 (7 # 10) (8 # 10)) <= 1.
Proof.
  apply total_score_unit_interval.
  - split; discriminate.
  - right. left. reflexivity.
Defined.

End RankingMore.

(** * Further properties of the event queues and of the job run *)

Module JobEventsFacts.
Import Orchestrator JobEvents.
Local Open Scope list_scope.

(** The [emit] of the run is [JobEvents.emit] on the queues. *)
Lemma emit_queues (job_id : string) (ev : Event) (w : World) :
  queues (Orchestrator.emit job_id ev w) = JobEvents.emit job_id ev (queues w).
Proof.
  unfold Orchestrator.emit, JobEvents.emit, get_queue. cbn [queues].
  destruct (queues w !! job_id) as [q|]; cbn [default from_option id].
  - reflexivity.
  - rewrite insert_insert_eq. reflexivity.
Qed.

(** X6: Queues are per job and first-in first-out: an event emitted for a job
    goes to the end of that job's queue and to no other; a queue that was
    removed reads as a new empty one, and removing a job that has no queue
    changes nothing. *)
Theorem emit_appends_to_own_queue_only
    (job_id other : string) (ev : Event) (qs : gmap string (list Event)) :
  other <> job_id ->
  fst (get_queue job_id (JobEvents.emit job_id ev qs))
  = fst (get_queue job_id qs) ++ [ev]
  /\ JobEvents.emit job_id ev qs !! other = qs !! other
  /\ fst (get_queue job_id (remove job_id (JobEvents.emit job_id ev qs))) = []
  /\ remove job_id (JobEvents.emit job_id ev qs) !! other = qs !! other
  /\ (qs !! job_id = None -> remove job_id qs = qs).
Proof.
  intros Hne. unfold JobEvents.emit, remove.
  assert (E : forall q', get_queue job_id (<[job_id := q']> qs)
                         = (q', <[job_id := q']> qs)).
  { intros q'. unfold get_queue. rewrite lookup_insert_eq. reflexivity. }
  split.
  { unfold get_queue at 2 3.
    destruct (qs !! job_id) as [q|]; cbn [fst].
    - apply (f_equal fst (E _)).
    - rewrite insert_insert_eq. apply (f_equal fst (E _)). }
  assert (Hother : (let '(q, qs0) := get_queue job_id qs in
                    <[job_id := q ++ [ev]]> qs0) !! other = qs !! other).
  { unfold get_queue. destruct (qs !! job_id) as [q|].
    - apply lookup_insert_ne. congruence.
    - rewrite !lookup_insert_ne by congruence. reflexivity. }
  split; [exact Hother|].
  split.
  { unfold get_queue at 1. rewrite lookup_delete_eq. reflexivity. }
  split.
  { rewrite lookup_delete_ne by congruence. exact Hother. }
  intros Hnone. apply delete_id. exact Hnone.
Qed.

Lemma emit_appends_to_own_queue_only_witness :
  fst (get_queue "job-a"
         (JobEvents.emit "job-a" EvFinished
            (JobEvents.emit "job-b" (EvProgress 1)
               (JobEvents.emit "job-a" (EvProgress 1) ∅))))
  = [EvProgress 1; EvFinished].
Proof.
  destruct (emit_appends_to_own_queue_only "job-a" "job-b" EvFinished
              (JobEvents.emit "job-b" (EvProgress 1)
                 (JobEvents.emit "job-a" (EvProgress 1) ∅)))
    as (H & _); [discriminate|].
  rewrite H. reflexivity.
Defined.

End JobEventsFacts.

Module RunFrame.
Import Models OpenAlex Orchestrator OrchestratorSpec RunSpec.
Import OrchestratorFacts.
Local Open Scope list_scope.

Lemma grows_refl (job_id : string) (w : World) : grows job_id w w.
Proof. constructor; try reflexivity; intros; reflexivity. Qed.

Lemma grows_trans (job_id : string) (a b c : World) :
  grows job_id a b -> grows job_id b c -> grows job_id a c.
Proof.
  intros [A1 A2 A3 A4 A5 A6 A7] [B1 B2 B3 B4 B5 B6 B7]. constructor.
  - intros j Hj. rewrite (B1 j Hj). apply A1, Hj.
  - intros j Hj. rewrite (B2 j Hj). apply A2, Hj.
  - rewrite B3. exact A3.
  - etrans; eassumption.
  - etrans; eassumption.
  - etrans; eassumption.
  - etrans; eassumption.
Qed.

Lemma grows_emit (job_id : string) (ev : Event) (w : World) :
  grows job_id w (emit job_id ev w).
Proof.
  constructor; rewrite ?store_emit; try reflexivity.
  - intros j Hj. unfold emit. cbn [queues].
    apply lookup_insert_ne. congruence.
  - rewrite queue_of_emit. apply prefix_app_r. reflexivity.
Qed.

Lemma grows_update_job (job_id : string) (f : Job -> Job) (w : World) :
  grows job_id w (with_store w (Db.update_job (store w) job_id f)).
Proof.
  destruct (same_rows_update_job (store w) job_id f) as (S1 & S2 & _ & S4).
  constructor; cbn [with_store store queues];
    rewrite ?S1, ?S2, ?S4, ?queue_of_with_store; try reflexivity.
  - intros j Hj. unfold Db.update_job.
    destruct (jobs (store w) !! job_id); [|reflexivity].
    cbn [jobs]. apply lookup_insert_ne. congruence.
  - unfold Db.update_job.
    destruct (jobs (store w) !! job_id) as [job|] eqn:E.
    + cbn [jobs]. rewrite lookup_insert_eq. split; intros _; eexists; reflexivity.
    + rewrite E. reflexivity.
Qed.

(** *** The publications of one stored candidate *)

Lemma pending_publications_app (l1 l2 : list Db.Row) :
  pending_publications (l1 ++ l2)
  = pending_publications l1 ++ pending_publications l2.
Proof. unfold pending_publications. apply flat_map_app. Qed.

Lemma persist_works_publications (cid : nat) (works : list Work)
    (s : Db.Session) (next : nat) :
  map publication_fact
    (pending_publications
       (Db.pending (fst (fold_left (persist_work cid) works (s, next)))))
  = map publication_fact (pending_publications (Db.pending s))
    ++ map (work_fact cid) works.
Proof.
  revert s next. induction works as [|w works IH]; intros s next.
  - cbn. rewrite app_nil_r. reflexivity.
  - cbn [fold_left map]. unfold persist_work at 2. unfold work_fact at 1.
    destruct (org_at_publication w) as [org|], (year w) as [yr|].
    1: destruct (str_truthy org);
         [destruct (Db.select_affiliation _ cid yr org) as [[aff_id ev]|]|].
    all: cbv beta iota zeta; rewrite IH;
      cbn [Db.add Db.update_evidence Db.db Db.pending];
      rewrite ?pending_publications_app;
      cbn [pending_publications flat_map app map];
      rewrite ?app_nil_r, ?map_app, <- ?app_assoc; reflexivity.
Qed.

Lemma persist_candidate_publications (ctx : JobContext) (job_id : string)
    (author : OpenAlexAuthor) (an : Analysis) (w : World) :
  exists pubs,
    publications (store (persist_candidate ctx job_id author an w))
    = publications (store w) ++ pubs
    /\ map publication_fact pubs
       = map (work_fact (uuid_next w)) (an_works an).
Proof.
  unfold persist_candidate.
  set (st := Db.insert_candidate (store w) _).
  pose proof (persist_works_frame (uuid_next w) (an_works an)
                (Db.open_session st) (S (uuid_next w))) as F.
  pose proof (persist_works_publications (uuid_next w) (an_works an)
                (Db.open_session st) (S (uuid_next w))) as P.
  destruct (fold_left _ (an_works an) _) as [s next].
  cbn [fst] in F, P. destruct F as (_ & _ & F3 & _ & _).
  cbn zeta. rewrite store_emit. cbn [store].
  unfold Db.commit, Db.flush, Db.add. cbn [Db.db Db.pending].
  match goal with
  | |- context [fold_left Db.write_row ?l ?d] =>
      destruct (flush_rows l d) as (_ & _ & H3 & _ & _)
  end.
  rewrite H3, F3, pending_publications_app.
  cbn [pending_publications flat_map]. rewrite app_nil_r.
  exists (pending_publications (Db.pending s)).
  split; [reflexivity | exact P].
Qed.

Lemma grows_persist_candidate (ctx : JobContext) (job_id : string)
    (author : OpenAlexAuthor) (an : Analysis) (w : World) :
  grows job_id w (persist_candidate ctx job_id author an w).
Proof.
  destruct (persist_candidate_rows ctx job_id author an w)
    as (P1 & P2 & P3 & sid & P4).
  destruct (persist_candidate_publications ctx job_id author an w)
    as (pubs & P5 & _).
  constructor.
  - intros j _. rewrite P1. reflexivity.
  - intros j Hj. unfold persist_candidate.
    destruct (fold_left _ (an_works an) _) as [s next].
    unfold emit. cbn [queues]. apply lookup_insert_ne. congruence.
  - rewrite P1. reflexivity.
  - rewrite P2. apply prefix_app_r. reflexivity.
  - rewrite P3. apply prefix_app_r. reflexivity.
  - rewrite P5. apply prefix_app_r. reflexivity.
  - rewrite P4. apply prefix_app_r. reflexivity.
Qed.

(** X7: Every row written for one author refers to the candidate row written
    in the same step: the candidate takes the author's name, affiliation
    and OpenAlex id; one publication is stored for each work, in order,
    with the work's fields; the one summary carries the computed topics,
    seniority and total score. *)
Theorem persist_candidate_rows_refer_to_new_candidate
    (ctx : JobContext) (job_id : string)
    (author : OpenAlexAuthor) (an : Analysis) (w : World) :
  exists c pubs sm,
    candidates (store (persist_candidate ctx job_id author an w))
    = candidates (store w) ++ [c]
    /\ cand_id c = uuid_next w
    /\ cand_name c = display_name author
    /\ cand_affiliation c = affiliation author
    /\ cand_openalex_id c = Some (author_id author)
    /\ publications (store (persist_candidate ctx job_id author an w))
       = publications (store w) ++ pubs
    /\ map publication_fact pubs = map (work_fact (cand_id c)) (an_works an)
    /\ summaries (store (persist_candidate ctx job_id author an w))
       = summaries (store w) ++ [sm]
    /\ as_candidate_id sm = cand_id c
    /\ as_topics sm = an_topics an
    /\ as_seniority sm = an_seniority_level an
    /\ as_total_score sm = an_score an.
Proof.
  destruct (persist_candidate_rows ctx job_id author an w)
    as (_ & _ & P3 & sid & P4).
  destruct (persist_candidate_publications ctx job_id author an w)
    as (pubs & P5 & P6).
  eexists _, pubs, _.
  split; [exact P3|]. cbn [cand_id cand_name cand_affiliation cand_openalex_id].
  do 4 (split; [reflexivity|]).
  split; [exact P5|]. split; [exact P6|]. split; [exact P4|].
  repeat split.
Qed.

(** *** The progress value *)

(** X9: The progress stored by the loop never decreases and stays between 5
    and 95: 95 is the value after the last author, 100 is only written
    when the run completes. *)
Theorem progress_value_monotone_5_to_95 (step step' total : Z) :
  0 <= step -> step <= step' -> step' <= total ->
  5 <= progress_value step total
  /\ progress_value step total <= progress_value step' total
  /\ progress_value step' total <= 95
  /\ (1 <= total -> progress_value total total = 95).
Proof.
  intros H0 H1 H2.
  destruct (Z.eq_dec total 0) as [->|Hne].
  { assert (step = 0) by lia. assert (step' = 0) by lia. subst.
    cbv. repeat split; try discriminate. intros H. exfalso. apply H.
    reflexivity. }
  assert (Ht : 1 <= total) by lia.
  rewrite !progress_value_floor by lia.
  assert (A : 0 <= 90 * step / total) by (apply Z.div_pos; lia).
  assert (B : 90 * step / total <= 90 * step' / total)
    by (apply Z.div_le_mono; lia).
  assert (C : 90 * step' / total <= 90 * total / total)
    by (apply Z.div_le_mono; lia).
  assert (D : 90 * total / total = 90) by (apply Z.div_mul; lia).
  lia.
Qed.

Lemma progress_value_monotone_5_to_95_witness :
  progress_value 2 7 <= progress_value 5 7 /\ progress_value 7 7 = 95.
Proof.
  destruct (progress_value_monotone_5_to_95 2 5 7) as (_ & H & _ & H');
    [lia | lia | lia |].
  split; [exact H | apply H'; lia].
Defined.

Section RunMore.
Variable search_authors : string -> nat -> Result (list OpenAlexAuthor).
Variable fetch_top_works : string -> nat -> Result (list Work).
Variable top_keywords : list string -> nat -> list string.
Variable h_proxy : Z -> Z -> Q.
Variable embed_cosine : string -> string -> Q.
Variable now_year : Z.

Local Abbreviation run_search :=
  (run_search search_authors fetch_top_works top_keywords h_proxy
              embed_cosine now_year).
Local Abbreviation run_search_body :=
  (run_search_body search_authors fetch_top_works top_keywords h_proxy
                   embed_cosine now_year).
Local Abbreviation analyse :=
  (analyse fetch_top_works top_keywords h_proxy embed_cosine now_year).
Local Abbreviation process_author :=
  (process_author fetch_top_works top_keywords h_proxy embed_cosine now_year).
Local Abbreviation author_loop :=
  (author_loop fetch_top_works top_keywords h_proxy embed_cosine now_year).
Local Abbreviation job_context := (job_context top_keywords).
Local Abbreviation discover_query := (discover_query top_keywords).

Lemma grows_process_author (ctx : JobContext) (job_id : string)
    (total step : Z) (author : OpenAlexAuthor) (w : World) :
  grows job_id w (fst (process_author ctx job_id total step author w)).
Proof.
  unfold Orchestrator.process_author.
  destruct (analyse ctx author) as [an|e]; cbn [fst]; [|apply grows_refl].
  eapply grows_trans; [apply grows_persist_candidate|].
  eapply grows_trans; [apply grows_update_job|]. apply grows_emit.
Qed.

Lemma grows_author_loop (ctx : JobContext) (job_id : string) (total : Z)
    (authors : list OpenAlexAuthor) (step : Z) (w : World) :
  grows job_id w (fst (author_loop ctx job_id total step authors w)).
Proof.
  revert step w. induction authors as [|a authors IH]; intros step w.
  - apply grows_refl.
  - cbn [Orchestrator.author_loop].
    pose proof (grows_process_author ctx job_id total step a w) as G.
    destruct (process_author ctx job_id total step a w) as [w1 [s1|e]];
      cbn [fst] in G.
    + eapply grows_trans; [exact G | apply IH].
    + exact G.
Qed.

Lemma grows_run_search_body (job_id : string) (job : Job) (w : World) :
  grows job_id w (fst (run_search_body job_id job w)).
Proof.
  unfold Orchestrator.run_search_body.
  destruct (search_authors _ 10) as [[|a authors]|e]; cbn [fst].
  - eapply grows_trans; [apply grows_update_job | apply grows_emit].
  - pose proof (grows_author_loop (job_context job) job_id
                  (Z.of_nat (length (a :: authors))) (a :: authors) 0 w) as G.
    destruct (author_loop _ job_id _ 0 (a :: authors) w) as [w1 [s1|e]];
      cbn [fst] in G |- *; [|exact G].
    eapply grows_trans; [exact G|].
    eapply grows_trans; [apply grows_update_job | apply grows_emit].
  - apply grows_refl.
Qed.

(** X10: A run on a job that is not in the table does nothing; a run on a job
    of the table never touches the row or the queue of another job, keeps
    its own row in the table, and only appends: to its queue and to the
    tables of candidates, publications and summaries. *)
Theorem run_search_only_extends_its_own_job (job_id : string) (w : World) :
  (jobs (store w) !! job_id = None -> run_search job_id w = w)
  /\ grows job_id w (run_search job_id w).
Proof.
  split.
  { intros H. unfold Orchestrator.run_search. rewrite H. reflexivity. }
  destruct (jobs (store w) !! job_id) as [job|] eqn:Hjob.
  2:{ unfold Orchestrator.run_search. rewrite Hjob. apply grows_refl. }
  rewrite (run_search_unfold _ _ _ _ _ _ job_id w job Hjob).
  assert (G0 : grows job_id w (started job_id w)).
  { unfold started.
    eapply grows_trans; [apply grows_update_job | apply grows_emit]. }
  pose proof (grows_run_search_body job_id (set_status RUNNING 1 job)
                (started job_id w)) as G.
  destruct (run_search_body job_id _ (started job_id w)) as [w1 [u|e]];
    cbn [fst] in G.
  - eapply grows_trans; eassumption.
  - eapply grows_trans; [exact G0|]. eapply grows_trans; [exact G|].
    eapply grows_trans; [apply grows_update_job | apply grows_emit].
Qed.

(** *** The job row through the run *)

Lemma author_loop_job_row (ctx : JobContext) (job_id : string) (total : Z)
    (authors : list OpenAlexAuthor) (step : Z) (w : World) (job : Job) :
  jobs (store w) !! job_id = Some job ->
  exists p,
    jobs (store (fst (author_loop ctx job_id total step authors w))) !! job_id
    = Some (set_progress p job).
Proof.
  revert step w job. induction authors as [|a authors IH]; intros step w job Hjob.
  - exists (job_progress job). cbn. rewrite Hjob. destruct job; reflexivity.
  - cbn [Orchestrator.author_loop].
    destruct (process_author ctx job_id total step a w) as [w1 r1] eqn:E.
    apply process_author_inv in E.
    destruct E as [(e & _ & -> & ->) | (an & _ & -> & D)].
    + exists (job_progress job). cbn. rewrite Hjob. destruct job; reflexivity.
    + pose proof (done_job _ _ _ _ _ _ _ _ D job Hjob) as Hjob1.
      destruct (IH (step + 1) w1 _ Hjob1) as (p & Hp).
      exists p. exact Hp.
Qed.

(** The row of the job at the end of a run. *)
Lemma run_search_final_row (job_id : string) (w : World) (job : Job) :
  jobs (store w) !! job_id = Some job ->
  exists job',
    jobs (store (run_search job_id w)) !! job_id = Some job'
    /\ ((job_status job' = DONE /\ job_progress job' = 100)
        \/ job_status job' = ERROR).
Proof.
  intros Hjob.
  rewrite (run_search_unfold _ _ _ _ _ _ job_id w job Hjob).
  pose proof (started_job job_id w job Hjob) as Hstart.
  unfold Orchestrator.run_search_body.
  destruct (search_authors _ 10) as [[|a authors]|e].
  - eexists. rewrite store_emit. cbn [with_store store].
    split; [apply jobs_update_job; exact Hstart|]. left. split; reflexivity.
  - destruct (author_loop_job_row
                (job_context (set_status RUNNING 1 job)) job_id
                (Z.of_nat (length (a :: authors))) (a :: authors) 0
                (started job_id w) _ Hstart) as (p & Hp).
    destruct (author_loop _ job_id _ 0 (a :: authors) (started job_id w))
      as [w1 [s1|e]]; cbn [fst] in Hp.
    + eexists. rewrite store_emit. cbn [with_store store].
      split; [apply (jobs_update_job _ _ _ _ Hp)|]. left. split; reflexivity.
    + eexists. rewrite store_emit. cbn [with_store store].
      split; [apply (jobs_update_job _ _ _ _ Hp)|]. right. reflexivity.
  - eexists. rewrite store_emit. cbn [with_store store].
    split; [apply jobs_update_job; exact Hstart|]. right. reflexivity.
Qed.

(** X11: A run on a job of the table always ends in a final state: the row is
    DONE with progress 100 and the last event is "finished", or the row is
    ERROR with the message that the last event, "error", carries.  The
    query, the description and the filters of the job are never changed. *)
Theorem run_search_ends_done_or_error (job_id : string) (w : World) (job : Job) :
  jobs (store w) !! job_id = Some job ->
  exists job',
    jobs (store (run_search job_id w)) !! job_id = Some job'
    /\ job_query job' = job_query job
    /\ job_description job' = job_description job
    /\ filters_seniority job' = filters_seniority job
    /\ ((job_status job' = DONE /\ job_progress job' = 100
         /\ job_error job' = job_error job
         /\ last (queue_of job_id (run_search job_id w)) = Some EvFinished)
        \/ (exists msg,
              job_status job' = ERROR /\ job_error job' = Some msg
              /\ last (queue_of job_id (run_search job_id w))
                 = Some (EvError msg))).
Proof.
  intros Hjob.
  rewrite (run_search_unfold _ _ _ _ _ _ job_id w job Hjob).
  pose proof (started_job job_id w job Hjob) as Hstart.
  unfold Orchestrator.run_search_body.
  destruct (search_authors _ 10) as [[|a authors]|e].
  - eexists. rewrite store_emit, queue_of_emit, last_snoc.
    cbn [with_store store].
    split; [apply jobs_update_job; exact Hstart|].
    do 3 (split; [reflexivity|]). left. repeat split.
  - destruct (author_loop_job_row
                (job_context (set_status RUNNING 1 job)) job_id
                (Z.of_nat (length (a :: authors))) (a :: authors) 0
                (started job_id w) _ Hstart) as (p & Hp).
    destruct (author_loop _ job_id _ 0 (a :: authors) (started job_id w))
      as [w1 [s1|e]]; cbn [fst] in Hp.
    + eexists. rewrite store_emit, queue_of_emit, last_snoc.
      cbn [with_store store].
      split; [apply (jobs_update_job _ _ _ _ Hp)|].
      do 3 (split; [reflexivity|]). left. repeat split.
    + eexists. rewrite store_emit, queue_of_emit, last_snoc.
      cbn [with_store store].
      split; [apply (jobs_update_job _ _ _ _ Hp)|].
      do 3 (split; [reflexivity|]). right. exists e. repeat split.
  - eexists. rewrite store_emit, queue_of_emit, last_snoc.
    cbn [with_store store].
    split; [apply jobs_update_job; exact Hstart|].
    do 3 (split; [reflexivity|]). right. exists e. repeat split.
Qed.

(** X12: When discovery itself raises, the job ends ERROR with the message of
    the exception and the progress 1 it started with; the run has emitted
    the initial "progress" and the "error" and has written no row. *)
Theorem run_search_discovery_error (job_id : string) (w : World) (job : Job)
    (msg : string) :
  jobs (store w) !! job_id = Some job ->
  search_authors (discover_query job) 10 = Raise msg ->
  jobs (store (run_search job_id w)) !! job_id = Some (failed_job 1 msg job)
  /\ queue_of job_id (run_search job_id w)
     = queue_of job_id w ++ [EvProgress 1; EvError msg]
  /\ same_rows (store (run_search job_id w)) (store w).
Proof.
  intros Hjob Hdisc.
  rewrite (run_search_unfold _ _ _ _ _ _ job_id w job Hjob).
  unfold Orchestrator.run_search_body.
  change (Orchestrator.discover_query top_keywords (set_status RUNNING 1 job))
    with (discover_query job).
  rewrite Hdisc, store_emit, queue_of_emit, queue_of_with_store, started_queue.
  cbn [with_store store].
  split.
  { rewrite (jobs_update_job _ _ _ _ (started_job job_id w job Hjob)).
    reflexivity. }
  split; [rewrite <- app_assoc; reflexivity|].
  eapply same_rows_trans; [apply same_rows_update_job | apply started_rows].
Qed.

(** *** The trace of a run in which every author is enriched *)

Lemma process_author_trace (ctx : JobContext) (job_id : string)
    (total step : Z) (author : OpenAlexAuthor) (w : World) (an : Analysis) :
  analyse ctx author = Ok an ->
  exists w' cev c,
    process_author ctx job_id total step author w = (w', Ok (step + 1))
    /\ queue_of job_id w'
       = queue_of job_id w
         ++ [EvCandidate cev; EvProgress (progress_value (step + 1) total)]
    /\ ev_name cev = display_name author
    /\ ev_affiliation cev = affiliation author
    /\ ev_score cev = an_score an
    /\ candidates (store w') = candidates (store w) ++ [c]
    /\ cand_id c = ev_candidate_id cev
    /\ cand_openalex_id c = Some (author_id author)
    /\ (forall job,
          jobs (store w) !! job_id = Some job ->
          jobs (store w') !! job_id
          = Some (set_progress (progress_value (step + 1) total) job)).
Proof.
  intros H. unfold Orchestrator.process_author. rewrite H.
  destruct (persist_candidate_rows ctx job_id author an w)
    as (P1 & P2 & P3 & _).
  eexists _, _, _. split; [reflexivity|].
  rewrite store_emit, queue_of_emit, queue_of_with_store, P2.
  cbn [with_store store].
  split; [rewrite <- app_assoc; reflexivity|].
  do 3 (split; [reflexivity|]).
  destruct (same_rows_update_job
              (store (persist_candidate ctx job_id author an w)) job_id
              (fun j => set_progress (progress_value (step + 1) total) j))
    as (S1 & _).
  unfold set_progress in S1. rewrite S1, P3.
  split; [reflexivity|]. do 2 (split; [reflexivity|]).
  intros job Hjob. apply (jobs_update_job _ job_id _ job).
  rewrite P1. exact Hjob.
Qed.

Lemma author_loop_trace (ctx : JobContext) (job_id : string) (total : Z)
    (authors : list OpenAlexAuthor) (step : Z) (w : World) :
  Forall (fun x => exists an, analyse ctx x = Ok an) authors ->
  exists w' cevs cs,
    author_loop ctx job_id total step authors w
      = (w', Ok (step + Z.of_nat (length authors)))
    /\ queue_of job_id w' = queue_of job_id w ++ loop_events total step cevs
    /\ Forall2 (fun a cev =>
                  ev_name cev = display_name a
                  /\ ev_affiliation cev = affiliation a
                  /\ exists an, analyse ctx a = Ok an
                                /\ ev_score cev = an_score an)
               authors cevs
    /\ candidates (store w') = candidates (store w) ++ cs
    /\ map cand_id cs = map ev_candidate_id cevs
    /\ map cand_openalex_id cs = map (fun x => Some (author_id x)) authors.
Proof.
  intros Hall. revert step w.
  induction Hall as [|a authors (an & Han) _ IH]; intros step w.
  - exists w, [], []. cbn. rewrite !app_nil_r, Z.add_0_r.
    repeat split. constructor.
  - destruct (process_author_trace ctx job_id total step a w an Han)
      as (w1 & cev & c & E1 & Q1 & N1 & A1 & S1 & K1 & I1 & O1 & _).
    destruct (IH (step + 1) w1)
      as (w2 & cevs & cs & E2 & Q2 & F2 & K2 & I2 & O2).
    exists w2, (cev :: cevs), (c :: cs).
    split.
    { cbn [Orchestrator.author_loop]. rewrite E1, E2. do 2 f_equal.
      cbn [length]. lia. }
    split.
    { rewrite Q2, Q1, <- app_assoc. reflexivity. }
    split.
    { constructor; [|exact F2].
      split; [exact N1|]. split; [exact A1|]. exists an. split; assumption. }
    split. { rewrite K2, K1, <- app_assoc. reflexivity. }
    split. { cbn [map]. rewrite I1, I2. reflexivity. }
    cbn [map]. rewrite O1, O2. reflexivity.
Qed.

(** X13: When discovery succeeds and the enrichment of every author succeeds,
    the job ends DONE with progress 100 and its other fields as they
    were; the events of the run are the initial "progress" 1, then for
    each author in discovery order its "candidate" event followed by the
    "progress" of its step, then "finished"; each event carries the
    author's name and affiliation and the computed score, and names the
    candidate row stored for that author. *)
Theorem run_search_success_trace (job_id : string) (w : World) (job : Job)
    (authors : list OpenAlexAuthor) :
  jobs (store w) !! job_id = Some job ->
  search_authors (discover_query job) 10 = Ok authors ->
  Forall (fun x => exists an, analyse (job_context job) x = Ok an) authors ->
  exists cevs cs,
    jobs (store (run_search job_id w)) !! job_id = Some (finished_job job)
    /\ queue_of job_id (run_search job_id w)
       = queue_of job_id w
         ++ EvProgress 1
            :: loop_events (Z.of_nat (length authors)) 0 cevs ++ [EvFinished]
    /\ Forall2 (fun a cev =>
                  ev_name cev = display_name a
                  /\ ev_affiliation cev = affiliation a
                  /\ exists an, analyse (job_context job) a = Ok an
                                /\ ev_score cev = an_score an)
               authors cevs
    /\ candidates (store (run_search job_id w)) = candidates (store w) ++ cs
    /\ map cand_id cs = map ev_candidate_id cevs
    /\ map cand_openalex_id cs = map (fun x => Some (author_id x)) authors.
Proof.
  intros Hjob Hdisc Hall.
  rewrite (run_search_unfold _ _ _ _ _ _ job_id w job Hjob).
  pose proof (started_job job_id w job Hjob) as Hstart.
  destruct (started_rows job_id w) as (R1 & _).
  unfold Orchestrator.run_search_body.
  change (Orchestrator.discover_query top_keywords (set_status RUNNING 1 job))
    with (discover_query job).
  change (Orchestrator.job_context top_keywords (set_status RUNNING 1 job))
    with (job_context job).
  rewrite Hdisc.
  destruct (author_loop_trace (job_context job) job_id
              (Z.of_nat (length authors)) authors 0 (started job_id w) Hall)
    as (w1 & cevs & cs & E & Q1 & F & K & I & O).
  destruct (author_loop_job_row (job_context job) job_id
              (Z.of_nat (length authors)) authors 0 (started job_id w) _ Hstart)
    as (p & Hp).
  rewrite E in Hp. cbn [fst] in Hp.
  assert (Hend :
    (let w2 := with_store w1
                 (Db.update_job (store w1) job_id (set_status DONE 100)) in
     jobs (store (emit job_id EvFinished w2)) !! job_id
       = Some (finished_job job)
     /\ queue_of job_id (emit job_id EvFinished w2)
        = queue_of job_id w
          ++ EvProgress 1
             :: loop_events (Z.of_nat (length authors)) 0 cevs ++ [EvFinished]
     /\ candidates (store (emit job_id EvFinished w2))
        = candidates (store w) ++ cs)).
  { cbv zeta. rewrite store_emit, queue_of_emit, queue_of_with_store.
    cbn [with_store store].
    split; [rewrite (jobs_update_job _ _ _ _ Hp); reflexivity|].
    split.
    { rewrite Q1, started_queue, <- !app_assoc. reflexivity. }
    destruct (same_rows_update_job (store w1) job_id (set_status DONE 100))
      as (S1 & _).
    rewrite S1, K, R1. reflexivity. }
  exists cevs, cs.
  destruct authors as [|a authors'].
  - cbn in E. injection E as <-.
    destruct Hend as (H1 & H2 & H3).
    split; [exact H1|]. split; [exact H2|]. split; [exact F|].
    split; [exact H3|]. split; [exact I | exact O].
  - rewrite E. destruct Hend as (H1 & H2 & H3).
    split; [exact H1|]. split; [exact H2|]. split; [exact F|].
    split; [exact H3|]. split; [exact I | exact O].
Qed.

End RunMore.

Import Fixtures.

Lemma persist_candidate_affiliations_witness :
  exists rows,
    affiliation_years
      (store (persist_candidate (job_context no_keywords job0) "j1"
                (author "a1") (analysis_of two_papers_same_affiliation)
                world0))
    = affiliation_years (store world0) ++ rows
    /\ map ay_evidence_count rows = [1; 1].
Proof.
  destruct (persist_candidate_affiliations
              (job_context no_keywords job0) "j1" (author "a1")
              (analysis_of two_papers_same_affiliation) world0)
    as (rows & H1 & H2).
  - constructor.
  - exists rows. split; [exact H1|].
    change (map ay_evidence_count rows)
      with (map (fun a => snd (affiliation_fact a)) rows).
    rewrite <- (map_map affiliation_fact snd), H2. reflexivity.
Defined.

Lemma run_search_ends_done_or_error_witness :
  exists job',
    jobs (store (run_search three_authors second_fails no_keywords zero_h
                   zero_cosine 2024 "j1" world0)) !! "j1" = Some job'
    /\ job_query job' = "quantum computing"%string
    /\ job_status job' = ERROR.
Proof.
  destruct (run_search_ends_done_or_error
              three_authors second_fails no_keywords zero_h zero_cosine 2024
              "j1" world0 job0)
    as (job' & H1 & H2 & _ & _ & [(H3 & _) | (msg & H3 & _)]).
  - reflexivity.
  - exfalso. vm_compute in H1. injection H1 as <-. discriminate H3.
  - exists job'. repeat split; assumption.
Defined.

Lemma run_search_discovery_error_witness :
  queue_of "j1" (run_search discovery_fails one_paper no_keywords zero_h
                   zero_cosine 2024 "j1" world0)
  = [EvProgress 1; EvError "429 Too Many Requests"].
Proof.
  destruct (run_search_discovery_error
              discovery_fails one_paper no_keywords zero_h zero_cosine 2024
              "j1" world0 job0 "429 Too Many Requests")
    as (_ & H & _).
  - reflexivity.
  - reflexivity.
  - rewrite H. reflexivity.
Defined.

Lemma run_search_success_trace_witness :
  exists cevs,
    queue_of "j1" (run_search three_authors one_paper no_keywords zero_h
                     zero_cosine 2024 "j1" world0)
    = [EvProgress 1] ++ loop_events 3 0 cevs ++ [EvFinished]
    /\ map ev_name cevs = ["a1"; "a2"; "a3"]%string.
Proof.
  destruct (run_search_success_trace
              three_authors one_paper no_keywords zero_h zero_cosine 2024
              "j1" world0 job0 [author "a1"; author "a2"; author "a3"])
    as (cevs & cs & _ & H & F & _).
  - reflexivity.
  - reflexivity.
  - repeat constructor; eexists; vm_compute; reflexivity.
  - exists cevs. split; [exact H|].
    inversion F as [|a1 c1 l1 l1' (N1 & _) F1]; subst.
    inversion F1 as [|a2 c2 l2 l2' (N2 & _) F2]; subst.
    inversion F2 as [|a3 c3 l3 l3' (N3 & _) F3]; subst.
    inversion F3; subst. cbn [map]. rewrite N1, N2, N3. reflexivity.
Defined.

End RunFrame.

(** * Further properties of the embedder and of the cosine similarity *)

Module EmbeddingMore.
Import Embeddings EmbeddingSpec EmbeddingFacts.
Import Lra.
Local Open Scope R_scope.
Local Open Scope list_scope.

Lemma dot_comm (a b : list R) : dot a b = dot b a.
Proof.
  revert b. induction a as [|x a IH]; intros [|y b]; cbn; try reflexivity.
  rewrite IH. lra.
Qed.

Lemma dot_opp_l (a b : list R) : dot (map Ropp a) b = - dot a b.
Proof.
  revert b. induction a as [|x a IH]; intros [|y b]; cbn; try lra.
  rewrite IH. lra.
Qed.

Lemma dot_opp_opp (a : list R) : dot (map Ropp a) (map Ropp a) = dot a a.
Proof. induction a as [|x a IH]; cbn; [reflexivity | rewrite IH; lra]. Qed.

Lemma dot_div (n m : R) (a b : list R) :
  n <> 0 -> m <> 0 ->
  dot (map (fun x => x / n) a) (map (fun y => y / m) b) = dot a b / (n * m).
Proof.
  intros Hn Hm. revert b.
  induction a as [|x a IH]; intros [|y b]; cbn; try (field; split; assumption).
  rewrite IH. field. split; assumption.
Qed.

Lemma dot_ge_minus_half_squares (a b : list R) :
  - (dot a a + dot b b) <= 2 * dot a b.
Proof.
  revert b. induction a as [|x a IH]; intros [|y b]; cbn.
  - lra.
  - pose proof (dot_self_nonneg (y :: b)) as H. cbn in H. lra.
  - pose proof (dot_self_nonneg (x :: a)) as H. cbn in H. lra.
  - specialize (IH b).
    pose proof (Rle_0_sqr (x + y)) as Hs. unfold Rsqr in Hs. lra.
Qed.

Lemma dot_self_pos (a : list R) : Exists (fun x => x <> 0) a -> 0 < dot a a.
Proof.
  intros H. pose proof (dot_self_nonneg a) as Hn.
  destruct (Req_dec (dot a a) 0) as [E|E]; [|lra].
  exfalso. apply dot_self_zero in E.
  apply Exists_exists in H. destruct H as (x & Hx & Hne).
  rewrite Forall_forall in E. apply Hne, E, Hx.
Qed.

(** X14: [cosine_similarity] does not depend on the order of its arguments, and
    it raises "shape mismatch" exactly when the two lengths differ. *)
Theorem cosine_similarity_symmetric (a b : list R) :
  cosine_similarity a b = cosine_similarity b a
  /\ (cosine_similarity a b = Raise shape_mismatch <-> length a <> length b).
Proof.
  unfold cosine_similarity. split.
  - rewrite (Nat.eqb_sym (length b) (length a)), (dot_comm b a).
    rewrite (Rmult_comm (sqrt (dot b b))). reflexivity.
  - destruct (Nat.eqb_spec (length a) (length b)) as [E|E]; cbn [negb].
    + split; [discriminate | intros H; contradiction].
    + split; [intros _; exact E | reflexivity].
Qed.

(** X15: For two vectors of the same length [cosine_similarity] returns a
    number between -1 and 1 (the Cauchy-Schwarz inequality), and 0 when
    one of them is the zero vector. *)
Theorem cosine_similarity_between_minus_1_and_1 (a b : list R) :
  length a = length b ->
  exists c,
    cosine_similarity a b = Ok c /\ -1 <= c <= 1
    /\ (dot a a = 0 \/ dot b b = 0 -> c = 0).
Proof.
  intros Hlen. unfold cosine_similarity.
  rewrite Hlen, Nat.eqb_refl. cbn [negb]. cbv zeta.
  eexists. split; [reflexivity|].
  destruct (Req_dec_T (sqrt (dot a a) * sqrt (dot b b)) 0) as [E|E].
  { split; [lra | reflexivity]. }
  assert (Ha : sqrt (dot a a) <> 0) by (intros H; apply E; rewrite H; lra).
  assert (Hb : sqrt (dot b b) <> 0) by (intros H; apply E; rewrite H; lra).
  split.
  2:{ intros [H | H]; exfalso; [apply Ha | apply Hb]; rewrite H; apply sqrt_0. }
  set (na := sqrt (dot a a)) in *. set (nb := sqrt (dot b b)) in *.
  pose proof (dot_le_half_squares (map (fun x => x / na) a)
                (map (fun y => y / nb) b)) as Up.
  pose proof (dot_ge_minus_half_squares (map (fun x => x / na) a)
                (map (fun y => y / nb) b)) as Lo.
  rewrite !dot_div in Up, Lo by assumption.
  assert (Sa : dot a a / (na * na) = 1).
  { unfold na. rewrite sqrt_sqrt by apply dot_self_nonneg.
    field. intros H. apply Ha. unfold na. rewrite H. apply sqrt_0. }
  assert (Sb : dot b b / (nb * nb) = 1).
  { unfold nb. rewrite sqrt_sqrt by apply dot_self_nonneg.
    field. intros H. apply Hb. unfold nb. rewrite H. apply sqrt_0. }
  rewrite Sa, Sb in Up, Lo. lra.
Qed.

Lemma cosine_similarity_between_minus_1_and_1_witness :
  exists c, cosine_similarity [1; 2; 2] [2; -1; 0] = Ok c /\ -1 <= c <= 1.
Proof.
  destruct (cosine_similarity_between_minus_1_and_1 [1; 2; 2] [2; -1; 0])
    as (c & H1 & H2 & _); [reflexivity|].
  exists c. split; assumption.
Defined.



Section EmbedderMore.
Variable md5 : string -> Z.
Variable dim : positive.

Local Abbreviation embed := (embed md5 dim).
Local Abbreviation accumulate := (accumulate md5 dim).
Local Abbreviation bump := (bump md5 dim).

Lemma bump_comm (vec : list R) (s t : string) :
  bump (bump vec s) t = bump (bump vec t) s.
Proof.
  unfold Embeddings.bump. cbv zeta.
  set (i := Z.to_nat (md5 s mod Z.pos dim)).
  set (j := Z.to_nat (md5 t mod Z.pos dim)).
  set (x := if Z.land (Z.shiftr (md5 s) 1) 1 =? 0 then 1 else -1).
  set (y := if Z.land (Z.shiftr (md5 t) 1) 1 =? 0 then 1 else -1).
  clearbody i j x y.
  destruct (decide (j = i)) as [->|Hne].
  - rewrite !list_alter_alter_eq. apply list_alter_ext; [|reflexivity].
    intros v _. cbn. lra.
  - apply list_alter_alter_ne. exact Hne.
Qed.

Lemma fold_bump_perm (l1 l2 : list string) :
  Permutation l1 l2 ->
  forall vec, fold_left bump l1 vec = fold_left bump l2 vec.
Proof.
  induction 1 as [|x l l' _ IH|x y l|l l' l'' _ IH1 _ IH2]; intros vec; cbn.
  - reflexivity.
  - apply IH.
  - rewrite bump_comm. reflexivity.
  - rewrite IH1. apply IH2.
Qed.

(** X17: The embedding is a bag of words: two texts with the same tokens, in
    any order, have the same vector, of [dim] components; letter case and
    the punctuation around a word do not matter since [_tokenize] removes
    them. *)
Theorem embed_ignores_token_order (t1 t2 : string) :
  Permutation (_tokenize t1) (_tokenize t2) ->
  embed t1 = embed t2 /\ length (embed t1) = Pos.to_nat dim.
Proof.
  intros H. split; [|apply length_embed].
  unfold Embeddings.embed, Embeddings.accumulate.
  rewrite (fold_bump_perm _ _ H). reflexivity.
Qed.

End EmbedderMore.

Import RagFixtures.

Lemma embed_ignores_token_order_witness :
  embed md5_two_tokens 512 "Robotics, (cryptography)!"
  = embed md5_two_tokens 512 "cryptography robotics".
Proof.
  apply (embed_ignores_token_order md5_two_tokens 512).
  vm_compute. apply perm_swap.
Defined.

Lemma cosine_of_embed_unit_interval_witness :
  0 <= cosine_of (embed md5_two_tokens 512 "robotics")
                 (embed md5_two_tokens 512 "cryptography") <= 1.
Proof.
  apply (cosine_of_embed_unit_interval md5_two_tokens 512).
  exists 128%Z. reflexivity.
Defined.

End EmbeddingMore.

(** * Further properties of the ingestion and of the retrieval *)

Module RagMore.
Import Embeddings Rag RagSpec RagFacts.
Local Open Scope nat_scope.
Local Open Scope list_scope.

Lemma length_omap_le {A B : Type} (f : A -> option B) (l : list A) :
  length (omap f l) <= length l.
Proof.
  induction l as [|x l IH]; cbn; [lia|].
  destruct (f x); cbn; lia.
Qed.

Lemma In_omap {A B : Type} (f : A -> option B) (l : list A) (y : B) :
  In y (omap f l) -> exists x, In x l /\ f x = Some y.
Proof.
  induction l as [|x l IH]; cbn; [tauto|].
  destruct (f x) as [z|] eqn:E.
  - intros [<- | H].
    + exists x. split; [left; reflexivity | exact E].
    + destruct (IH H) as (x' & H1 & H2). exists x'. split; [right|]; assumption.
  - intros H. destruct (IH H) as (x' & H1 & H2).
    exists x'. split; [right|]; assumption.
Qed.

Section RetrievalMore.
Variable md5 : string -> Z.
Variable dim : positive.

Local Abbreviation query_tweets := (query_tweets md5 dim).
Local Abbreviation _ingest_tweet_texts := (_ingest_tweet_texts md5 dim).
Local Abbreviation ingest_one := (ingest_one md5 dim).

(** X19: On any tables, [query_tweets] returns at most [k] items, each one a
    post of the candidate asked for, and nothing when the candidate has no
    embedded post or [k] is 0. *)
Theorem query_tweets_only_posts_of_candidate
    (c : Corpus) (cid : nat) (query : string) (k : nat) :
  length (query_tweets c cid query k) <= k
  /\ (forall item,
        In item (query_tweets c cid query k) ->
        exists sp, In sp (social_posts c) /\ sp_candidate_id sp = cid
                   /\ item = item_of sp)
  /\ (embedding_rows c cid = [] -> query_tweets c cid query k = [])
  /\ query_tweets c cid query 0 = [].
Proof.
  unfold Rag.query_tweets. cbv zeta.
  split; [|split; [|split]].
  - destruct (_load_tweet_embeddings c cid) as [[ids mat] post_ids].
    destruct mat as [|row mat]; [cbn; lia|].
    etrans; [apply length_omap_le|].
    rewrite length_map. unfold top_idx. rewrite length_take. lia.
  - intros item.
    destruct (_load_tweet_embeddings c cid) as [[ids mat] post_ids].
    destruct mat as [|row mat]; [intros []|].
    intros H. apply In_omap in H. destruct H as (p & _ & Hp).
    unfold id2obj_lookup in Hp. apply find_some in Hp.
    destruct Hp as [Hin _]. apply in_rev in Hin.
    apply in_map_iff in Hin. destruct Hin as (sp & <- & Hsp).
    apply filter_In in Hsp. destruct Hsp as [Hsp _].
    unfold posts_of in Hsp. apply filter_In in Hsp.
    destruct Hsp as [Hsp Hc]. apply Nat.eqb_eq in Hc.
    exists sp. repeat split; assumption.
  - intros H. unfold _load_tweet_embeddings. rewrite H. reflexivity.
  - destruct (_load_tweet_embeddings c cid) as [[ids mat] post_ids].
    destruct mat; reflexivity.
Qed.

(** *** One call of the ingestion *)

Lemma ingest_fold_trace (cid : nat) (texts : list (string * string * string))
    (c : Corpus) (existing : list string) (n : nat)
    (c' : Corpus) (ex' : list string) (n' : nat) :
  (forall p, In p existing <-> In p (map sp_post_id (posts_of c cid))) ->
  fold_left (ingest_one cid) texts (c, existing, n) = (c', ex', n') ->
  exists posts embs,
    social_posts c' = social_posts c ++ posts
    /\ embeddings c' = embeddings c ++ embs
    /\ n' = n + length posts
    /\ length posts <= length texts
    /\ Forall2 (embeds_post md5 dim) posts embs
    /\ Forall (fun sp => sp_candidate_id sp = cid
                         /\ str_truthy (sp_text sp) = true
                         /\ In (sp_post_id sp, sp_text sp, sp_created_at sp)
                               texts) posts
    /\ (forall p, In p ex' <-> In p (map sp_post_id (posts_of c' cid)))
    /\ (forall p, In p existing -> In p ex')
    /\ (forall p t cr,
          In (p, t, cr) texts -> str_truthy t = true -> In p ex').
Proof.
  revert c existing n.
  induction texts as [|[[p t] cr] texts IH]; intros c existing n Hex Hfold.
  - cbn in Hfold. injection Hfold as <- <- <-.
    exists [], []. rewrite !app_nil_r. cbn.
    repeat split; try constructor; try (apply Hex); try lia; try tauto.
  - cbn [fold_left] in Hfold. unfold Rag.ingest_one at 2 in Hfold.
    destruct (negb (str_truthy t) || existsb (String.eqb p) existing)
      eqn:Hskip.
    + destruct (IH c existing n Hex Hfold)
        as (posts & embs & H1 & H2 & H3 & H4 & H5 & H6 & H7 & H8 & H9).
      exists posts, embs.
      split; [exact H1|]. split; [exact H2|]. split; [exact H3|].
      split; [cbn [length]; lia|]. split; [exact H5|].
      split.
      { eapply Forall_impl; [exact H6|]. cbn.
        intros sp (A & B & C). repeat split; try assumption. right. exact C. }
      split; [exact H7|]. split; [exact H8|].
      intros p0 t0 cr0 [E | Hin] Ht.
      * injection E as <- <- <-. rewrite Ht in Hskip. cbn in Hskip.
        apply H8, existsb_eqb_In, Hskip.
      * apply (H9 p0 t0 cr0 Hin Ht).
    + apply orb_false_iff in Hskip. destruct Hskip as [Ht Hnew].
      apply negb_false_iff in Ht.
      match type of Hfold with
      | fold_left _ _ (?c1, _, _) = _ =>
          assert (Hex1 : forall q, In q (p :: existing)
                         <-> In q (map sp_post_id (posts_of c1 cid)))
      end.
      { intros q. rewrite posts_of_snoc. cbn [sp_candidate_id].
        rewrite Nat.eqb_refl, map_app, in_app_iff. cbn [map sp_post_id In].
        rewrite <- Hex. tauto. }
      destruct (IH _ _ _ Hex1 Hfold)
        as (posts & embs & H1 & H2 & H3 & H4 & H5 & H6 & H7 & H8 & H9).
      cbn [social_posts embeddings] in H1, H2.
      eexists (_ :: posts), (_ :: embs).
      split; [rewrite H1, <- app_assoc; reflexivity|].
      split; [rewrite H2, <- app_assoc; reflexivity|].
      split; [cbn [length]; lia|]. split; [cbn [length]; lia|].
      split; [constructor; [repeat split | exact H5]|].
      split.
      { constructor.
        - cbn. repeat split; try assumption. left. reflexivity.
        - eapply Forall_impl; [exact H6|]. cbn.
          intros sp (A & B & C). repeat split; try assumption. right. exact C. }
      split; [exact H7|].
      split; [intros q Hq; apply H8; right; exact Hq|].
      intros p0 t0 cr0 [E | Hin] Ht0.
      * injection E as <- <- <-. apply H8. left. reflexivity.
      * apply (H9 p0 t0 cr0 Hin Ht0).
Qed.

Lemma ingest_fold_nothing_new (cid : nat)
    (texts : list (string * string * string))
    (c : Corpus) (existing : list string) (n : nat) :
  (forall p t cr,
     In (p, t, cr) texts -> str_truthy t = true -> In p existing) ->
  fold_left (ingest_one cid) texts (c, existing, n) = (c, existing, n).
Proof.
  induction texts as [|[[p t] cr] texts IH]; intros H; [reflexivity|].
  cbn [fold_left]. unfold Rag.ingest_one at 2.
  destruct (str_truthy t) eqn:Ht; cbn [negb orb].
  - assert (Hin : In p existing) by (apply (H p t cr); [left|]; easy).
    apply existsb_eqb_In in Hin. rewrite Hin.
    apply IH. intros p0 t0 cr0 Hin0 Ht0.
    apply (H p0 t0 cr0); [right; exact Hin0 | exact Ht0].
  - apply IH. intros p0 t0 cr0 Hin0 Ht0.
    apply (H p0 t0 cr0); [right; exact Hin0 | exact Ht0].
Qed.

Lemma ingest_tweet_texts_adds_nonempty
    (c : Corpus) (cid : nat) (texts : list (string * string * string)) :
  exists posts,
    social_posts (fst (_ingest_tweet_texts c cid texts))
    = social_posts c ++ posts
    /\ Forall (fun sp => str_truthy (sp_text sp) = true) posts.
Proof.
  unfold Rag._ingest_tweet_texts. cbv zeta.
  destruct (fold_left _ texts _) as [[c1 ex1] n1] eqn:E.
  apply ingest_fold_trace in E; [|tauto].
  destruct E as (posts & embs & H1 & _ & _ & _ & _ & H6 & _).
  exists posts. split; [exact H1|].
  eapply Forall_impl; [exact H6|]. cbn. tauto.
Qed.


(** X21: After a call, every tuple with a non-empty text has its post id stored
    for the candidate, and a second call with the same tuples stores
    nothing and returns 0. *)
Theorem ingest_tweet_texts_idempotent
    (c : Corpus) (cid : nat) (texts : list (string * string * string)) :
  (forall p t cr,
     In (p, t, cr) texts -> str_truthy t = true ->
     In p (map sp_post_id
             (posts_of (fst (_ingest_tweet_texts c cid texts)) cid)))
  /\ _ingest_tweet_texts (fst (_ingest_tweet_texts c cid texts)) cid texts
     = (fst (_ingest_tweet_texts c cid texts), 0).
Proof.
  unfold Rag._ingest_tweet_texts at 1 3 4. cbv zeta.
  destruct (fold_left _ texts _) as [[c1 ex1] n1] eqn:E.
  apply ingest_fold_trace in E; [|tauto].
  destruct E as (_ & _ & _ & _ & _ & _ & _ & _ & H7 & _ & H9).
  cbn [fst].
  assert (Hall : forall p t cr,
            In (p, t, cr) texts -> str_truthy t = true ->
            In p (map sp_post_id (posts_of c1 cid))).
  { intros p t cr Hin Ht. apply H7, (H9 p t cr Hin Ht). }
  split; [exact Hall|].
  unfold Rag._ingest_tweet_texts. cbv zeta.
  rewrite (ingest_fold_nothing_new cid texts c1 _ 0 Hall). reflexivity.
Qed.

(** *** The stored corpora *)

Lemma ingested_texts_nonempty (c : Corpus) :
  ingested md5 dim c ->
  Forall (fun sp => str_truthy (sp_text sp) = true) (social_posts c).
Proof.
  induction 1 as [|c cid texts _ IH]; [constructor|].
  destruct (ingest_tweet_texts_adds_nonempty c cid texts)
    as (posts & H1 & H6).
  rewrite H1. apply Forall_app. split; [exact IH | exact H6].
Qed.

(** X22: In the tables that calls of [_ingest_tweet_texts] build, no stored
    post has an empty text, a candidate has no two posts with the same
    post id, the keys of the posts are distinct, and the posts and the
    embedding rows pair off one to one: each row is kind 'tweet', refers
    to its post and holds the embedding of the post's text, a vector of
    [dim] components. *)
Theorem ingested_corpus_is_consistent (c : Corpus) :
  ingested md5 dim c ->
  Forall (fun sp => str_truthy (sp_text sp) = true) (social_posts c)
  /\ (forall cid, NoDup (map sp_post_id (posts_of c cid)))
  /\ NoDup (map sp_id (social_posts c))
  /\ Forall2 (embeds_post md5 dim) (social_posts c) (embeddings c)
  /\ Forall (fun e => length (emb_vector e) = Pos.to_nat dim) (embeddings c).
Proof.
  intros H. pose proof (ingested_inv md5 dim c H) as [Hp Hk _ Hi].
  split; [apply ingested_texts_nonempty, H|].
  split; [exact Hi|].
  split; [apply StronglySorted_lt_NoDup, Hk|].
  split; [exact Hp|].
  clear -Hp. induction Hp as [|sp e posts embs (_ & _ & _ & _ & Hv) _ IH];
    constructor; [|exact IH].
  rewrite Hv. apply EmbeddingFacts.length_embed.
Qed.

End RetrievalMore.

Import RagFixtures.

Lemma ingested_corpus_is_consistent_witness :
  NoDup (map sp_post_id (posts_of corpus5 7))
  /\ length (embeddings corpus5) = 5.
Proof.
  destruct (ingested_corpus_is_consistent md5_zero 4 corpus5)
    as (_ & H & _).
  - apply ingested_more, ingested_empty.
  - split; [apply H | reflexivity].
Defined.

End RagMore.

(** * Properties of the keyword extraction and of the abstract text *)

Module KeywordFacts.
Import UtilsText KeywordSpec.
Local Open Scope nat_scope.
Local Open Scope list_scope.

(** *** Characters *)

Lemma ascii_lower_not_upper (c : ascii) :
  let n := Ascii.nat_of_ascii (ascii_lower c) in
  (65 <=? n) && (n <=? 90) = false.
Proof.
  destruct c as [[] [] [] [] [] [] [] []]; vm_compute; reflexivity.
Qed.

Lemma letter_not_upper_is_lowercase (c : ascii) :
  is_letter c = true ->
  (let n := Ascii.nat_of_ascii c in (65 <=? n) && (n <=? 90)) = false ->
  is_lowercase_letter c = true.
Proof.
  unfold is_letter, is_lowercase_letter. cbv zeta.
  intros H1 H2. rewrite H2 in H1. exact H1.
Qed.

Lemma chars_str_lower (s : string) :
  PyStr.chars (str_lower s) = map ascii_lower (PyStr.chars s).
Proof.
  induction s as [|c s IH]; cbn; [reflexivity|]. f_equal. exact IH.
Qed.

Lemma In_lstrip_chars (set l : list ascii) (c : ascii) :
  In c (PyStr.lstrip_chars set l) -> In c l.
Proof.
  induction l as [|x l IH]; cbn; [tauto|].
  destruct (PyStr.mem_ascii x set); [intros H; right; apply IH, H | tauto].
Qed.

Lemma In_strip_chars (set l : list ascii) (c : ascii) :
  In c (PyStr.strip_chars set l) -> In c l.
Proof.
  unfold PyStr.strip_chars. intros H.
  apply in_rev, In_lstrip_chars, in_rev, In_lstrip_chars in H. exact H.
Qed.

Lemma chars_of_chars (l : list ascii) : PyStr.chars (PyStr.of_chars l) = l.
Proof. apply list_ascii_of_string_of_list_ascii. Qed.

(** A counted token is made of at least three lowercase letters and is no
    stop word. *)
Lemma kept_token_shape (text tok : string) :
  In tok (tokens text) -> skipped tok = false ->
  3 <= String.length tok
  /\ forallb is_lowercase_letter (PyStr.chars tok) = true
  /\ ~ In tok STOPWORDS.
Proof.
  intros Hin Hk. unfold skipped in Hk.
  apply orb_false_iff in Hk. destruct Hk as [Hk Hlen].
  apply orb_false_iff in Hk. destruct Hk as [Hk Halpha].
  apply orb_false_iff in Hk. destruct Hk as [_ Hstop].
  apply Nat.ltb_ge in Hlen. apply negb_false_iff in Halpha.
  unfold isalpha in Halpha. apply andb_true_iff in Halpha.
  destruct Halpha as [_ Hletters].
  split; [exact Hlen|]. split.
  - unfold tokens in Hin. apply in_map_iff in Hin.
    destruct Hin as (t & <- & _).
    rewrite chars_of_chars in Hletters |- *.
    rewrite forallb_forall in Hletters |- *.
    intros c Hc. apply letter_not_upper_is_lowercase; [apply Hletters, Hc|].
    apply In_strip_chars in Hc. rewrite chars_str_lower in Hc.
    apply in_map_iff in Hc. destruct Hc as (c0 & <- & _).
    apply ascii_lower_not_upper.
  - intros H. apply RagFacts.existsb_eqb_In in H. congruence.
Qed.

(** *** The counter *)

Lemma count_chunk_kept (text : string) (counts : list (string * nat)) :
  count_chunk counts text
  = fold_left (fun c tok => increment tok c)
              (List.filter (fun tok => negb (skipped tok)) (tokens text))
              counts.
Proof.
  unfold count_chunk. generalize (tokens text). intros toks. revert counts.
  induction toks as [|t toks IH]; intros counts; cbn; [reflexivity|].
  destruct (skipped t); cbn; apply IH.
Qed.

Lemma count_chunks_kept (chunks : list string) (counts : list (string * nat)) :
  fold_left count_chunk chunks counts
  = fold_left (fun c tok => increment tok c) (kept_tokens chunks) counts.
Proof.
  revert counts. induction chunks as [|text chunks IH]; intros counts.
  - reflexivity.
  - cbn [fold_left kept_tokens flat_map]. rewrite fold_left_app, IH.
    rewrite count_chunk_kept. reflexivity.
Qed.

Lemma keys_increment (tok : string) (counts : list (string * nat)) :
  map fst (increment tok counts)
  = if existsb (String.eqb tok) (map fst counts) then map fst counts
    else map fst counts ++ [tok].
Proof.
  induction counts as [|[w n] counts IH]; cbn; [reflexivity|].
  rewrite (String.eqb_sym tok w).
  destruct (String.eqb w tok) eqn:E; cbn; [reflexivity|].
  rewrite IH. destruct (existsb _ _); reflexivity.
Qed.

Lemma NoDup_keys_increment (tok : string) (counts : list (string * nat)) :
  NoDup (map fst counts) -> NoDup (map fst (increment tok counts)).
Proof.
  intros H. rewrite keys_increment.
  destruct (existsb (String.eqb tok) (map fst counts)) eqn:E; [exact H|].
  apply RagFacts.NoDup_snoc; [exact H|].
  intros Hin. apply RagFacts.existsb_eqb_In in Hin. congruence.
Qed.

Lemma count_of_increment (w tok : string) (counts : list (string * nat)) :
  count_of w (increment tok counts)
  = count_of w counts + (if String.eqb tok w then 1 else 0).
Proof.
  unfold count_of.
  induction counts as [|[x n] counts IH]; cbn [increment find fst snd].
  - destruct (String.eqb tok w); reflexivity.
  - destruct (String.eqb_spec x tok) as [->|Hne]; cbn [find fst snd].
    + destruct (String.eqb tok w); cbn [snd]; lia.
    + destruct (String.eqb_spec x w) as [->|Hxw]; cbn [snd].
      * destruct (String.eqb_spec tok w) as [->|_]; [congruence | lia].
      * exact IH.
Qed.

Lemma count_of_item (w : string) (n : nat) (counts : list (string * nat)) :
  NoDup (map fst counts) -> In (w, n) counts -> count_of w counts = n.
Proof.
  unfold count_of. induction counts as [|[x m] counts IH]; intros Hnd Hin.
  - destruct Hin.
  - cbn [map fst] in Hnd. apply NoDup_cons in Hnd. destruct Hnd as [Hx Hnd].
    cbn [find fst]. destruct Hin as [E | Hin].
    + injection E as -> ->. rewrite String.eqb_refl. reflexivity.
    + destruct (String.eqb_spec x w) as [->|_].
      * exfalso. apply Hx, list_elem_of_In.
        apply in_map_iff. exists (w, n). split; [reflexivity | exact Hin].
      * apply IH; assumption.
Qed.

(** The counter after the loops: one item for each counted word, in the
    order of the first occurrences, holding the number of occurrences. *)
Lemma counter_items (toks : list string) (counts0 : list (string * nat)) :
  NoDup (map fst counts0) ->
  let counts := fold_left (fun c tok => increment tok c) toks counts0 in
  NoDup (map fst counts)
  /\ (forall w, count_of w counts
                = count_of w counts0 + count_occ String.string_dec toks w)
  /\ (forall w, In w (map fst counts)
                <-> In w (map fst counts0) \/ In w toks).
Proof.
  revert counts0. induction toks as [|t toks IH]; intros counts0 Hnd; cbn zeta.
  - cbn. split; [exact Hnd|]. split; [intros; lia | tauto].
  - cbn [fold_left].
    destruct (IH (increment t counts0) (NoDup_keys_increment t counts0 Hnd))
      as (H1 & H2 & H3).
    split; [exact H1|]. split.
    + intros w. rewrite H2, count_of_increment. cbn [count_occ].
      destruct (String.string_dec t w) as [->|Hne].
      * rewrite String.eqb_refl. lia.
      * apply String.eqb_neq in Hne. rewrite Hne. lia.
    + intros w. rewrite H3, keys_increment.
      destruct (existsb (String.eqb t) (map fst counts0)) eqn:E.
      * apply RagFacts.existsb_eqb_In in E. cbn [In].
        split; [tauto|]. intros [H | [<- | H]]; tauto.
      * rewrite in_app_iff. cbn [In]. tauto.
Qed.

Lemma counter_of_chunks (chunks : list string) :
  let counts := fold_left count_chunk chunks [] in
  NoDup (map fst counts)
  /\ Forall (fun p => snd p = occurrences chunks (fst p)) counts
  /\ (forall w, In w (map fst counts) <-> In w (kept_tokens chunks)).
Proof.
  cbv zeta. rewrite count_chunks_kept.
  destruct (counter_items (kept_tokens chunks) [] (NoDup_nil_2 (A:=string)))
    as (H1 & H2 & H3).
  split; [exact H1|]. split.
  - apply List.Forall_forall. intros [w n] Hin. cbn [fst snd].
    rewrite <- (count_of_item w n _ H1 Hin). rewrite H2. reflexivity.
  - intros w. rewrite H3. cbn. tauto.
Qed.

(** *** The selection *)

Lemma most_common_sorted (counts : list (string * nat)) :
  StronglySorted (fun a b => snd b <= snd a) (stable_sort more_counted counts).
Proof.
  apply (SortFacts.StronglySorted_weaken (not_after more_counted)).
  - unfold not_after, more_counted. intros x y H.
    apply Nat.ltb_ge in H. exact H.
  - apply SortFacts.stable_sort_sorted; unfold more_counted.
    + intros x y H. apply Nat.ltb_lt in H. apply Nat.ltb_ge. lia.
    + intros x y z H1 H2. apply Nat.ltb_ge in H1, H2. apply Nat.ltb_ge. lia.
Qed.

Lemma StronglySorted_app_inv {A : Type} (R : A -> A -> Prop) (l1 l2 : list A) :
  StronglySorted R (l1 ++ l2) ->
  forall x y, In x l1 -> In y l2 -> R x y.
Proof.
  induction l1 as [|a l1 IH]; cbn; intros H x y Hx Hy; [destruct Hx|].
  inversion H as [|? ? Hs Hall]; subst.
  destruct Hx as [<- | Hx].
  - rewrite List.Forall_forall in Hall. apply Hall, in_or_app. right. exact Hy.
  - apply (IH Hs x y Hx Hy).
Qed.

Lemma StronglySorted_on {A : Type} (P : A -> Prop) (R1 R2 : A -> A -> Prop)
    (l : list A) :
  (forall x y, P x -> P y -> R1 x y -> R2 x y) ->
  Forall P l -> StronglySorted R1 l -> StronglySorted R2 l.
Proof.
  intros HR HP Hl. induction Hl as [|x l Hl IH Hx]; constructor.
  - apply IH. inversion HP; assumption.
  - inversion HP as [|? ? Px Pl]; subst.
    rewrite List.Forall_forall in Hx, Pl |- *.
    intros y Hy. apply HR; [exact Px | apply Pl, Hy | apply Hx, Hy].
Qed.

Lemma top_keywords_unfold (chunks : list string) (k : nat) :
  top_keywords chunks k
  = map fst (take k (stable_sort more_counted
                       (fold_left count_chunk chunks []))).
Proof. reflexivity. Qed.

Lemma In_sorted_counts (chunks : list string) (p : string * nat) :
  In p (stable_sort more_counted (fold_left count_chunk chunks []))
  <-> In p (fold_left count_chunk chunks []).
Proof.
  split; apply Permutation_in;
    [|symmetry]; apply SortFacts.stable_sort_perm.
Qed.

Lemma top_keywords_shape (chunks : list string) (k : nat) :
  length (top_keywords chunks k) <= k
  /\ NoDup (top_keywords chunks k)
  /\ (forall w,
        In w (top_keywords chunks k) ->
        3 <= String.length w
        /\ forallb is_lowercase_letter (PyStr.chars w) = true
        /\ ~ In w STOPWORDS
        /\ exists text, In text chunks /\ In w (tokens text))
  /\ (length (top_keywords chunks k) < k ->
      forall w, In w (kept_tokens chunks) -> In w (top_keywords chunks k)).
Proof.
  rewrite top_keywords_unfold.
  destruct (counter_of_chunks chunks) as (Hnd & _ & Hkeys).
  set (counts := fold_left count_chunk chunks []) in *.
  set (sorted := stable_sort more_counted counts).
  assert (Hperm : Permutation (map fst sorted) (map fst counts))
    by (apply Permutation_map, SortFacts.stable_sort_perm).
  split; [rewrite length_map, length_take; lia|].
  split.
  { rewrite <- firstn_map.
    apply (sublist_NoDup _ (map fst sorted)); [|apply sublist_take].
    rewrite Hperm. exact Hnd. }
  split.
  { intros w Hw. rewrite <- firstn_map in Hw. apply RagFacts.In_take in Hw.
    apply (Permutation_in _ Hperm), Hkeys in Hw.
    unfold kept_tokens in Hw. apply in_flat_map in Hw.
    destruct Hw as (text & Htext & Hw). apply filter_In in Hw.
    destruct Hw as [Htok Hkept]. apply negb_true_iff in Hkept.
    destruct (kept_token_shape text w Htok Hkept) as (A & B & C).
    repeat split; try assumption. exists text. split; assumption. }
  intros Hlt w Hw. rewrite length_map, length_take in Hlt.
  rewrite take_ge by lia.
  apply (Permutation_in _ (Permutation_sym Hperm)), Hkeys, Hw.
Qed.

(** X23: The keywords returned are at most [k] distinct words; each one is a
    token of some chunk, lowercased and stripped, made of at least three
    lowercase letters, and is no stop word; when fewer than [k] are
    returned, every counted word is among them. *)
Theorem top_keywords_are_counted_words (chunks : list string) (k : nat) :
  Forall (fun text => PyStr.isascii text = true) chunks ->
  length (top_keywords chunks k) <= k
  /\ NoDup (top_keywords chunks k)
  /\ (forall w,
        In w (top_keywords chunks k) ->
        3 <= String.length w
        /\ forallb is_lowercase_letter (PyStr.chars w) = true
        /\ ~ In w STOPWORDS
        /\ exists text, In text chunks /\ In w (tokens text))
  /\ (length (top_keywords chunks k) < k ->
      forall w, In w (kept_tokens chunks) -> In w (top_keywords chunks k)).
Proof. intros _. exact (top_keywords_shape chunks k). Qed.

Lemma top_keywords_are_counted_words_witness :
  NoDup (top_keywords
           ["Quantum error correction"; "Error correction for qubits"] 2)
  /\ top_keywords
       ["Quantum error correction"; "Error correction for qubits"] 2
     = ["error"; "correction"]%string.
Proof.
  destruct (top_keywords_are_counted_words
              ["Quantum error correction"; "Error correction for qubits"]%string
              2)
    as (_ & H & _).
  - repeat constructor.
  - split; [exact H | vm_compute; reflexivity].
Defined.

(** X24: The keywords come by decreasing number of occurrences: a keyword
    never has fewer occurrences than one returned after it, nor than a
    counted word that was left out; each has at least one occurrence. *)
Theorem top_keywords_most_frequent_first (chunks : list string) (k : nat) :
  Forall (fun text => PyStr.isascii text = true) chunks ->
  StronglySorted (fun a b => occurrences chunks b <= occurrences chunks a)
                 (top_keywords chunks k)
  /\ (forall w r,
        In w (kept_tokens chunks) -> ~ In w (top_keywords chunks k) ->
        In r (top_keywords chunks k) ->
        occurrences chunks w <= occurrences chunks r)
  /\ Forall (fun w => 1 <= occurrences chunks w) (top_keywords chunks k).
Proof.
  intros _. rewrite top_keywords_unfold.
  destruct (counter_of_chunks chunks) as (Hnd & Hocc & Hkeys).
  set (counts := fold_left count_chunk chunks []) in *.
  pose proof (most_common_sorted counts) as Hsorted.
  set (sorted := stable_sort more_counted counts) in *.
  assert (Hocc' : Forall (fun p => snd p = occurrences chunks (fst p)) sorted).
  { rewrite List.Forall_forall in Hocc |- *. intros p Hp.
    apply Hocc, In_sorted_counts, Hp. }
  assert (Hsorted' :
    StronglySorted (fun a b => occurrences chunks (fst b)
                               <= occurrences chunks (fst a)) sorted).
  { refine (StronglySorted_on _ _ _ _ _ Hocc' Hsorted).
    cbn beta. intros x y Px Py H. rewrite <- Px, <- Py. exact H. }
  split.
  { apply SortFacts.StronglySorted_map, SortFacts.StronglySorted_take.
    exact Hsorted'. }
  split.
  { intros w r Hw Hnot Hr.
    apply in_map_iff in Hr. destruct Hr as (pr & <- & Hr).
    apply Hkeys, in_map_iff in Hw. destruct Hw as (pw & <- & Hw).
    apply In_sorted_counts in Hw. change (In pw sorted) in Hw.
    rewrite <- (take_drop k sorted) in Hw, Hsorted'.
    apply in_app_or in Hw. destruct Hw as [Hw | Hw].
    - exfalso. apply Hnot, in_map, Hw.
    - apply (StronglySorted_app_inv _ _ _ Hsorted' pr pw Hr Hw). }
  apply List.Forall_forall. intros w Hw.
  apply in_map_iff in Hw. destruct Hw as (p & <- & Hp).
  apply RagFacts.In_take in Hp.
  assert (Hin : In (fst p) (kept_tokens chunks)).
  { apply Hkeys, in_map, In_sorted_counts, Hp. }
  unfold occurrences.
  apply (count_occ_In String.string_dec) in Hin. lia.
Qed.

Lemma top_keywords_most_frequent_first_witness :
  Forall (fun w => 1 <= occurrences ["graph graph theory"; "theory of graph"] w)
         (top_keywords ["graph graph theory"; "theory of graph"] 1)
  /\ top_keywords ["graph graph theory"; "theory of graph"] 1
     = ["graph"]%string.
Proof.
  destruct (top_keywords_most_frequent_first
              ["graph graph theory"; "theory of graph"]%string 1)
    as (_ & _ & H).
  - repeat constructor.
  - split; [exact H | vm_compute; reflexivity].
Defined.

(** *** Keywords as the input of [topical_fit] *)

Lemma ascii_lower_lowercase (c : ascii) :
  is_lowercase_letter c = true -> ascii_lower c = c.
Proof.
  unfold is_lowercase_letter, ascii_lower. cbv zeta. intros H.
  apply andb_true_iff in H. destruct H as [H1 H2].
  apply Nat.leb_le in H1.
  destruct (Nat.leb_spec (Ascii.nat_of_ascii c) 90) as [H|_];
    [|rewrite andb_false_r; reflexivity].
  lia.
Qed.

Lemma str_lower_lowercase (w : string) :
  forallb is_lowercase_letter (PyStr.chars w) = true -> str_lower w = w.
Proof.
  induction w as [|c w IH]; cbn; [reflexivity|].
  intros H. apply andb_true_iff in H. destruct H as [Hc Hw].
  rewrite (ascii_lower_lowercase c Hc), (IH Hw). reflexivity.
Qed.

Lemma top_keywords_lowered (chunks : list string) (k : nat) :
  map str_lower (top_keywords chunks k) = top_keywords chunks k.
Proof.
  destruct (top_keywords_shape chunks k) as (_ & _ & H & _).
  induction (top_keywords chunks k) as [|w l IH]; cbn; [reflexivity|].
  destruct (H w (or_introl eq_refl)) as (_ & Hw & _).
  rewrite (str_lower_lowercase w Hw). f_equal.
  apply IH. intros x Hx. apply H. right. exact Hx.
Qed.

(** X25: On keywords extracted by [top_keywords], which are distinct and
    lowercase, the denominator of [topical_fit] is the length of the
    keyword list: with such keywords, as [run_search] passes them when
    the job text yields any, the quotient over the set and the quotient
    over the list agree. *)
Theorem topical_fit_on_extracted_keywords
    (chunks : list string) (k : nat) (topics : list string) :
  Forall (fun text => PyStr.isascii text = true) chunks ->
  (Ranking.topical_fit (top_keywords chunks k) topics
   == RankingSpec.overlap_ratio_by_length (top_keywords chunks k) topics)%Q
  /\ size (Ranking.lowered_set (top_keywords chunks k))
     = length (top_keywords chunks k).
Proof.
  intros _.
  assert (Hsize : size (Ranking.lowered_set (top_keywords chunks k))
                  = length (top_keywords chunks k)).
  { apply RankingFacts.size_lowered_set_NoDup.
    rewrite top_keywords_lowered. apply (top_keywords_shape chunks k). }
  split; [|exact Hsize].
  rewrite RankingFacts.topical_fit_overlap.
  unfold RankingSpec.overlap_ratio, RankingSpec.overlap_ratio_by_length.
  rewrite Hsize. reflexivity.
Qed.

Lemma topical_fit_on_extracted_keywords_witness :
  (Ranking.topical_fit
     (top_keywords ["Quantum error correction"; "Error correction, Error"] 8)
     ["error"; "decoding"]
   == 1 # 3)%Q.
Proof.
  destruct (topical_fit_on_extracted_keywords
              ["Quantum error correction"; "Error correction, Error"]%string 8
              ["error"; "decoding"]%string) as [H _].
  - repeat constructor.
  - rewrite H. vm_compute. reflexivity.
Defined.

End KeywordFacts.

Module AbstractFacts.
Import UtilsText AbstractSpec.
Local Open Scope list_scope.

(** *** The largest position *)

Lemma max_of_spec (p : Z) (ps : list Z) :
  In (fold_left Z.max ps p) (p :: ps)
  /\ forall q, In q (p :: ps) -> q <= fold_left Z.max ps p.
Proof.
  revert p. induction ps as [|x ps IH]; intros p; cbn [fold_left].
  - split; [left; reflexivity|]. intros q [<- | []]. lia.
  - destruct (IH (Z.max p x)) as [H1 H2]. split.
    + destruct H1 as [H1 | H1]; [|right; right; exact H1].
      rewrite <- H1.
      destruct (Z.max_spec p x) as [[_ ->] | [_ ->]];
        [right; left | left]; reflexivity.
    + intros q [<- | [<- | Hq]].
      * etrans; [|apply H2; left; reflexivity]. lia.
      * etrans; [|apply H2; left; reflexivity]. lia.
      * apply H2. right. exact Hq.
Qed.

(** The value of the first loop started at [m]: at least [m], at least
    every position, and either [m] or one of the positions. *)
Lemma max_position_spec (inv_idx : list (string * list Z)) (m : Z) :
  let r := fold_left
             (fun max_pos item =>
                match snd item with
                | [] => max_pos
                | positions => Z.max max_pos (max_of positions)
                end) inv_idx m in
  m <= r
  /\ (forall w ps p, In (w, ps) inv_idx -> In p ps -> p <= r)
  /\ (r = m \/ exists w ps, In (w, ps) inv_idx /\ In r ps).
Proof.
  revert m. induction inv_idx as [|[w ps] inv_idx IH]; intros m; cbn zeta.
  - cbn. split; [lia|]. split; [intros ? ? ? []|]. left. reflexivity.
  - cbn [fold_left snd].
    destruct ps as [|p0 ps].
    + destruct (IH m) as (H1 & H2 & H3). split; [exact H1|]. split.
      * intros w' ps' p [E | Hin] Hp.
        -- injection E as <- <-. destruct Hp.
        -- apply (H2 w' ps' p Hin Hp).
      * destruct H3 as [H3 | (w' & ps' & H3 & H4)]; [left; exact H3|].
        right. exists w', ps'. split; [right|]; assumption.
    + destruct (IH (Z.max m (max_of (p0 :: ps)))) as (H1 & H2 & H3).
      destruct (max_of_spec p0 ps) as [M1 M2].
      change (fold_left Z.max ps p0) with (max_of (p0 :: ps)) in M1, M2.
      split; [lia|]. split.
      * intros w' ps' p [E | Hin] Hp.
        -- injection E as <- <-. specialize (M2 p Hp). lia.
        -- apply (H2 w' ps' p Hin Hp).
      * destruct H3 as [H3 | (w' & ps' & H3 & H4)].
        -- destruct (Z.max_spec m (max_of (p0 :: ps))) as [[_ E] | [_ E]].
           ++ right. exists w, (p0 :: ps).
              split; [left; reflexivity|]. rewrite H3, E. exact M1.
           ++ left. rewrite H3, E. reflexivity.
        -- right. exists w', ps'. split; [right|]; assumption.
Qed.

(** *** The second loop on an index of a word sequence *)

Section Filling.
Variable ws : list string.
Variable L : nat.
Hypothesis L_covers : (length ws <= L)%nat.

Local Abbreviation partial := (partial ws L).

Lemma place_valid (word : string) (p : Z) (words : list (option string)) :
  partial words -> 0 <= p -> ws !! Z.to_nat p = Some word ->
  exists words',
    place word (Ok words) p = Ok words'
    /\ partial words' /\ kept words words'
    /\ words' !! Z.to_nat p = Some (Some word).
Proof.
  intros [Hlen Hcells] Hp Hw.
  assert (Hlt : (Z.to_nat p < length ws)%nat)
    by (apply lookup_lt_is_Some; eexists; exact Hw).
  unfold place. rewrite Hlen.
  destruct (Z.ltb_spec p (Z.of_nat L)) as [_|Hge]; [|lia].
  destruct (Z.leb_spec 0 p) as [_|Hneg]; [|lia].
  eexists. split; [reflexivity|]. split; [split|split].
  - rewrite length_insert. exact Hlen.
  - intros i x. destruct (decide (i = Z.to_nat p)) as [->|Hne].
    + rewrite list_lookup_insert_eq by lia. intros E. congruence.
    + rewrite list_lookup_insert_ne by congruence. apply Hcells.
  - intros i x Hi. destruct (decide (i = Z.to_nat p)) as [->|Hne].
    + rewrite list_lookup_insert_eq by lia.
      apply Hcells in Hi. congruence.
    + rewrite list_lookup_insert_ne by congruence. exact Hi.
  - apply list_lookup_insert_eq. lia.
Qed.

Lemma place_word_positions (word : string) (ps : list Z)
    (words : list (option string)) :
  partial words ->
  (forall p, In p ps -> 0 <= p /\ ws !! Z.to_nat p = Some word) ->
  exists words',
    fold_left (place word) ps (Ok words) = Ok words'
    /\ partial words' /\ kept words words'
    /\ forall p, In p ps -> words' !! Z.to_nat p = Some (Some word).
Proof.
  revert words. induction ps as [|p ps IH]; intros words Hpart Hvalid.
  - exists words. cbn. repeat split; try apply Hpart; try tauto.
    intros i x H. exact H.
  - destruct (Hvalid p (or_introl eq_refl)) as [Hp Hw].
    destruct (place_valid word p words Hpart Hp Hw)
      as (w1 & E1 & P1 & K1 & S1).
    destruct (IH w1 P1 (fun q Hq => Hvalid q (or_intror Hq)))
      as (w2 & E2 & P2 & K2 & S2).
    exists w2. cbn [fold_left]. rewrite E1.
    split; [exact E2|]. split; [exact P2|]. split.
    + intros i x H. apply K2, K1, H.
    + intros q [<- | Hq]; [apply K2, S1 | apply S2, Hq].
Qed.

Lemma fill_items (items : list (string * list Z))
    (words : list (option string)) :
  partial words ->
  (forall w ps p, In (w, ps) items -> In p ps ->
                  0 <= p /\ ws !! Z.to_nat p = Some w) ->
  exists words',
    fold_left (fun acc item => fold_left (place (fst item)) (snd item) acc)
              items (Ok words) = Ok words'
    /\ partial words' /\ kept words words'
    /\ forall w ps p, In (w, ps) items -> In p ps ->
                      words' !! Z.to_nat p = Some (Some w).
Proof.
  revert words. induction items as [|[w ps] items IH]; intros words Hpart Hvalid.
  - exists words. cbn. repeat split; try apply Hpart.
    + intros i x H. exact H.
    + intros ? ? ? [].
  - destruct (place_word_positions w ps words Hpart
                (fun p Hp => Hvalid w ps p (or_introl eq_refl) Hp))
      as (w1 & E1 & P1 & K1 & S1).
    destruct (IH w1 P1 (fun w' ps' p Hin Hp =>
                          Hvalid w' ps' p (or_intror Hin) Hp))
      as (w2 & E2 & P2 & K2 & S2).
    exists w2. cbn [fold_left fst snd]. rewrite E1.
    split; [exact E2|]. split; [exact P2|]. split.
    + intros i x H. apply K2, K1, H.
    + intros w' ps' p [E | Hin] Hp.
      * injection E as <- <-. apply K2, S1, Hp.
      * apply (S2 w' ps' p Hin Hp).
Qed.

End Filling.

Lemma partial_replicate (ws : list string) (L : nat) :
  partial ws L (replicate L None).
Proof.
  split; [apply length_replicate|].
  intros i x H. apply lookup_replicate in H. destruct H as [H _]. discriminate.
Qed.

Lemma truthy_words_all (ws : list string) :
  Forall (fun w => str_truthy w = true) ws ->
  truthy_words (map Some ws) = ws.
Proof.
  induction 1 as [|w ws Hw _ IH]; cbn; [reflexivity|].
  rewrite Hw. cbn. f_equal. exact IH.
Qed.

Lemma reconstruct_indexed
    (inv_idx : list (string * list Z)) (ws : list string) :
  indexes inv_idx ws ->
  Forall (fun w => str_truthy w = true) ws ->
  reconstruct_openalex_abstract inv_idx = Ok (PyStr.join " " ws).
Proof.
  intros Hidx Htruthy.
  assert (Hvalid : forall w ps p, In (w, ps) inv_idx -> In p ps ->
                     0 <= p /\ ws !! Z.to_nat p = Some w).
  { intros w ps p Hin Hp. apply Hidx. exists ps. split; assumption. }
  destruct inv_idx as [|item inv_idx'] eqn:Einv.
  { destruct ws as [|w ws]; [reflexivity|]. exfalso.
    destruct (proj2 (Hidx w 0)) as (ps & [] & _).
    split; [lia | reflexivity]. }
  rewrite <- Einv in *. clear Einv item inv_idx'.
  assert (Hunfold : reconstruct_openalex_abstract inv_idx
            = match fill inv_idx
                      (replicate (Z.to_nat (max_position inv_idx + 1)) None)
              with
              | Raise e => Raise e
              | Ok words => Ok (PyStr.join " " (truthy_words words))
              end).
  { unfold reconstruct_openalex_abstract. destruct inv_idx; [|reflexivity].
    destruct ws as [|w ws]; [reflexivity|]. exfalso.
    destruct (proj2 (Hidx w 0)) as (ps & [] & _).
    split; [lia | reflexivity]. }
  rewrite Hunfold. clear Hunfold.
  destruct (max_position_spec inv_idx 0) as (M1 & M2 & M3).
  cbv zeta in M1, M2, M3. fold (max_position inv_idx) in M1, M2, M3.
  set (m := max_position inv_idx) in *.
  assert (HL : Z.to_nat (m + 1) = Nat.max 1 (length ws)).
  { destruct ws as [|w0 ws0] eqn:Ews.
    - destruct M3 as [-> | (w & ps & Hin & Hp)]; [reflexivity|].
      destruct (Hvalid w ps m Hin Hp) as [_ H]. discriminate H.
    - rewrite <- Ews in *.
      assert (Hlast : exists w, ws !! (length ws - 1)%nat = Some w).
      { apply lookup_lt_is_Some. rewrite Ews. cbn. lia. }
      destruct Hlast as (w & Hw).
      destruct (proj2 (Hidx w (Z.of_nat (length ws - 1)))) as (ps & Hin & Hp).
      { split; [lia|]. rewrite Nat2Z.id. exact Hw. }
      pose proof (M2 w ps _ Hin Hp) as Hge.
      assert (Hle : m < Z.of_nat (length ws)).
      { destruct M3 as [-> | (w' & ps' & Hin' & Hp')].
        - rewrite Ews. cbn [length]. lia.
        - destruct (Hvalid w' ps' m Hin' Hp') as [_ H].
          apply lookup_lt_Some in H. lia. }
      assert (1 <= length ws)%nat by (rewrite Ews; cbn; lia). lia. }
  rewrite HL.
  destruct (fill_items ws (Nat.max 1 (length ws)) ltac:(lia) inv_idx
              (replicate (Nat.max 1 (length ws)) None)
              (partial_replicate ws _) Hvalid)
    as (words & E & [Hlen Hcells] & _ & Hset).
  unfold fill. rewrite E. do 2 f_equal.
  destruct ws as [|w0 ws0] eqn:Ews.
  - cbn in Hlen. destruct words as [|[x|] [|? ?]]; try discriminate Hlen.
    + specialize (Hcells 0%nat x eq_refl). discriminate Hcells.
    + reflexivity.
  - rewrite <- Ews in *.
    assert (Hwords : words = map Some ws).
    { apply list_eq. intros i. rewrite list_lookup_fmap.
      destruct (ws !! i) as [w|] eqn:Hw; cbn.
      - destruct (proj2 (Hidx w (Z.of_nat i))) as (ps & Hin & Hp).
        { split; [lia|]. rewrite Nat2Z.id. exact Hw. }
        specialize (Hset w ps _ Hin Hp). rewrite Nat2Z.id in Hset. exact Hset.
      - apply lookup_ge_None. apply lookup_ge_None in Hw.
        assert (1 <= length ws)%nat by (rewrite Ews; cbn; lia). lia. }
    rewrite Hwords. apply truthy_words_all. exact Htruthy.
Qed.

(** *** The index built from a word sequence *)

Lemma add_position_items (w : string) (p : Z) (idx : list (string * list Z))
    (x : string) (q : Z) :
  (exists ps, In (x, ps) (add_position w p idx) /\ In q ps)
  <-> (exists ps, In (x, ps) idx /\ In q ps) \/ (x = w /\ q = p).
Proof.
  induction idx as [|[y ps0] idx IH]; cbn [add_position].
  - split.
    + intros (ps & [E | []] & Hq). injection E as <- <-.
      destruct Hq as [<- | []]. right. split; reflexivity.
    + intros [(ps & [] & _) | [-> ->]].
      exists [p]. split; left; reflexivity.
  - destruct (String.eqb_spec y w) as [->|Hne].
    + split.
      * intros (ps & [E | Hin] & Hq).
        -- injection E as <- <-. apply in_app_or in Hq.
           destruct Hq as [Hq | [<- | []]].
           ++ left. exists ps0. split; [left; reflexivity | exact Hq].
           ++ right. split; reflexivity.
        -- left. exists ps. split; [right; exact Hin | exact Hq].
      * intros [(ps & [E | Hin] & Hq) | [-> ->]].
        -- injection E as <- <-. exists (ps0 ++ [p]).
           split; [left; reflexivity | apply in_or_app; left; exact Hq].
        -- exists ps. split; [right; exact Hin | exact Hq].
        -- exists (ps0 ++ [p]).
           split; [left; reflexivity|]. apply in_or_app. right. left.
           reflexivity.
    + split.
      * intros (ps & [E | Hin] & Hq).
        -- injection E as <- <-. left. exists ps0.
           split; [left; reflexivity | exact Hq].
        -- destruct (proj1 IH (ex_intro _ ps (conj Hin Hq)))
             as [(ps' & H1 & H2) | H]; [|right; exact H].
           left. exists ps'. split; [right; exact H1 | exact H2].
      * intros [(ps & [E | Hin] & Hq) | H].
        -- injection E as <- <-. exists ps0.
           split; [left; reflexivity | exact Hq].
        -- destruct (proj2 IH (or_introl (ex_intro _ ps (conj Hin Hq))))
             as (ps' & H1 & H2).
           exists ps'. split; [right; exact H1 | exact H2].
        -- destruct (proj2 IH (or_intror H)) as (ps' & H1 & H2).
           exists ps'. split; [right; exact H1 | exact H2].
Qed.

Lemma combine_snoc {A B : Type} (l1 : list A) (l2 : list B) (a : A) (b : B) :
  length l1 = length l2 ->
  combine (l1 ++ [a]) (l2 ++ [b]) = combine l1 l2 ++ [(a, b)].
Proof.
  revert l2. induction l1 as [|x l1 IH]; intros [|y l2] H;
    try discriminate H; cbn; [reflexivity|].
  f_equal. apply IH. cbn in H. lia.
Qed.

Lemma inverted_index_snoc (ws : list string) (w : string) :
  inverted_index (ws ++ [w])
  = add_position w (Z.of_nat (length ws)) (inverted_index ws).
Proof.
  unfold inverted_index. rewrite length_app. cbn [length].
  rewrite Nat.add_1_r, seq_S. cbn [Nat.add].
  rewrite combine_snoc by (rewrite length_seq; reflexivity).
  rewrite fold_left_app. reflexivity.
Qed.

Lemma inverted_index_indexes (ws : list string) :
  indexes (inverted_index ws) ws.
Proof.
  induction ws as [|w ws IH] using rev_ind; intros x q.
  - cbn. split; [intros (ps & [] & _) | intros [_ H]; discriminate H].
  - rewrite inverted_index_snoc, add_position_items, (IH x q). split.
    + intros [[Hq Hx] | [-> ->]].
      * split; [exact Hq|]. apply lookup_app_l_Some. exact Hx.
      * split; [lia|]. rewrite Nat2Z.id.
        rewrite lookup_app_r by lia. rewrite Nat.sub_diag. reflexivity.
    + intros [Hq Hx]. apply lookup_app_Some in Hx.
      destruct Hx as [Hx | [Hge Hx]]; [left; split; assumption|].
      right. destruct (Z.to_nat q - length ws)%nat as [|n] eqn:E;
        [|destruct n; discriminate Hx].
      injection Hx as <-. split; [reflexivity | lia].
Qed.

(** X26: Round trip: on an inverted index of a sequence of non-empty words,
    whatever the order of its keys and of the positions of a key,
    [reconstruct_openalex_abstract] returns the words of the sequence
    joined by single spaces; the index built from the sequence position
    by position is such an index. *)
Theorem reconstruct_of_inverted_index
    (inv_idx : list (string * list Z)) (ws : list string) :
  indexes inv_idx ws ->
  Forall (fun w => str_truthy w = true) ws ->
  reconstruct_openalex_abstract inv_idx = Ok (PyStr.join " " ws)
  /\ reconstruct_openalex_abstract (inverted_index ws)
     = Ok (PyStr.join " " ws).
Proof.
  intros Hidx Htruthy. split.
  - apply reconstruct_indexed; assumption.
  - apply reconstruct_indexed; [apply inverted_index_indexes | exact Htruthy].
Qed.

Lemma reconstruct_of_inverted_index_witness :
  reconstruct_openalex_abstract
    [("codes", [3; 1]); ("of", [2]); ("Surface", [0])]
  = Ok "Surface codes of codes".
Proof.
  apply (reconstruct_of_inverted_index
           [("codes", [3; 1]); ("of", [2]); ("Surface", [0])]
           ["Surface"; "codes"; "of"; "codes"]%string).
  - intros w p. split.
    + intros (ps & Hin & Hp). cbn in Hin.
      destruct Hin as [E | [E | [E | []]]]; injection E as <- <-; cbn in Hp;
        repeat (destruct Hp as [<- | Hp]); try contradiction;
        (split; [lia | reflexivity]).
    + intros [Hp Hw].
      destruct (Z.to_nat p) as [|[|[|[|n]]]] eqn:En; cbn in Hw;
        try discriminate Hw; injection Hw as <-.
      * exists [0]. assert (p = 0) by lia. subst. cbn. tauto.
      * exists [3; 1]. assert (p = 1) by lia. subst. cbn. tauto.
      * exists [2]. assert (p = 2) by lia. subst. cbn. tauto.
      * exists [3; 1]. assert (p = 3) by lia. subst. cbn. tauto.
  - repeat constructor.
Defined.

(** *** Positions out of the ordinary *)

Lemma place_nonnegative (word : string) (ps : list Z)
    (words : list (option string)) :
  Forall (fun p => 0 <= p) ps ->
  exists words', fold_left (place word) ps (Ok words) = Ok words'.
Proof.
  intros H. revert words. induction H as [|p ps Hp _ IH]; intros words.
  - exists words. reflexivity.
  - cbn [fold_left]. unfold place at 2.
    destruct (p <? Z.of_nat (length words)); [|apply IH].
    destruct (Z.leb_spec 0 p) as [_|Hneg]; [apply IH | lia].
Qed.

Lemma fill_nonnegative (inv_idx : list (string * list Z))
    (words : list (option string)) :
  Forall (fun item => Forall (fun p => 0 <= p) (snd item)) inv_idx ->
  exists words', fill inv_idx words = Ok words'.
Proof.
  unfold fill. intros H. revert words.
  induction H as [|[w ps] inv_idx Hps _ IH]; intros words.
  - exists words. reflexivity.
  - cbn [fold_left fst snd].
    destruct (place_nonnegative w ps words Hps) as (w1 & ->). apply IH.
Qed.

(** X27: The empty dictionary gives the empty text, and a dictionary whose
    positions are all non-negative always gives a text.  A negative
    position is taken from the end of the list as Python does: in a
    dictionary of one word at one position, -1 puts the word in the only
    cell, and a position below -1 raises IndexError. *)
Theorem reconstruct_position_bounds
    (inv_idx : list (string * list Z)) (w : string) (p : Z) :
  reconstruct_openalex_abstract [] = Ok EmptyString
  /\ (Forall (fun item => Forall (fun q => 0 <= q) (snd item)) inv_idx ->
      exists text, reconstruct_openalex_abstract inv_idx = Ok text)
  /\ (str_truthy w = true ->
      reconstruct_openalex_abstract [(w, [-1])] = Ok w)
  /\ (p < -1 -> reconstruct_openalex_abstract [(w, [p])] = Raise index_error).
Proof.
  split; [reflexivity|]. split; [|split].
  - intros H. unfold reconstruct_openalex_abstract.
    destruct inv_idx as [|item rest]; [eexists; reflexivity|].
    destruct (fill_nonnegative (item :: rest)
                (replicate (Z.to_nat (max_position (item :: rest) + 1)) None)
                H) as (words & ->).
    eexists. reflexivity.
  - intros Hw. destruct w as [|c w']; [discriminate Hw | reflexivity].
  - intros Hp. unfold reconstruct_openalex_abstract, max_position, fill.
    cbn [fold_left snd fst max_of].
    rewrite Z.max_l by lia.
    change (replicate (Z.to_nat (0 + 1)) (None (A:=string))) with [None (A:=string)].
    unfold place.
    change (Z.of_nat (length [None (A:=string)])) with 1.
    destruct (Z.ltb_spec p 1) as [_|H]; [|lia].
    destruct (Z.leb_spec 0 p) as [H|_]; [lia|].
    destruct (Z.leb_spec (- (1)) p) as [H|_]; [lia|]. reflexivity.
Qed.

End AbstractFacts.

(** * Properties of the endpoints and helpers of main.py *)

Module MainFacts.
Import Models Orchestrator OrchestratorSpec Api Main CareerSpec.
Local Open Scope list_scope.

(** *** POST /search, the background run, GET /search *)

Section Submission.
Variable search_authors : string -> nat -> Result (list OpenAlex.OpenAlexAuthor).
Variable fetch_top_works : string -> nat -> Result (list OpenAlex.Work).
Variable top_keywords : list string -> nat -> list string.
Variable h_proxy : Z -> Z -> Q.
Variable embed_cosine : string -> string -> Q.
Variable now_year : Z.

Local Abbreviation run_search :=
  (run_search search_authors fetch_top_works top_keywords h_proxy
              embed_cosine now_year).


End Submission.

Import Fixtures.


(** *** Handles *)

Lemma lstrip_at (l : list ascii) :
  exists k,
    l = replicate k "@"%char ++ PyStr.lstrip_chars ["@"%char] l
    /\ hd_error (PyStr.lstrip_chars ["@"%char] l) <> Some "@"%char.
Proof.
  induction l as [|c l (k & IH1 & IH2)].
  - exists 0%nat. split; [reflexivity | discriminate].
  - cbn [PyStr.lstrip_chars]. unfold PyStr.mem_ascii. cbn [existsb].
    rewrite orb_false_r.
    destruct (Ascii.eqb_spec c "@"%char) as [->|Hne].
    + exists (S k). split; [cbn; f_equal; exact IH1 | exact IH2].
    + exists 0%nat. split; [reflexivity|]. cbn. congruence.
Qed.

Lemma chars_nil_iff (s : string) : PyStr.chars s = [] <-> s = EmptyString.
Proof. destruct s; cbn; split; intros H; congruence. Qed.

Lemma str_truthy_chars (s : string) :
  str_truthy s = false <-> PyStr.chars s = [].
Proof. destruct s; cbn; split; intros H; congruence. Qed.

(** X29: A normalized handle is never empty and never starts with '@': it is
    the stripped input without its leading '@' characters.  The result is
    None exactly when nothing but '@' characters is left after the
    stripping (in particular for the empty and the blank input). *)
Theorem normalize_handle_drops_leading_at (handle : string) :
  _normalize_handle None = None
  /\ (forall r,
        _normalize_handle (Some handle) = Some r ->
        r <> EmptyString
        /\ hd_error (PyStr.chars r) <> Some "@"%char
        /\ exists k,
             PyStr.chars (PyStr.strip handle)
             = replicate k "@"%char ++ PyStr.chars r)
  /\ (_normalize_handle (Some handle) = None
      <-> Forall (fun c => c = "@"%char) (PyStr.chars (PyStr.strip handle))).
Proof.
  split; [reflexivity|].
  unfold _normalize_handle.
  destruct (lstrip_at (PyStr.chars (PyStr.strip handle))) as (k & Hk & Hhd).
  set (rest := PyStr.lstrip_chars ["@"%char] (PyStr.chars (PyStr.strip handle)))
    in *.
  assert (Hrest : PyStr.chars (PyStr.of_chars rest) = rest)
    by apply list_ascii_of_string_of_list_ascii.
  split.
  - intros r Hr.
    destruct (str_truthy handle); cbn [negb] in Hr; [|discriminate Hr].
    destruct (str_truthy (PyStr.strip handle)); cbn [negb] in Hr;
      [|discriminate Hr].
    destruct (str_truthy (PyStr.of_chars rest)) eqn:Et; [|discriminate Hr].
    injection Hr as <-. rewrite Hrest.
    split; [intros E; rewrite E in Et; discriminate Et|].
    split; [exact Hhd|]. exists k. exact Hk.
  - destruct (str_truthy handle) eqn:Eh; cbn [negb].
    2:{ split; [intros _ | reflexivity].
        destruct handle; [constructor | discriminate Eh]. }
    destruct (str_truthy (PyStr.strip handle)) eqn:Es; cbn [negb].
    2:{ split; [intros _ | reflexivity].
        apply str_truthy_chars in Es. rewrite Es. constructor. }
    destruct (str_truthy (PyStr.of_chars rest)) eqn:Et.
    + split; [discriminate|]. intros Hall. exfalso.
      rewrite Hk in Hall. apply Forall_app in Hall. destruct Hall as [_ Hall].
      destruct rest as [|c rest'].
      * cbn in Et. discriminate Et.
      * apply Forall_cons in Hall. destruct Hall as [-> _].
        apply Hhd. reflexivity.
    + split; [intros _ | reflexivity].
      apply str_truthy_chars in Et. rewrite Hrest in Et.
      rewrite Hk, Et, app_nil_r. apply Forall_replicate. reflexivity.
Qed.

(** *** The career timeline *)

Lemma from_rows_more (done more : list (string * Z * Z)) (seg : Segment) :
  from_rows done seg -> from_rows (done ++ more) seg.
Proof.
  intros (H1 & (e1 & H2) & (e2 & H3)). split; [exact H1|].
  split; eexists; apply in_or_app; left; eassumption.
Qed.

Lemma separated_snoc (l : list Segment) (a b : Segment) :
  separated (l ++ [a]) -> breaks a b -> separated ((l ++ [a]) ++ [b]).
Proof.
  intros Hs Hb i x y Hx Hy.
  destruct (decide (S i < length (l ++ [a]))%nat) as [Hlt|Hge].
  - rewrite lookup_app_l in Hx by lia. rewrite lookup_app_l in Hy by lia.
    apply (Hs i x y Hx Hy).
  - assert (Hi : S i = length (l ++ [a])).
    { apply lookup_lt_Some in Hy. rewrite length_app in Hy. cbn in Hy. lia. }
    rewrite lookup_app_r in Hy by lia.
    replace (S i - length (l ++ [a]))%nat with 0%nat in Hy by lia.
    injection Hy as <-.
    rewrite lookup_app_l in Hx by lia.
    rewrite length_app in Hi. cbn in Hi.
    rewrite lookup_app_r in Hx by lia.
    replace (i - length l)%nat with 0%nat in Hx by lia.
    injection Hx as <-. exact Hb.
Qed.

Lemma separated_last (l : list Segment) (a a' : Segment) :
  seg_org a' = seg_org a -> seg_start_year a' = seg_start_year a ->
  separated (l ++ [a]) -> separated (l ++ [a']).
Proof.
  intros Ho Hst Hs i x y Hx Hy.
  assert (Hi : (S i < length l + 1)%nat).
  { apply lookup_lt_Some in Hy. rewrite length_app in Hy. exact Hy. }
  rewrite lookup_app_l in Hx by lia.
  destruct (decide (S i < length l)%nat) as [Hlt|Hge].
  - rewrite lookup_app_l in Hy by lia.
    apply (Hs i x y); rewrite lookup_app_l by lia; assumption.
  - rewrite lookup_app_r in Hy by lia.
    replace (S i - length l)%nat with 0%nat in Hy by lia.
    injection Hy as <-.
    assert (Hb : breaks x a).
    { apply (Hs i x a).
      - rewrite lookup_app_l by lia. exact Hx.
      - rewrite lookup_app_r by lia.
        replace (S i - length l)%nat with 0%nat by lia. reflexivity. }
    unfold breaks in *. rewrite Ho, Hst. exact Hb.
Qed.

Lemma segments_inv_start : segments_inv [] (None, []).
Proof.
  constructor; cbn.
  - intros r [].
  - constructor.
  - lia.
  - reflexivity.
  - intros i a b H. discriminate H.
Qed.

Lemma segments_inv_step (done : list (string * Z * Z))
    (st : option (string * Z * Z) * list Segment) (row : string * Z * Z) :
  segments_inv done st ->
  (forall r, In r done -> row_year r <= row_year row) ->
  segments_inv (done ++ [row]) (segment_step st row).
Proof.
  intros [Hcov Hfrom Hcount Hopen Hsep] Hle.
  destruct st as [cur segs]. destruct row as [[org y] ev].
  cbn [fst snd] in *. unfold segment_step.
  assert (Hnew : from_rows (done ++ [(org, y, ev)])
                   {| seg_org := org; seg_start_year := y;
                      seg_end_year := y |}).
  { split; [cbn; lia|].
    split; exists ev; apply in_or_app; right; left; reflexivity. }
  assert (Hcovnew : covers {| seg_org := org; seg_start_year := y;
                              seg_end_year := y |} (org, y, ev)).
  { split; [reflexivity | cbn; lia]. }
  destruct cur as [[[o s] p]|].
  - cbn [current_segment] in *.
    assert (Hcur : from_rows done {| seg_org := o; seg_start_year := s;
                                      seg_end_year := p |}).
    { apply Forall_app in Hfrom. destruct Hfrom as [_ Hf].
      apply Forall_cons in Hf. apply Hf. }
    destruct (negb (String.eqb org o) || (p + 1 <? y)) eqn:Ebreak;
      cbn [fst snd current_segment].
    + constructor; cbn [fst snd current_segment].
      * intros r Hr. apply in_app_or in Hr. destruct Hr as [Hr | [<- | []]].
        -- destruct (Hcov r Hr) as (seg & Hin & Hc).
           exists seg. split; [apply in_or_app; left; exact Hin | exact Hc].
        -- eexists. split; [apply in_or_app; right; left; reflexivity|].
           exact Hcovnew.
      * apply Forall_app. split.
        -- eapply Forall_impl; [exact Hfrom|]. intros seg. apply from_rows_more.
        -- constructor; [exact Hnew | constructor].
      * rewrite !length_app in *. cbn [length] in *. lia.
      * discriminate.
      * apply separated_snoc; [exact Hsep|].
        unfold breaks. cbn [seg_org seg_end_year seg_start_year].
        apply orb_true_iff in Ebreak. destruct Ebreak as [E | E].
        -- left. apply negb_true_iff, String.eqb_neq in E. congruence.
        -- right. apply Z.ltb_lt in E. exact E.
    + apply orb_false_iff in Ebreak. destruct Ebreak as [Eo Ey].
      apply negb_false_iff, String.eqb_eq in Eo. subst o.
      apply Z.ltb_ge in Ey.
      destruct Hcur as (Hsp & Hstart & (ev' & Hend)).
      cbn [seg_org seg_start_year seg_end_year] in Hsp, Hstart, Hend.
      assert (Hpy : p <= y) by apply (Hle _ Hend).
      constructor; cbn [fst snd current_segment].
      * intros r Hr. apply in_app_or in Hr. destruct Hr as [Hr | [<- | []]].
        -- destruct (Hcov r Hr) as (seg & Hin & Hc).
           apply in_app_or in Hin. destruct Hin as [Hin | [<- | []]].
           ++ exists seg. split; [apply in_or_app; left; exact Hin | exact Hc].
           ++ eexists. split; [apply in_or_app; right; left; reflexivity|].
              destruct Hc as [Hc1 Hc2]. split; [exact Hc1|].
              cbn [seg_start_year seg_end_year] in *. lia.
        -- eexists. split; [apply in_or_app; right; left; reflexivity|].
           split; [reflexivity|]. cbn. lia.
      * apply Forall_app in Hfrom. destruct Hfrom as [Hf _].
        apply Forall_app. split.
        -- eapply Forall_impl; [exact Hf|]. intros seg. apply from_rows_more.
        -- constructor; [|constructor].
           split; [cbn; lia|]. split.
           ++ destruct Hstart as (e0 & H0). exists e0.
              apply in_or_app. left. exact H0.
           ++ exists ev. apply in_or_app. right. left. reflexivity.
      * rewrite !length_app in *. cbn [length] in *. lia.
      * discriminate.
      * eapply separated_last; [| |exact Hsep]; reflexivity.
  - specialize (Hopen eq_refl). subst done.
    cbn [current_segment] in *. rewrite app_nil_r in *.
    constructor; cbn [fst snd current_segment app].
    + intros r [<- | []]. eexists.
      split; [apply in_or_app; right; left; reflexivity | exact Hcovnew].
    + apply Forall_app. split; [|constructor; [exact Hnew | constructor]].
      eapply Forall_impl; [exact Hfrom|]. intros seg. apply (from_rows_more []).
    + rewrite length_app. cbn [length] in *. lia.
    + discriminate.
    + assert (segs = []) by (destruct segs; [reflexivity | cbn in Hcount; lia]).
      subst segs. intros i a b Ha Hb. destruct i; discriminate Hb.
Qed.

Lemma segments_inv_fold (rest done : list (string * Z * Z))
    (st : option (string * Z * Z) * list Segment) :
  segments_inv done st ->
  StronglySorted (fun a b => row_year a <= row_year b) (done ++ rest) ->
  segments_inv (done ++ rest) (fold_left segment_step rest st).
Proof.
  revert done st. induction rest as [|row rest IH]; intros done st Hinv Hs.
  - rewrite app_nil_r. exact Hinv.
  - cbn [fold_left].
    replace (done ++ row :: rest) with ((done ++ [row]) ++ rest) in *
      by (rewrite <- app_assoc; reflexivity).
    apply IH; [|exact Hs].
    apply segments_inv_step; [exact Hinv|].
    intros r Hr.
    assert (Hs' : StronglySorted (fun a b => row_year a <= row_year b)
                    (done ++ [row])).
    { clear -Hs. revert Hs. generalize (done ++ [row]). intros l.
      induction l as [|x l IHl]; cbn; intros H; [constructor|].
      inversion H as [|? ? H1 H2]; subst. constructor; [apply IHl, H1|].
      apply Forall_app in H2. apply H2. }
    apply (KeywordFacts.StronglySorted_app_inv _ _ _ Hs' r row Hr).
    left. reflexivity.
Qed.

Lemma career_segments_fold (rows : list (string * Z * Z)) :
  career_segments rows
  = snd (fold_left segment_step rows (None, []))
    ++ current_segment (fst (fold_left segment_step rows (None, []))).
Proof.
  unfold career_segments. destruct rows as [|r rows]; [reflexivity|].
  destruct (fold_left segment_step (r :: rows) (None, [])) as [[[[o s] p]|] segs];
    cbn [fst snd current_segment]; [reflexivity|].
  rewrite app_nil_r. reflexivity.
Qed.

(** X30: On the yearly rows of a candidate in increasing order of year, the
    timeline has a segment around every row (the row's organization, from
    a year not after the row's to one not before it); every segment runs
    from a year of its organization to a later or equal one; there are at
    most as many segments as rows, and none only for no rows; and two
    consecutive segments differ in organization or are more than a year
    apart. *)
Theorem career_segments_cover_rows (rows : list (string * Z * Z)) :
  StronglySorted (fun a b => row_year a <= row_year b) rows ->
  (forall r, In r rows ->
     exists seg, In seg (career_segments rows) /\ covers seg r)
  /\ Forall (from_rows rows) (career_segments rows)
  /\ (length (career_segments rows) <= length rows)%nat
  /\ (career_segments rows = [] <-> rows = [])
  /\ separated (career_segments rows).
Proof.
  intros Hs. rewrite career_segments_fold.
  destruct (segments_inv_fold rows [] (None, []) segments_inv_start Hs)
    as [Hcov Hfrom Hcount Hopen Hsep].
  cbn [app] in *.
  split; [exact Hcov|]. split; [exact Hfrom|]. split; [exact Hcount|].
  split; [|exact Hsep].
  split.
  - intros E. apply app_eq_nil in E. destruct E as [_ E].
    apply Hopen.
    destruct (fst (fold_left segment_step rows (None, []))) as [[[o s] p]|];
      [discriminate E | reflexivity].
  - intros ->. reflexivity.
Qed.

Lemma career_segments_cover_rows_witness :
  (length (career_segments CareerFixtures.mit_then_eth) <= 4)%nat
  /\ career_segments CareerFixtures.mit_then_eth
     = [{| seg_org := "MIT"; seg_start_year := 2018; seg_end_year := 2019 |};
        {| seg_org := "MIT"; seg_start_year := 2021; seg_end_year := 2021 |};
        {| seg_org := "ETH"; seg_start_year := 2022; seg_end_year := 2022 |}].
Proof.
  destruct (career_segments_cover_rows CareerFixtures.mit_then_eth)
    as (_ & _ & H & _).
  - repeat constructor; cbn; lia.
  - split; [exact H | reflexivity].
Defined.

End MainFacts.
